(** * Federation transaction ingress of a Matrix homeserver

    A shallow embedding of [internal/httputil/internalapi.go] (the generic
    internal RPC helpers), of the federation API's [AddRoutes] and of the
    [/_matrix/federation/v1/send/{txnID}] handler ([Send],
    [processTransaction], the per-room [inputWorker] and its FIFO queue).

    The sequential helpers are plain functions.  [Send] and [run] share
    memory (two [sync.Map]s, channels, wait groups, the task records), so
    they are given as an interleaving small-step semantics: one step per
    shared-memory operation, with the local computation that follows it. *)

From Stdlib Require Import Ascii String ZArith Lia.
From stdpp Require Import gmap strings list.

Set Default Proof Using "Type".

(* ===================================================================== *)
(** * Part I: definitions                                                  *)
(* ===================================================================== *)

(** ** Contexts, time and HTTP plumbing (Go standard library) *)

(** [context.Context], as far as the code uses it: the background context,
    the context of an incoming HTTP request (cancelled when the client goes
    away) and [context.WithTimeout].  The deadline is stored as an absolute
    time in nanoseconds. *)
Inductive context :=
| Background
| RequestContext (id : nat)
| WithTimeout (parent : context) (deadline : Z).

#[global] Instance context_eq_dec : EqDecision context.
Proof. solve_decision. Defined.

(** [time.Minute], in nanoseconds. *)
Definition Minute : Z := 60 * 1000000000.

(** What decides whether a context is done: the clock and the set of
    request contexts that were cancelled. *)
Record World := mkWorld {
  now : Z;
  cancelled : gset nat;
}.

(** [<-ctx.Done()] is ready. *)
Fixpoint ctxDone (w : World) (ctx : context) : bool :=
  match ctx with
  | Background => false
  | RequestContext id => bool_decide (id ∈ cancelled w)
  | WithTimeout parent deadline => ctxDone w parent || (deadline <=? now w)%Z
  end.

(** [util.JSONResponse]: a status code and a JSON-serialisable body. *)
Record JSONResponse (J : Type) := mkJSONResponse {
  Code : Z;
  JSON : J;
}.
Arguments mkJSONResponse {J} _ _.
Arguments Code {J} _.
Arguments JSON {J} _.

Definition StatusOK : Z := 200.
Definition StatusAccepted : Z := 202.
Definition StatusBadRequest : Z := 400.
Definition StatusRequestTimeout : Z := 408.
Definition StatusInternalServerError : Z := 500.

(** [http.Request], as far as the helpers read it. *)
Record Request := mkRequest {
  Body : string;
  Context : context;
}.

(** ** internal/httputil: the generic internal API helpers *)

Module httputil.

(** [json.NewDecoder(req.Body).Decode(&request)] for a type: the decoded
    value, or the text of the decoding error. *)
Class Unmarshal (T : Type) := unmarshal : string → string + T.

(** The zero value of a Go type ([var response restype]). *)
Class Zero (T : Type) := zero : T.

(** What the helpers put in [JSONResponse.JSON]: the message object of
    [util.MessageResponse], a pointer to the request, or a pointer to the
    response. *)
Inductive APIBody (reqtype restype : Type) :=
| MessageJSON (message : string)
| RequestJSON (request : reqtype)
| ResponseJSON (response : restype).
Arguments MessageJSON {reqtype restype} _.
Arguments RequestJSON {reqtype restype} _.
Arguments ResponseJSON {reqtype restype} _.

(** [util.MessageResponse] and [util.ErrorResponse] of matrix-org/util:
    the latter is the former at status 500 with [err.Error()]. *)
Definition MessageResponse {reqtype restype} (code : Z) (msg : string)
  : JSONResponse (APIBody reqtype restype) :=
  {| Code := code; JSON := MessageJSON msg |}.

Definition ErrorResponse {reqtype restype} (err : string)
  : JSONResponse (APIBody reqtype restype) :=
  MessageResponse StatusInternalServerError err.

(** An [http.Handler] built by [MakeInternalAPI]: the metrics name and the
    function from request to response. *)
Record Handler (reqtype restype : Type) := mkHandler {
  metricsName : string;
  serve : Request → JSONResponse (APIBody reqtype restype);
}.
Arguments mkHandler {reqtype restype} _ _.
Arguments metricsName {reqtype restype} _.
Arguments serve {reqtype restype} _.

(** Modelled from the spec: [MakeInternalAPI] (httputil/httpapi.go is not
    among the sources) wraps the function with tracing and metrics under
    the given name and serialises whatever response it returns. *)
Definition MakeInternalAPI {reqtype restype} (name : string)
    (f : Request → JSONResponse (APIBody reqtype restype))
  : Handler reqtype restype :=
  mkHandler name f.

(** The handler [f] gets pointers to the request and to a zero response;
    it may write through both and returns an error ([None] is [nil],
    [Some msg] an error whose [Error()] is [msg]). *)
Definition MakeInternalRPCAPI {reqtype restype}
    `{!Unmarshal reqtype} `{!Zero restype} (name : string)
    (f : context → reqtype → restype → reqtype * restype * option string)
  : Handler reqtype restype :=
  MakeInternalAPI name (λ req,
    match unmarshal (Body req) with
    | inl err => MessageResponse StatusBadRequest err
    | inr request =>
        match f (Context req) request zero with
        | (_, _, Some err) => ErrorResponse err
        | (_, response, None) =>
            {| Code := StatusOK; JSON := ResponseJSON response |}
        end
    end).

(** The handler [f] gets a pointer to the request only, and returns
    nothing: all it can do is write through the pointer. *)
Definition MakeInternalProxyAPI {reqtype restype}
    `{!Unmarshal reqtype} (name : string)
    (f : context → reqtype → reqtype)
  : Handler reqtype restype :=
  MakeInternalAPI name (λ req,
    match unmarshal (Body req) with
    | inl err => MessageResponse StatusBadRequest err
    | inr request =>
        let request := f (Context req) request in
        {| Code := StatusOK; JSON := RequestJSON request |}
    end).

End httputil.

(** ** federationapi/inthttp: the route table *)

Module inthttp.

(** Modelled from the spec: [api.FederationClientError] (federationapi/api
    is not among the sources) carries the error string and an
    HTTP-status-like code. *)
Record FederationClientError := mkFederationClientError {
  Err : string;
  FedCode : Z;
}.

(** A Go [error] reaching [federationClientError]: already a
    [*api.FederationClientError], or any other error with its message. *)
Inductive error :=
| IsFederationClientError (ferr : FederationClientError)
| OtherError (msg : string).

Definition Error (err : error) : string :=
  match err with
  | IsFederationClientError ferr => Err ferr
  | OtherError msg => msg
  end.

Definition federationClientError (err : option error)
  : option FederationClientError :=
  match err with
  | None => None
  | Some (IsFederationClientError ferr) => Some ferr
  | Some e => Some {| Err := Error e; FedCode := 0 |}
  end.

(** The shape of the closures that [AddRoutes] hands to
    [MakeInternalProxyAPI]: they take the context and a pointer to the
    request and return a pointer to the result and an error, the error
    already passed through [federationClientError]. *)
Definition proxyCallback (reqtype restype : Type) : Type :=
  context → reqtype → restype * option FederationClientError.

(** The path constants are declared in the client half of the package,
    which is not among the sources: they are taken as parameters. *)
Record Paths := mkPaths {
  FederationAPIQueryJoinedHostServerNamesInRoomPath : string;
  FederationAPIPerformInviteRequestPath : string;
  FederationAPIPerformLeaveRequestPath : string;
  FederationAPIPerformDirectoryLookupRequestPath : string;
  FederationAPIPerformBroadcastEDUPath : string;
  FederationAPIPerformJoinRequestPath : string;
  FederationAPIClaimKeysPath : string;
  FederationAPIQueryKeysPath : string;
  FederationAPIBackfillPath : string;
  FederationAPILookupStatePath : string;
  FederationAPILookupStateIDsPath : string;
  FederationAPILookupMissingEventsPath : string;
  FederationAPIGetEventPath : string;
  FederationAPIGetEventAuthPath : string;
  FederationAPIQueryServerKeysPath : string;
  FederationAPILookupServerKeysPath : string;
  FederationAPIEventRelationshipsPath : string;
  FederationAPISpacesSummaryPath : string;
  FederationAPIQueryPublicKeyPath : string;
  FederationAPIInputPublicKeyPath : string;
}.

(** Which helper built a handler. *)
Inductive Helper := InternalRPCAPI | InternalProxyAPI | InternalAPI.

#[global] Instance Helper_eq_dec : EqDecision Helper.
Proof. solve_decision. Defined.

(** A registered handler, named by the metrics name it was built with;
    the closures over [intAPI] are left out of the table. *)
Record RouteHandler := mkRouteHandler {
  helper : Helper;
  handlerName : string;
}.

#[global] Instance RouteHandler_eq_dec : EqDecision RouteHandler.
Proof. solve_decision. Defined.

Definition MakeInternalRPCAPI (name : string) : RouteHandler :=
  mkRouteHandler InternalRPCAPI name.
Definition MakeInternalProxyAPI (name : string) : RouteHandler :=
  mkRouteHandler InternalProxyAPI name.
Definition MakeInternalAPI (name : string) : RouteHandler :=
  mkRouteHandler InternalAPI name.

(** [mux.Router] of gorilla/mux: [Handle] appends a route, and a request
    is served by the first registered route that matches its path. *)
Definition Router : Type := list (string * RouteHandler).

Definition Handle (internalAPIMux : Router) (path : string)
    (handler : RouteHandler) : Router :=
  internalAPIMux ++ [(path, handler)].

Fixpoint Match (r : Router) (path : string) : option RouteHandler :=
  match r with
  | [] => None
  | (p, h) :: r' => if decide (p = path) then Some h else Match r' path
  end.

Definition AddRoutes (P : Paths) (internalAPIMux : Router) : Router :=
  let internalAPIMux := Handle internalAPIMux
    (FederationAPIQueryJoinedHostServerNamesInRoomPath P)
    (MakeInternalRPCAPI "QueryJoinedHostServerNamesInRoom") in
  let internalAPIMux := Handle internalAPIMux
    (FederationAPIPerformInviteRequestPath P)
    (MakeInternalRPCAPI "PerformInvite") in
  let internalAPIMux := Handle internalAPIMux
    (FederationAPIPerformLeaveRequestPath P)
    (MakeInternalRPCAPI "PerformLeave") in
  let internalAPIMux := Handle internalAPIMux
    (FederationAPIPerformDirectoryLookupRequestPath P)
    (MakeInternalRPCAPI "PerformDirectoryLookupRequest") in
  let internalAPIMux := Handle internalAPIMux
    (FederationAPIPerformBroadcastEDUPath P)
    (MakeInternalRPCAPI "PerformBroadcastEDU") in
  let internalAPIMux := Handle internalAPIMux
    (FederationAPIPerformJoinRequestPath P)
    (MakeInternalRPCAPI "PerformJoinRequest") in
  let internalAPIMux := Handle internalAPIMux
    (FederationAPIPerformJoinRequestPath P)
    (MakeInternalProxyAPI "GetUserDevices") in
  let internalAPIMux := Handle internalAPIMux
    (FederationAPIClaimKeysPath P)
    (MakeInternalProxyAPI "ClaimKeys") in
  let internalAPIMux := Handle internalAPIMux
    (FederationAPIQueryKeysPath P)
    (MakeInternalProxyAPI "QueryKeys") in
  let internalAPIMux := Handle internalAPIMux
    (FederationAPIBackfillPath P)
    (MakeInternalProxyAPI "Backfill") in
  let internalAPIMux := Handle internalAPIMux
    (FederationAPILookupStatePath P)
    (MakeInternalProxyAPI "LookupState") in
  let internalAPIMux := Handle internalAPIMux
    (FederationAPILookupStateIDsPath P)
    (MakeInternalProxyAPI "LookupStateIDs") in
  let internalAPIMux := Handle internalAPIMux
    (FederationAPILookupMissingEventsPath P)
    (MakeInternalProxyAPI "LookupMissingEvents") in
  let internalAPIMux := Handle internalAPIMux
    (FederationAPIGetEventPath P)
    (MakeInternalProxyAPI "GetEvent") in
  let internalAPIMux := Handle internalAPIMux
    (FederationAPIGetEventAuthPath P)
    (MakeInternalProxyAPI "GetEventAuth") in
  let internalAPIMux := Handle internalAPIMux
    (FederationAPIQueryServerKeysPath P)
    (MakeInternalRPCAPI "QueryServerKeys") in
  let internalAPIMux := Handle internalAPIMux
    (FederationAPILookupServerKeysPath P)
    (MakeInternalProxyAPI "LookupServerKeys") in
  let internalAPIMux := Handle internalAPIMux
    (FederationAPIEventRelationshipsPath P)
    (MakeInternalProxyAPI "MSC2836EventRelationships") in
  let internalAPIMux := Handle internalAPIMux
    (FederationAPISpacesSummaryPath P)
    (MakeInternalProxyAPI "MSC2946SpacesSummary") in
  let internalAPIMux := Handle internalAPIMux
    (FederationAPIQueryPublicKeyPath P)
    (MakeInternalAPI "queryPublicKeys") in
  let internalAPIMux := Handle internalAPIMux
    (FederationAPIInputPublicKeyPath P)
    (MakeInternalAPI "inputPublicKeys") in
  internalAPIMux.

End inthttp.

(** ** federationapi/routing: [Send] and the per-room input workers *)

Module routing.

(** *** Data of gomatrixserverlib and of the other components *)

(** A parsed event, as far as the code reads it: [EventID()], [RoomID()]
    and the JSON it was parsed from. *)
Record Event := mkEvent {
  EventID : string;
  RoomID : string;
  eventJSON : string;
}.

#[global] Instance Event_eq_dec : EqDecision Event.
Proof. solve_decision. Defined.

(** [event.Headered(roomVersion)]. *)
Record HeaderedEvent := Headered {
  unwrap : Event;
  RoomVersion : string;
}.

#[global] Instance HeaderedEvent_eq_dec : EqDecision HeaderedEvent.
Proof. solve_decision. Defined.

Record EDU := mkEDU {
  Type_ : string;
  Content : string;
}.

(** The errors the code tells apart: what [NewEventFromUntrustedJSON]
    returns ([BadJSONError] or anything else), and what a task's [err] can
    hold ([context.DeadlineExceeded], a [*gomatrixserverlib.NotAllowed]
    from the roomserver, or any other error). *)
Inductive parseError :=
| BadJSONError (msg : string)
| OtherParseError (msg : string).

Inductive error :=
| DeadlineExceeded
| NotAllowed (msg : string)
| Failed (msg : string).

#[global] Instance error_eq_dec : EqDecision error.
Proof. solve_decision. Defined.

(** [gomatrixserverlib.PDUResult]; the empty string is an absent error. *)
Record PDUResult := mkPDUResult {
  Error : string;
}.

#[global] Instance PDUResult_eq_dec : EqDecision PDUResult.
Proof. solve_decision. Defined.

(** Modelled from the spec: [jsonerror.NotJSON] and [jsonerror.BadJSON]
    (clientapi/jsonerror is not among the sources) build a Matrix error
    with errcode [M_NOT_JSON], respectively [M_BAD_JSON], and the given
    message. *)
Record MatrixError := mkMatrixError {
  ErrCode : string;
  Err : string;
}.

#[global] Instance MatrixError_eq_dec : EqDecision MatrixError.
Proof. solve_decision. Defined.

Definition NotJSON (msg : string) : MatrixError :=
  {| ErrCode := "M_NOT_JSON"; Err := msg |}.
Definition BadJSON (msg : string) : MatrixError :=
  {| ErrCode := "M_BAD_JSON"; Err := msg |}.

(** The bodies [Send] answers with: none, a Matrix error, or a
    [gomatrixserverlib.RespSend]. *)
Inductive SendJSON :=
| JSONNil
| JSONError (e : MatrixError)
| JSONRespSend (PDUs : gmap string PDUResult).

#[global] Instance SendJSON_eq_dec : EqDecision SendJSON.
Proof. solve_decision. Defined.

Abbreviation Response := (JSONResponse SendJSON).

#[global] Instance Response_eq_dec : EqDecision Response.
Proof. solve_decision. Defined.

(** The zero [util.JSONResponse], which a receive from a closed and empty
    channel yields. *)
Definition zeroResponse : Response := {| Code := 0; JSON := JSONNil |}.

(** The collaborators of the handler, outside this code: the JSON
    decoders, the event parser and signature verifier of gomatrixserverlib
    and the roomserver.  Their answers are functions of the question.
    [None] is success where an error string is optional, and failure where
    a value is. *)
Record Deps := mkDeps {
  (** [json.Unmarshal(request.Content(), &txnEvents)] *)
  unmarshalTxn : string → string + (list string * list EDU);
  (** [json.Unmarshal(pdu, &header)], giving [header.RoomID] *)
  unmarshalHeader : string → option string;
  (** [rsAPI.QueryRoomVersionForRoom] *)
  QueryRoomVersionForRoom : string → option string;
  (** [gomatrixserverlib.NewEventFromUntrustedJSON(pdu, roomVersion)] *)
  NewEventFromUntrustedJSON : string → string → parseError + Event;
  (** [api.IsServerBannedFromRoom(ctx, rsAPI, roomID, origin)] *)
  IsServerBannedFromRoom : string → string → bool;
  (** [event.VerifyEventSignatures(ctx, keys)], giving [err.Error()] *)
  VerifyEventSignatures : Event → option string;
  (** the answer of [api.SendEvents] for one new event from an origin,
      called under the given context *)
  SendEvents : context → HeaderedEvent → string → option error;
}.

(** [txnReq], without the handles to the collaborators ([Deps]). *)
Record txnReq := mkTxnReq {
  PDUs : list string;
  EDUs : list EDU;
  Origin : string;
  TransactionID : string;
  Destination : string;
}.

(** *** The FIFO queue *)

(** Tasks are pointers into the task heap; [None] is a nil pointer.
    [notifs] is the single slot of the notification channel. *)
Record sendFIFOQueue := mkQueue {
  tasks : list (option nat);
  count : Z;
  notifs : bool;
}.

Definition newSendFIFOQueue : sendFIFOQueue :=
  {| tasks := []; count := 0; notifs := false |}.

Definition push (q : sendFIFOQueue) (frame : option nat) : sendFIFOQueue :=
  {| tasks := tasks q ++ [frame];
     count := count q + 1;
     notifs := true |}.

(** [pop] gives the queue left, the frame and the flag; the whole is
    [None] where Go panics (indexing an empty slice). *)
Definition pop (q : sendFIFOQueue)
  : option (sendFIFOQueue * option nat * bool) :=
  if (count q =? 0)%Z then Some (q, None, false)
  else
    match tasks q with
    | [] => None
    | frame :: rest =>
        let count' := (count q - 1)%Z in
        Some ({| tasks := if (count' =? 0)%Z then [] else rest;
                 count := count';
                 notifs := notifs q |}, frame, true)
    end.

(** *** Shared memory *)

(** A [chan util.JSONResponse] of capacity 1.  [maker] is bookkeeping: the
    invocation of [Send] that made the channel. *)
Record chan := mkChan {
  buf : list Response;
  closed : bool;
  maker : nat;
}.

Definition capacity : nat := 1.

Record inputTask := mkTask {
  ctx : context;
  t : txnReq;
  event : HeaderedEvent;
  (** the wait group, named by the invocation of [Send] it belongs to *)
  wg : nat;
  err : option error;
}.

Record inputWorker := mkWorker {
  running : bool;
  input : sendFIFOQueue;
}.

(** The arguments of one call of [Send] that the code reads:
    [httpReq.Context()], [request.Origin()], [request.Content()], [txnID]
    and [cfg.Matrix.ServerName]. *)
Record SendArgs := mkSendArgs {
  httpReqContext : context;
  requestOrigin : string;
  requestContent : string;
  txnID : string;
  serverName : string;
}.

(** The locals of [processTransaction]. *)
Record frame := mkFrame {
  fctx : context;
  ft : txnReq;
  results : gmap string PDUResult;
  ftasks : list nat;
}.

(** Where an invocation of [Send] stands: before each operation on shared
    memory, with the locals that are live there.  [ch] is the channel that
    [LoadOrStore] gave. *)
Inductive SendPC :=
| AtLoadOrStore
| AtSelect (ch : nat) (ctx : context)
| AtUnmarshal (ch : nat)
| AtPDU (ch : nat) (f : frame) (pdus : list string)
| AtCAS (ch : nat) (f : frame) (pdus : list string) (room : string)
| AtWait (ch : nat) (f : frame)
| AtChanSend (ch : nat) (res : Response)
| AtDeferredDelete (ch : nat) (res : Response)
| AtDeferredClose (ch : nat) (res : Response)
| Returned (res : Response).

Record SendThread := mkSend {
  args : SendArgs;
  pc : SendPC;
}.

(** Where a goroutine running [inputWorker.run] stands. *)
Inductive WorkerPC :=
| AtPop
| AtTask (task : nat)
| AtWgDone (task : nat)
| AtStoreRunning
| Exited.

Record WorkerThread := mkWorkerThread {
  room : string;
  wpc : WorkerPC;
}.

Record State := mkState {
  world : World;
  (** [inFlightTxnsPerOrigin]: index to channel *)
  inFlightTxnsPerOrigin : gmap string nat;
  (** the channels made so far *)
  chans : list chan;
  (** [inputWorkers]: room ID to worker *)
  inputWorkers : gmap string inputWorker;
  (** the tasks allocated so far *)
  taskHeap : list inputTask;
  (** the counters of the wait groups (absent is zero) *)
  waitGroups : gmap nat nat;
  (** the counter vector [recv_pdus] by status, and [recv_edus] *)
  pduCountTotal : gmap string nat;
  eduCountTotal : nat;
  (** the events handed to the roomserver, with their origin, in order *)
  roomserverInput : list (HeaderedEvent * string);
  sends : list SendThread;
  workers : list WorkerThread;
}.

Definition initial : State :=
  {| world := {| now := 0; cancelled := ∅ |};
     inFlightTxnsPerOrigin := ∅;
     chans := [];
     inputWorkers := ∅;
     taskHeap := [];
     waitGroups := ∅;
     pduCountTotal := ∅;
     eduCountTotal := 0;
     roomserverInput := [];
     sends := [];
     workers := [] |}.

Definition set_world (w : World) (s : State) : State :=
  mkState w (inFlightTxnsPerOrigin s) (chans s) (inputWorkers s)
    (taskHeap s) (waitGroups s) (pduCountTotal s) (eduCountTotal s)
    (roomserverInput s) (sends s) (workers s).
Definition set_inFlight (m : gmap string nat) (s : State) : State :=
  mkState (world s) m (chans s) (inputWorkers s)
    (taskHeap s) (waitGroups s) (pduCountTotal s) (eduCountTotal s)
    (roomserverInput s) (sends s) (workers s).
Definition set_chans (c : list chan) (s : State) : State :=
  mkState (world s) (inFlightTxnsPerOrigin s) c (inputWorkers s)
    (taskHeap s) (waitGroups s) (pduCountTotal s) (eduCountTotal s)
    (roomserverInput s) (sends s) (workers s).
Definition set_inputWorkers (m : gmap string inputWorker) (s : State)
  : State :=
  mkState (world s) (inFlightTxnsPerOrigin s) (chans s) m
    (taskHeap s) (waitGroups s) (pduCountTotal s) (eduCountTotal s)
    (roomserverInput s) (sends s) (workers s).
Definition set_taskHeap (h : list inputTask) (s : State) : State :=
  mkState (world s) (inFlightTxnsPerOrigin s) (chans s) (inputWorkers s)
    h (waitGroups s) (pduCountTotal s) (eduCountTotal s)
    (roomserverInput s) (sends s) (workers s).
Definition set_waitGroups (m : gmap nat nat) (s : State) : State :=
  mkState (world s) (inFlightTxnsPerOrigin s) (chans s) (inputWorkers s)
    (taskHeap s) m (pduCountTotal s) (eduCountTotal s)
    (roomserverInput s) (sends s) (workers s).
Definition set_pduCountTotal (m : gmap string nat) (s : State) : State :=
  mkState (world s) (inFlightTxnsPerOrigin s) (chans s) (inputWorkers s)
    (taskHeap s) (waitGroups s) m (eduCountTotal s)
    (roomserverInput s) (sends s) (workers s).
Definition set_eduCountTotal (n : nat) (s : State) : State :=
  mkState (world s) (inFlightTxnsPerOrigin s) (chans s) (inputWorkers s)
    (taskHeap s) (waitGroups s) (pduCountTotal s) n
    (roomserverInput s) (sends s) (workers s).
Definition set_roomserverInput (l : list (HeaderedEvent * string))
    (s : State) : State :=
  mkState (world s) (inFlightTxnsPerOrigin s) (chans s) (inputWorkers s)
    (taskHeap s) (waitGroups s) (pduCountTotal s) (eduCountTotal s)
    l (sends s) (workers s).
Definition set_sends (l : list SendThread) (s : State) : State :=
  mkState (world s) (inFlightTxnsPerOrigin s) (chans s) (inputWorkers s)
    (taskHeap s) (waitGroups s) (pduCountTotal s) (eduCountTotal s)
    (roomserverInput s) l (workers s).
Definition set_workers (l : list WorkerThread) (s : State) : State :=
  mkState (world s) (inFlightTxnsPerOrigin s) (chans s) (inputWorkers s)
    (taskHeap s) (waitGroups s) (pduCountTotal s) (eduCountTotal s)
    (roomserverInput s) (sends s) l.

(** The invocation [tid] moves on to [pc']. *)
Definition goto (tid : nat) (pc' : SendPC) (s : State) : State :=
  set_sends (alter (λ th, mkSend (args th) pc') tid (sends s)) s.

Definition wgoto (wid : nat) (pc' : WorkerPC) (s : State) : State :=
  set_workers
    (alter (λ th, mkWorkerThread (room th) pc') wid (workers s)) s.

(** [pduCountTotal.WithLabelValues(status).Inc()] *)
Definition incPDUCount (status : string) (s : State) : State :=
  set_pduCountTotal
    (<[status := S (default 0 (pduCountTotal s !! status))]> (pduCountTotal s))
    s.

(** [sync.Map.LoadOrStore] *)
Definition LoadOrStore {V} (m : gmap string V) (key : string) (value : V)
  : gmap string V * V * bool :=
  match m !! key with
  | Some actual => (m, actual, true)
  | None => (<[key := value]> m, value, false)
  end.

(** [wg.Add(1)], [wg.Done()] (a panic below zero) and whether [wg.Wait()]
    returns. *)
Definition wgCounter (s : State) (g : nat) : nat :=
  default 0 (waitGroups s !! g).
Definition wgAdd (g : nat) (s : State) : State :=
  set_waitGroups (<[g := S (wgCounter s g)]> (waitGroups s)) s.
Definition wgDone (g : nat) (s : State) : option State :=
  match wgCounter s g with
  | O => None
  | S n => Some (set_waitGroups (<[g := n]> (waitGroups s)) s)
  end.
Definition wgIdle (s : State) (g : nat) : bool :=
  bool_decide (wgCounter s g = 0).

(** *** [Send] and [processTransaction] *)

(** [index := string(request.Origin()) + "\000" + string(txnID)] *)
Definition index (a : SendArgs) : string :=
  requestOrigin a +:+ String "000"%char "" +:+ txnID a.

(** The size limit of a transaction. *)
Definition tooLarge (pdus : list string) (edus : list EDU) : bool :=
  (50 <? length pdus) || (100 <? length edus).

(** What the leader does between [LoadOrStore] and the call of
    [processTransaction]: decode the envelope and check its size.  It
    either returns a response ([inl]) or has the transaction ([inr]). *)
Definition decodeTransaction (d : Deps) (a : SendArgs)
  : Response + txnReq :=
  match unmarshalTxn d (requestContent a) with
  | inl err =>
      inl {| Code := StatusBadRequest;
             JSON := JSONError (NotJSON
               ("The request body could not be decoded into valid JSON. "
                +:+ err)) |}
  | inr (pdus, edus) =>
      if tooLarge pdus edus then
        inl {| Code := StatusBadRequest;
               JSON := JSONError (BadJSON "max 50 pdus / 100 edus") |}
      else
        inr {| PDUs := pdus; EDUs := edus;
               Origin := requestOrigin a;
               TransactionID := txnID a;
               Destination := serverName a |}
  end.

(** How one turn of the loop over [t.PDUs] ends, before a task is made:
    [continue] without a result, [return] of an error response,
    [continue] after writing a result, or the event goes to its room's
    worker. *)
Inductive pduOutcome :=
| Skip
| Abort (res : Response)
| Result (eventID : string) (result : PDUResult)
| Enqueue (event : HeaderedEvent).

Definition checkPDU (d : Deps) (origin : string) (pdu : string)
  : pduOutcome :=
  match unmarshalHeader d pdu with
  | None => Skip
  | Some roomID =>
      match QueryRoomVersionForRoom d roomID with
      | None => Skip
      | Some roomVersion =>
          match NewEventFromUntrustedJSON d pdu roomVersion with
          | inl (BadJSONError _) =>
              Abort {| Code := 400;
                       JSON := JSONError (BadJSON "PDU contains bad JSON") |}
          | inl (OtherParseError _) => Skip
          | inr event =>
              if IsServerBannedFromRoom d (RoomID event) origin then
                Result (EventID event)
                  {| Error := "Forbidden by server ACLs" |}
              else
                match VerifyEventSignatures d event with
                | Some err => Result (EventID event) {| Error := err |}
                | None => Enqueue (Headered event roomVersion)
                end
          end
      end
  end.

(** The loop over [tasks] after [wg.Wait()]: both branches write the empty
    result.  [None] is a nil dereference. *)
Fixpoint aggregate (heap : list inputTask) (tasks : list nat)
    (results : gmap string PDUResult) : option (gmap string PDUResult) :=
  match tasks with
  | [] => Some results
  | task :: tasks =>
      match heap !! task with
      | None => None
      | Some tk =>
          aggregate heap tasks
            (<[EventID (unwrap (event tk)) :=
                 match err tk with
                 | Some _ => {| Error := "" |}
                 | None => {| Error := "" |}
                 end]> results)
      end
  end.

(** [processEDUs] hands the EDUs to the EDU server and the key server,
    which are outside the state modelled here; what remains is the
    counter [recv_edus]. *)
Definition processEDUs (tx : txnReq) (s : State) : State :=
  set_eduCountTotal (eduCountTotal s + length (EDUs tx)) s.

(** [processEvent] ignores its context and submits the event to the
    roomserver under [context.Background()]. *)
Definition processEvent (d : Deps) (tx : txnReq) (_ : context)
    (e : HeaderedEvent) (s : State) : State * option error :=
  (set_roomserverInput (roomserverInput s ++ [(e, Origin tx)]) s,
   SendEvents d Background e (Origin tx)).

(** A receive on a channel: the channel left and the value, or [None]
    when the receive blocks. *)
Definition recv (c : chan) : option (chan * Response) :=
  match buf c with
  | v :: rest => Some ({| buf := rest; closed := closed c; maker := maker c |}, v)
  | [] => if closed c then Some (c, zeroResponse) else None
  end.

(** A send on a channel: [None] when it blocks or panics. *)
Definition chanSend (c : chan) (v : Response) : option chan :=
  if closed c then None
  else if bool_decide (length (buf c) < capacity) then
    Some {| buf := buf c ++ [v]; closed := false; maker := maker c |}
  else None.

(** [close(ch)]: a panic on a closed channel. *)
Definition chanClose (c : chan) : option chan :=
  if closed c then None
  else Some {| buf := buf c; closed := true; maker := maker c |}.

(** One step of the invocation [tid] of [Send].  [pickCtx] says which
    case the [select] of a follower takes, where both are ready.

    A step runs up to and including the next operation on shared memory.
    Two things are coarser than the code.  The calls to the collaborators
    ([Deps]) are answered within the step: that a call may take time, or
    never return, is not modelled, and no statement here is about it.
    And for a PDU that passed the checks, [inputWorkers.LoadOrStore],
    [wg.Add(1)] and [worker.input.push(task)] are one step: the stretch
    between [wg.Add(1)] and the push, in which the counter of the wait
    group is one above the tasks that can be found, has no state of its
    own. *)
Definition stepSend (d : Deps) (tid : nat) (pickCtx : bool) (s : State)
  : option State :=
  th ← sends s !! tid;
  let a := args th in
  match pc th with
  | AtLoadOrStore =>
      let fresh := length (chans s) in
      let s := set_chans
        (chans s ++ [{| buf := []; closed := false; maker := tid |}]) s in
      let '(m, ch, ok) :=
        LoadOrStore (inFlightTxnsPerOrigin s) (index a) fresh in
      let s := set_inFlight m s in
      if ok then
        let ctx := WithTimeout (httpReqContext a)
                     (now (world s) + Minute * 5) in
        Some (goto tid (AtSelect ch ctx) s)
      else Some (goto tid (AtUnmarshal ch) s)
  | AtSelect ch ctx =>
      if pickCtx then
        if ctxDone (world s) ctx then
          Some (goto tid
            (Returned {| Code := StatusRequestTimeout; JSON := JSONNil |}) s)
        else None
      else
        c ← chans s !! ch;
        '(c', res) ← recv c;
        let s := set_chans (<[ch := c']> (chans s)) s in
        if (Code res =? 0)%Z then
          Some (goto tid
            (Returned {| Code := StatusAccepted; JSON := JSONNil |}) s)
        else Some (goto tid (Returned res) s)
  | AtUnmarshal ch =>
      match decodeTransaction d a with
      | inl res => Some (goto tid (AtDeferredDelete ch res) s)
      | inr tx =>
          let f := {| fctx := Background; ft := tx;
                      results := ∅; ftasks := [] |} in
          Some (goto tid (AtPDU ch f (PDUs tx)) s)
      end
  | AtPDU ch f [] =>
      let s := processEDUs (ft f) s in
      Some (goto tid (AtWait ch f) s)
  | AtPDU ch f (pdu :: pdus) =>
      let s := incPDUCount "total" s in
      match checkPDU d (Origin (ft f)) pdu with
      | Skip => Some (goto tid (AtPDU ch f pdus) s)
      | Abort res => Some (goto tid (AtDeferredDelete ch res) s)
      | Result eventID result =>
          let f := {| fctx := fctx f; ft := ft f;
                      results := <[eventID := result]> (results f);
                      ftasks := ftasks f |} in
          Some (goto tid (AtPDU ch f pdus) s)
      | Enqueue e =>
          let roomID := RoomID (unwrap e) in
          let '(m, worker, _) :=
            LoadOrStore (inputWorkers s) roomID
              {| running := false; input := newSendFIFOQueue |} in
          let s := wgAdd tid s in
          let task := length (taskHeap s) in
          let s := set_taskHeap
            (taskHeap s ++ [{| ctx := fctx f; t := ft f; event := e;
                               wg := tid; err := None |}]) s in
          let f := {| fctx := fctx f; ft := ft f; results := results f;
                      ftasks := ftasks f ++ [task] |} in
          let s := set_inputWorkers
            (<[roomID := {| running := running worker;
                            input := push (input worker) (Some task) |}]> m)
            s in
          Some (goto tid (AtCAS ch f pdus roomID) s)
      end
  | AtCAS ch f pdus roomID =>
      worker ← inputWorkers s !! roomID;
      if running worker then Some (goto tid (AtPDU ch f pdus) s)
      else
        let s := set_inputWorkers
          (<[roomID := {| running := true; input := input worker |}]>
             (inputWorkers s)) s in
        let s := set_workers
          (workers s ++ [{| room := roomID; wpc := AtPop |}]) s in
        Some (goto tid (AtPDU ch f pdus) s)
  | AtWait ch f =>
      if wgIdle s tid then
        results ← aggregate (taskHeap s) (ftasks f) (results f);
        let res := {| Code := StatusOK; JSON := JSONRespSend results |} in
        Some (goto tid (AtChanSend ch res) s)
      else None
  | AtChanSend ch res =>
      c ← chans s !! ch;
      c' ← chanSend c res;
      let s := set_chans (<[ch := c']> (chans s)) s in
      Some (goto tid (AtDeferredDelete ch res) s)
  | AtDeferredDelete ch res =>
      let s := set_inFlight (delete (index a) (inFlightTxnsPerOrigin s)) s in
      Some (goto tid (AtDeferredClose ch res) s)
  | AtDeferredClose ch res =>
      c ← chans s !! ch;
      c' ← chanClose c;
      let s := set_chans (<[ch := c']> (chans s)) s in
      Some (goto tid (Returned res) s)
  | Returned _ => None
  end.

(** *** The worker *)

Definition setErr (task : nat) (e : option error) (s : State) : State :=
  set_taskHeap
    (alter (λ tk, {| ctx := ctx tk; t := t tk; event := event tk;
                     wg := wg tk; err := e |}) task (taskHeap s)) s.

(** What the worker does with the outcome of [processEvent]: a rejection
    by the roomserver is made silent, any other error stays in the task,
    and a success is counted. *)
Definition recordOutcome (task : nat) (outcome : State * option error)
  : State :=
  let '(s, e) := outcome in
  match e with
  | Some (NotAllowed _) => setErr task None s
  | Some e' => setErr task (Some e') s
  | None => incPDUCount "success" (setErr task None s)
  end.

(** One step of the goroutine [wid] running [run]. *)
Definition stepWorker (d : Deps) (wid : nat) (s : State) : option State :=
  th ← workers s !! wid;
  match wpc th with
  | AtPop =>
      worker ← inputWorkers s !! room th;
      match pop (input worker) with
      | None => None
      | Some (q, frame, ok) =>
          let s := set_inputWorkers
            (<[room th := {| running := running worker; input := q |}]>
               (inputWorkers s)) s in
          if ok then
            match frame with
            | None => Some (wgoto wid AtPop s)
            | Some task => Some (wgoto wid (AtTask task) s)
            end
          else Some (wgoto wid AtStoreRunning s)
      end
  | AtTask task =>
      tk ← taskHeap s !! task;
      if ctxDone (world s) (ctx tk) then
        let s := setErr task (Some DeadlineExceeded) s in
        let s := incPDUCount "expired" s in
        Some (wgoto wid (AtWgDone task) s)
      else
        let ctx' := WithTimeout Background (now (world s) + Minute * 5) in
        let s := recordOutcome task
                   (processEvent d (t tk) ctx' (event tk) s) in
        Some (wgoto wid (AtWgDone task) s)
  | AtWgDone task =>
      tk ← taskHeap s !! task;
      s ← wgDone (wg tk) s;
      Some (wgoto wid AtPop s)
  | AtStoreRunning =>
      worker ← inputWorkers s !! room th;
      let s := set_inputWorkers
        (<[room th := {| running := false; input := input worker |}]>
           (inputWorkers s)) s in
      Some (wgoto wid Exited s)
  | Exited => None
  end.

(** *** The whole system *)

(** What can happen next: a request arrives, an invocation of [Send] or a
    worker takes a step, the client behind a request context goes away,
    or time passes. *)
Inductive Action :=
| Arrive (a : SendArgs)
| StepSend (tid : nat) (pickCtx : bool)
| StepWorker (wid : nat)
| Cancel (id : nat)
| Tick (dt : Z).

Definition step (d : Deps) (act : Action) (s : State) : option State :=
  match act with
  | Arrive a => Some (set_sends (sends s ++ [mkSend a AtLoadOrStore]) s)
  | StepSend tid pickCtx => stepSend d tid pickCtx s
  | StepWorker wid => stepWorker d wid s
  | Cancel id =>
      Some (set_world {| now := now (world s);
                         cancelled := {[id]} ∪ cancelled (world s) |} s)
  | Tick dt =>
      if (0 <=? dt)%Z then
        Some (set_world {| now := now (world s) + dt;
                           cancelled := cancelled (world s) |} s)
      else None
  end.

Fixpoint run (d : Deps) (acts : list Action) (s : State) : option State :=
  match acts with
  | [] => Some s
  | act :: acts => s' ← step d act s; run d acts s'
  end.

Inductive reachable (d : Deps) : State → Prop :=
| reachable_initial : reachable d initial
| reachable_step s act s' :
    reachable d s → step d act s = Some s' → reachable d s'.

(** *** What [Send] answers, as a function of the request *)

(** The loop over the PDUs without the workers: the results written in
    the loop and the events enqueued, or the response of an abort. *)
Fixpoint examine (d : Deps) (origin : string) (pdus : list string)
    (results : gmap string PDUResult) (events : list HeaderedEvent)
  : Response + (gmap string PDUResult * list HeaderedEvent) :=
  match pdus with
  | [] => inr (results, events)
  | pdu :: pdus =>
      match checkPDU d origin pdu with
      | Skip => examine d origin pdus results events
      | Abort res => inl res
      | Result eventID result =>
          examine d origin pdus (<[eventID := result]> results) events
      | Enqueue e => examine d origin pdus results (events ++ [e])
      end
  end.

(** The empty result for each enqueued event, in order. *)
Definition settle (events : list HeaderedEvent)
    (results : gmap string PDUResult) : gmap string PDUResult :=
  foldl (λ r e, <[EventID (unwrap e) := {| Error := "" |}]> r)
    results events.

Definition leaderResponse (d : Deps) (a : SendArgs) : Response :=
  match decodeTransaction d a with
  | inl res => res
  | inr tx =>
      match examine d (Origin tx) (PDUs tx) ∅ [] with
      | inl res => res
      | inr (results, events) =>
          {| Code := StatusOK;
             JSON := JSONRespSend (settle events results) |}
      end
  end.

(** *** Roles *)

(** The channel a leader has in hand, from its [LoadOrStore] to its
    deferred [close], and the part of that stretch in which its entry is
    in the registry: up to the deferred [Delete]. *)
Definition owns (pc : SendPC) : option nat :=
  match pc with
  | AtUnmarshal ch | AtPDU ch _ _ | AtCAS ch _ _ _ | AtWait ch _
  | AtChanSend ch _ | AtDeferredDelete ch _ | AtDeferredClose ch _ => Some ch
  | AtLoadOrStore | AtSelect _ _ | Returned _ => None
  end.

Definition holds (pc : SendPC) : option nat :=
  match pc with
  | AtDeferredClose _ _ => None
  | _ => owns pc
  end.

(** The invocation is inside [Send]: it has arrived and not returned. *)
Definition inSend (pc : SendPC) : bool :=
  match pc with
  | Returned _ => false
  | _ => true
  end.

(** Steps that leave the workers, the tasks, the wait groups and the
    roomserver alone, and steps that leave the registry alone as well. *)
Definition untouched (s s' : State) : Prop :=
  inputWorkers s' = inputWorkers s ∧
  taskHeap s' = taskHeap s ∧
  waitGroups s' = waitGroups s ∧
  workers s' = workers s ∧
  roomserverInput s' = roomserverInput s.

Definition idle (s s' : State) : Prop :=
  inFlightTxnsPerOrigin s' = inFlightTxnsPerOrigin s ∧ untouched s s'.

(** The event ID under which a turn of the loop writes a result or
    enqueues an event. *)
Definition outcomeID (o : pduOutcome) : option string :=
  match o with
  | Result eventID _ => Some eventID
  | Enqueue e => Some (EventID (unwrap e))
  | Skip | Abort _ => None
  end.

(** *** Invariants *)

(** The registry and the channels: a leader's channel exists, was made by
    it and is open; a leader's entry is in the registry until its deferred
    [Delete]; every entry of the registry is some leader's; and a follower
    waits on a channel made by another invocation with the same index. *)
Record registryInv (s : State) : Prop := {
  own_chan : ∀ tid th ch,
    sends s !! tid = Some th → owns (pc th) = Some ch →
    ∃ c, chans s !! ch = Some c ∧ maker c = tid ∧ closed c = false;
  hold_entry : ∀ tid th ch,
    sends s !! tid = Some th → holds (pc th) = Some ch →
    inFlightTxnsPerOrigin s !! index (args th) = Some ch;
  entry_held : ∀ key ch,
    inFlightTxnsPerOrigin s !! key = Some ch →
    ∃ tid th, sends s !! tid = Some th ∧ index (args th) = key ∧
              holds (pc th) = Some ch;
  follow_maker : ∀ tid th ch ctx,
    sends s !! tid = Some th → pc th = AtSelect ch ctx →
    ∃ c thm, chans s !! ch = Some c ∧ sends s !! maker c = Some thm ∧
             index (args thm) = index (args th) ∧ maker c ≠ tid;
}.

(** What a step of an invocation does to the registry and to the
    channels: the program point before and after, and the registry and
    the channels after. *)
Inductive regMove (tid : nat) (a : SendArgs) (m : gmap string nat)
    (cs : list chan)
  : SendPC → SendPC → gmap string nat → list chan → Prop :=
| move_lead :
    m !! index a = None →
    regMove tid a m cs AtLoadOrStore (AtUnmarshal (length cs))
      (<[index a := length cs]> m)
      (cs ++ [{| buf := []; closed := false; maker := tid |}])
| move_follow ch ctx :
    m !! index a = Some ch →
    regMove tid a m cs AtLoadOrStore (AtSelect ch ctx) m
      (cs ++ [{| buf := []; closed := false; maker := tid |}])
| move_timeout ch ctx res :
    regMove tid a m cs (AtSelect ch ctx) (Returned res) m cs
| move_recv ch ctx c c' v res :
    cs !! ch = Some c → recv c = Some (c', v) →
    regMove tid a m cs (AtSelect ch ctx) (Returned res) m (<[ch := c']> cs)
| move_work pc pc' ch :
    holds pc = Some ch → holds pc' = Some ch →
    regMove tid a m cs pc pc' m cs
| move_send ch res c c' :
    cs !! ch = Some c → chanSend c res = Some c' →
    regMove tid a m cs (AtChanSend ch res) (AtDeferredDelete ch res) m
      (<[ch := c']> cs)
| move_delete ch res :
    regMove tid a m cs (AtDeferredDelete ch res) (AtDeferredClose ch res)
      (delete (index a) m) cs
| move_close ch res c c' :
    cs !! ch = Some c → chanClose c = Some c' →
    regMove tid a m cs (AtDeferredClose ch res) (Returned res) m
      (<[ch := c']> cs).

(** The channels after a step of the invocation [tid]: none is lost or
    changes its maker, and none made by another invocation is closed. *)
Definition chansStep (cs cs' : list chan) (tid : nat) : Prop :=
  ∀ ch c, cs !! ch = Some c →
    ∃ c', cs' !! ch = Some c' ∧ maker c' = maker c ∧
          (maker c ≠ tid → closed c' = closed c).

(** The task heap after a step: no task is lost, and only [err] is ever
    written. *)
Definition heapStep (heap heap' : list inputTask) : Prop :=
  ∀ task tk, heap !! task = Some tk →
    ∃ tk', heap' !! task = Some tk' ∧ ctx tk' = ctx tk ∧ t tk' = t tk ∧
           event tk' = event tk ∧ wg tk' = wg tk.

(** The tasks of a frame are those of the given events, in order. *)
Definition tasksOf (heap : list inputTask) (tasks : list nat)
    (events : list HeaderedEvent) : Prop :=
  Forall2 (λ task e, ∃ tk, heap !! task = Some tk ∧ event tk = e)
    tasks events.

(** How far the loop of [processTransaction] has got: the transaction is
    the decoded request, the context is the background context, and the
    results and tasks are those of the PDUs examined so far. *)
Definition progress (d : Deps) (heap : list inputTask) (a : SendArgs)
    (f : frame) (pdus : list string) : Prop :=
  decodeTransaction d a = inr (ft f) ∧
  fctx f = Background ∧
  ∃ examined events,
    PDUs (ft f) = examined ++ pdus ∧
    examine d (Origin (ft f)) examined ∅ [] = inr (results f, events) ∧
    tasksOf heap (ftasks f) events.

Definition frameInv (d : Deps) (heap : list inputTask) (a : SendArgs)
    (pc : SendPC) : Prop :=
  match pc with
  | AtPDU _ f pdus | AtCAS _ f pdus _ => progress d heap a f pdus
  | AtWait _ f => progress d heap a f []
  | AtChanSend _ res =>
      res = leaderResponse d a ∧ Code res = StatusOK
  | AtDeferredDelete _ res | AtDeferredClose _ res =>
      res = leaderResponse d a
  | AtLoadOrStore | AtSelect _ _ | AtUnmarshal _ | Returned _ => True
  end.

Definition framesInv (d : Deps) (s : State) : Prop :=
  ∀ tid th, sends s !! tid = Some th →
    frameInv d (taskHeap s) (args th) (pc th).

(** Every task was made by an invocation of [Send] for a PDU of its
    transaction that passed the checks, under the background context;
    every event handed to the roomserver is that of a task; and the room
    an invocation is about to start a worker for has a worker record. *)
Record tasksInv (d : Deps) (s : State) : Prop := {
  task_made : ∀ task tk,
    taskHeap s !! task = Some tk →
    ctx tk = Background ∧
    ∃ th pdu, sends s !! wg tk = Some th ∧
              decodeTransaction d (args th) = inr (t tk) ∧
              pdu ∈ PDUs (t tk) ∧
              checkPDU d (Origin (t tk)) pdu = Enqueue (event tk);
  submitted_task : ∀ e o,
    (e, o) ∈ roomserverInput s →
    ∃ task tk, taskHeap s !! task = Some tk ∧ event tk = e ∧
               Origin (t tk) = o;
  worker_known : ∀ tid th ch f pdus roomID,
    sends s !! tid = Some th → pc th = AtCAS ch f pdus roomID →
    is_Some (inputWorkers s !! roomID);
}.

(** The channel of a leader that has not sent yet. *)
Definition unsent (pc : SendPC) : option nat :=
  match pc with
  | AtDeferredDelete _ _ | AtDeferredClose _ _ => None
  | _ => owns pc
  end.

(** What the channels hold: only the response of their maker, which has
    status 200, and nothing before the maker sent. *)
Record chansInv (d : Deps) (s : State) : Prop := {
  buffered : ∀ ch c v,
    chans s !! ch = Some c → v ∈ buf c →
    ∃ th, sends s !! maker c = Some th ∧
          v = leaderResponse d (args th) ∧ Code v = StatusOK;
  unsent_empty : ∀ tid th ch c,
    sends s !! tid = Some th → unsent (pc th) = Some ch →
    chans s !! ch = Some c → buf c = [];
}.

(** The invocation [tid] alone takes [n] steps (taking the channel case
    of a [select]). *)
Definition solo (tid n : nat) : list Action :=
  replicate n (StepSend tid false).

(** The two rejections of a whole transaction. *)
Definition tooLargeResponse : Response :=
  {| Code := 400;
     JSON := JSONError {| ErrCode := "M_BAD_JSON";
                          Err := "max 50 pdus / 100 edus" |} |}.

Definition badPDUResponse : Response :=
  {| Code := 400;
     JSON := JSONError {| ErrCode := "M_BAD_JSON";
                          Err := "PDU contains bad JSON" |} |}.

End routing.

(** ** A small world to run the model in *)

Module sample.
Import routing.

(** A transaction body is written [pdus|edus]: every character before the
    bar is one PDU, every character after it one EDU.  The body
    [not json] does not decode. *)
Fixpoint splitBody (cs : list ascii) (pdus : list string)
  : list string * list EDU :=
  match cs with
  | [] => (pdus, [])
  | c :: cs =>
      if decide (c = "|"%char)
      then (pdus, (λ e : ascii, mkEDU (String e "") "{}") <$> cs)
      else splitBody cs (pdus ++ [String c ""])
  end.

Definition sampleUnmarshalTxn (body : string)
  : string + (list string * list EDU) :=
  if decide (body = "not json")
  then inl "invalid character 'o' in literal null (expecting 'u')"
  else inr (splitBody (list_ascii_of_string body) []).

(** The PDUs: [a], [b] and [c] are well-formed events of room [!r] (in
    room version 6) and [d] one of room [!q] (in room version 1); [h] has
    no readable header; [v] is of a room the roomserver does not know; [x]
    is not canonical JSON and [y] is not canonical JSON either, in the
    room of version 1; [p] does not parse for another reason; [n] is an
    event of room [!acl]; [s] is the event [$s] with a broken signature
    and [S] the same event properly signed. *)
Definition sampleUnmarshalHeader (pdu : string) : option string :=
  if decide (pdu = "h") then None
  else if decide (pdu = "v") then Some "!unknown"
  else if decide (pdu = "n") then Some "!acl"
  else if decide (pdu = "d") then Some "!q"
  else if decide (pdu = "y") then Some "!q"
  else Some "!r".

Definition sampleQueryRoomVersionForRoom (roomID : string)
  : option string :=
  if decide (roomID = "!unknown") then None
  else if decide (roomID = "!q") then Some "1"
  else Some "6".

Definition sampleRoomOf (pdu : string) : string :=
  default "" (sampleUnmarshalHeader pdu).

Definition sampleNewEvent (pdu roomVersion : string) : parseError + Event :=
  if decide (pdu = "x") then inl (BadJSONError "value is not canonical")
  else if decide (pdu = "y") then inl (BadJSONError "value is not canonical")
  else if decide (pdu = "p") then inl (OtherParseError "missing field")
  else if decide (pdu = "S")
  then inr {| EventID := "$s"; RoomID := "!r"; eventJSON := pdu |}
  else inr {| EventID := "$" +:+ pdu; RoomID := sampleRoomOf pdu;
              eventJSON := pdu |}.

(** The server [evil.example] is banned from the room [!acl]. *)
Definition sampleIsServerBanned (roomID origin : string) : bool :=
  bool_decide (roomID = "!acl" ∧ origin = "evil.example").

Definition sampleVerify (e : Event) : option string :=
  if decide (eventJSON e = "s") then Some "bad signature from origin"
  else None.

(** The roomserver rejects the event [$b] and fails on [$c], under
    whatever context it is called. *)
Definition sampleSendEvents (ctx : context) (e : HeaderedEvent)
    (origin : string) : option error :=
  if decide (EventID (unwrap e) = "$b")
  then Some (NotAllowed "not allowed by auth rules")
  else if decide (EventID (unwrap e) = "$c")
  then Some (Failed "database is down")
  else None.

Definition deps : Deps :=
  {| unmarshalTxn := sampleUnmarshalTxn;
     unmarshalHeader := sampleUnmarshalHeader;
     QueryRoomVersionForRoom := sampleQueryRoomVersionForRoom;
     NewEventFromUntrustedJSON := sampleNewEvent;
     IsServerBannedFromRoom := sampleIsServerBanned;
     VerifyEventSignatures := sampleVerify;
     SendEvents := sampleSendEvents |}.

(** A request of [origin] with transaction ID [txn] and the given body,
    under the request context [id]. *)
Definition request (id : nat) (origin txn body : string) : SendArgs :=
  {| httpReqContext := RequestContext id;
     requestOrigin := origin;
     requestContent := body;
     txnID := txn;
     serverName := "local.example" |}.

(** The state the sample world is in after the given actions (the initial
    state when they cannot all be taken). *)
Definition after (acts : list Action) : State :=
  default initial (run deps acts initial).

(** Some requests of the server [a.example] with transaction ID [t1]: one
    good PDU; no PDU at all; a PDU with a broken signature, a good one and
    one that is not canonical JSON; the same event twice, with a broken
    and with a proper signature; a good PDU and one that is not canonical
    JSON in a room of version 1; and 51 PDUs.  And one of the banned
    server. *)
Definition oneGood : SendArgs := request 1 "a.example" "t1" "a|".
Definition empty : SendArgs := request 1 "a.example" "t1" "|".
Definition mixed : SendArgs := request 1 "a.example" "t1" "sax|".
Definition twice : SendArgs := request 1 "a.example" "t1" "sS|".
Definition oldRoom : SendArgs := request 1 "a.example" "t1" "ay|".
Definition large : SendArgs :=
  request 1 "a.example" "t1"
    "aaaaaaaaaaaaaaaaaaaaaaaaaaaaaaaaaaaaaaaaaaaaaaaaaaa|".
Definition banned : SendArgs := request 2 "evil.example" "t7" "na|".

End sample.


(** ** More of the worker pool: queues, live workers, wait groups *)

Module pool.
Import routing.

(** The counter of a queue is the length of its slice. *)
Definition wfQueue (q : sendFIFOQueue) : Prop :=
  count q = Z.of_nat (length (tasks q)).

(** Pushing frames one after the other, and popping up to [n] times,
    stopping where [pop] reports an empty queue; [None] is a panic. *)
Definition pushAll (q : sendFIFOQueue) (frames : list (option nat))
  : sendFIFOQueue :=
  foldl push q frames.

Fixpoint drain (n : nat) (q : sendFIFOQueue)
  : option (list (option nat) * sendFIFOQueue) :=
  match n with
  | O => Some ([], q)
  | S n =>
      match pop q with
      | None => None
      | Some (q', frame, true) =>
          match drain n q' with
          | Some (frames, q'') => Some (frame :: frames, q'')
          | None => None
          end
      | Some (q', _, false) => Some ([], q')
      end
  end.

(** A goroutine of [run] that has not finished, and the task it has in
    hand between [pop] and [wg.Done]. *)
Definition live (pc : WorkerPC) : bool :=
  match pc with
  | Exited => false
  | _ => true
  end.

Definition inHand (pc : WorkerPC) : option nat :=
  match pc with
  | AtTask task | AtWgDone task => Some task
  | _ => None
  end.

(** The pool as the code keeps it: the queues are well formed and hold
    pointers to tasks of their room, oldest first; a live worker has its
    flag set and is alone in its room; the task a worker has in hand is of
    its room and older than the queued ones. *)
Record poolInv (s : State) : Prop := {
  queue_wf : ∀ r w,
    inputWorkers s !! r = Some w → wfQueue (input w);
  queue_tasks : ∀ r w frame,
    inputWorkers s !! r = Some w → frame ∈ tasks (input w) →
    ∃ task tk, frame = Some task ∧ taskHeap s !! task = Some tk ∧
               RoomID (unwrap (event tk)) = r;
  queue_sorted : ∀ r w i j a b,
    inputWorkers s !! r = Some w → i < j →
    tasks (input w) !! i = Some (Some a) →
    tasks (input w) !! j = Some (Some b) → a < b;
  live_running : ∀ wid th,
    workers s !! wid = Some th → live (wpc th) = true →
    ∃ w, inputWorkers s !! room th = Some w ∧ running w = true;
  live_alone : ∀ wid1 wid2 th1 th2,
    workers s !! wid1 = Some th1 → workers s !! wid2 = Some th2 →
    live (wpc th1) = true → live (wpc th2) = true →
    room th1 = room th2 → wid1 = wid2;
  hand_older : ∀ wid th task,
    workers s !! wid = Some th → inHand (wpc th) = Some task →
    (∃ tk, taskHeap s !! task = Some tk ∧
           RoomID (unwrap (event tk)) = room th) ∧
    ∀ w i a, inputWorkers s !! room th = Some w →
             tasks (input w) !! i = Some (Some a) → task < a;
}.

(** *** The wait groups *)

(** A task is outstanding from the [push] of its pointer to the
    [wg.Done] of the worker that took it: it is in a queue, or a worker
    has it in hand. *)
Definition inQueue (s : State) (task : nat) : Prop :=
  ∃ r w, inputWorkers s !! r = Some w ∧ Some task ∈ tasks (input w).

Definition inHands (s : State) (task : nat) : Prop :=
  ∃ wid th, workers s !! wid = Some th ∧ inHand (wpc th) = Some task.

(** The same as tests; the only queue a task can be in is that of its
    room. *)
Definition queued (s : State) (task : nat) : bool :=
  match taskHeap s !! task with
  | Some tk =>
      match inputWorkers s !! RoomID (unwrap (event tk)) with
      | Some w => bool_decide (Some task ∈ tasks (input w))
      | None => false
      end
  | None => false
  end.

Definition inHandOf (s : State) (task : nat) : bool :=
  bool_decide (Exists (λ th, inHand (wpc th) = Some task) (workers s)).

Definition outstanding (s : State) (task : nat) : bool :=
  queued s task || inHandOf s task.

(** The number of indices below [n] at which [P] holds. *)
Fixpoint countBelow (P : nat → bool) (n : nat) : nat :=
  match n with
  | O => 0
  | S n => (if P n then 1 else 0) + countBelow P n
  end.

(** What the wait group [g] is owed: the outstanding tasks that point
    to it. *)
Definition owes (s : State) (g : nat) (task : nat) : bool :=
  outstanding s task && bool_decide (wg <$> taskHeap s !! task = Some g).

Definition owed (s : State) (g : nat) : nat :=
  countBelow (owes s g) (length (taskHeap s)).

(** The counter of every wait group is what it is owed. *)
Definition wgInv (s : State) : Prop :=
  ∀ g, wgCounter s g = owed s g.

(** A task left behind: it sits in the queue of its room while the flag
    of the room is cleared and every goroutine that was started for the
    room has finished. *)
Definition stranded (s : State) (r : string) (task : nat) : Prop :=
  (∃ w, inputWorkers s !! r = Some w ∧ running w = false ∧
        Some task ∈ tasks (input w)) ∧
  ∀ wid th, workers s !! wid = Some th → room th = r → wpc th = Exited.

(** *** What has been handed to the roomserver *)

(** A task is handled once its worker is past the call of
    [processEvent]: it is no longer in a queue, and no worker is about to
    process it. *)
Definition atTask (s : State) (task : nat) : Prop :=
  ∃ wid th, workers s !! wid = Some th ∧ wpc th = AtTask task.

Definition handled (s : State) (task : nat) : Prop :=
  ¬ inQueue s task ∧ ¬ atTask s task.

(** The locals of [processTransaction], where an invocation is in it. *)
Definition frameOf (pc : SendPC) : option frame :=
  match pc with
  | AtPDU _ f _ | AtCAS _ f _ _ | AtWait _ f => Some f
  | _ => None
  end.

(** The event of every handled task has been handed to the roomserver,
    with the origin of its transaction; and the tasks an invocation keeps
    in [tasks] point to its own wait group. *)
Record doneInv (s : State) : Prop := {
  handled_submitted : ∀ task tk,
    taskHeap s !! task = Some tk → handled s task →
    (event tk, Origin (t tk)) ∈ roomserverInput s;
  own_tasks : ∀ tid th f task,
    sends s !! tid = Some th → frameOf (pc th) = Some f →
    task ∈ ftasks f →
    ∃ tk, taskHeap s !! task = Some tk ∧ wg tk = tid;
}.

End pool.

(** ** More of the route table *)

Module routes.
Import inthttp.

(** The twenty path constants that [AddRoutes] uses. *)
Definition paths (P : Paths) : list string :=
  [FederationAPIQueryJoinedHostServerNamesInRoomPath P;
   FederationAPIPerformInviteRequestPath P;
   FederationAPIPerformLeaveRequestPath P;
   FederationAPIPerformDirectoryLookupRequestPath P;
   FederationAPIPerformBroadcastEDUPath P;
   FederationAPIPerformJoinRequestPath P;
   FederationAPIClaimKeysPath P;
   FederationAPIQueryKeysPath P;
   FederationAPIBackfillPath P;
   FederationAPILookupStatePath P;
   FederationAPILookupStateIDsPath P;
   FederationAPILookupMissingEventsPath P;
   FederationAPIGetEventPath P;
   FederationAPIGetEventAuthPath P;
   FederationAPIQueryServerKeysPath P;
   FederationAPILookupServerKeysPath P;
   FederationAPIEventRelationshipsPath P;
   FederationAPISpacesSummaryPath P;
   FederationAPIQueryPublicKeyPath P;
   FederationAPIInputPublicKeyPath P].

End routes.

(** ** More of [Send]: what it answers, and the index *)

Module answers.
Import routing.

(** The two answers of a follower that has no response to pass on. *)
Definition timedOut : Response :=
  {| Code := StatusRequestTimeout; JSON := JSONNil |}.
Definition accepted : Response :=
  {| Code := StatusAccepted; JSON := JSONNil |}.

(** What an invocation for the request [a] may return: one of the two
    above, what it works out itself as a leader, or the 200 response that
    a leader for the same index has worked out for its own request. *)
Definition isAnswer (d : Deps) (a : SendArgs) (res : Response) : Prop :=
  res = timedOut ∨ res = accepted ∨ res = leaderResponse d a ∨
  ∃ a', index a' = index a ∧ res = leaderResponse d a' ∧
        Code res = StatusOK.

(** The byte that separates origin and transaction ID in the index, and
    whether a string has it. *)
Definition NUL : ascii := "000"%char.

Fixpoint contains (c : ascii) (s : string) : bool :=
  match s with
  | EmptyString => false
  | String c' s' => bool_decide (c' = c) || contains c s'
  end.

End answers.

(** ** federationapi/routing: the EDUs of a transaction *)

Module edus.
Import routing.

(** The EDU type constants of gomatrixserverlib and of the EDU server's
    API, which are declared outside the sources: they are taken as
    parameters, in the order of the cases of the [switch]. *)
Record EDUTypes := mkEDUTypes {
  MTyping : string;
  MDirectToDevice : string;
  MDeviceListUpdate : string;
  MReceipt : string;
  MSigningKeyUpdate : string;
}.

(** The payloads, as far as [processEDUs] reads them.  A Go map is given
    as the list of its entries in the order in which [range] visits
    them. *)
Record TypingPayload := mkTypingPayload {
  typingRoomID : string;
  typingUserID : string;
  typingTyping : bool;
}.

Record ToDeviceMessage := mkToDeviceMessage {
  Sender : string;
  MessageType : string;
  Messages : list (string * list (string * string));
}.

Record DeviceListUpdateEvent := mkDeviceListUpdateEvent {
  updateUserID : string;
  updateRest : string;
}.

Record FederationReceiptData := mkFederationReceiptData {
  TS : Z;
  EventIDs : list string;
}.

Record FederationReceiptMRead := mkFederationReceiptMRead {
  User : list (string * FederationReceiptData);
}.

Record CrossSigningKeyUpdate := mkCrossSigningKeyUpdate {
  signingUserID : string;
  signingRest : string;
}.

(** The calls that leave [processEDUs]: to the EDU server and to the key
    server, each with the context it is made under. *)
Inductive Call :=
| SendTyping (ctx : context) (userID roomID : string) (typing : bool)
    (timeoutMS : Z)
| SendToDevice (ctx : context) (sender userID deviceID type : string)
    (message : string)
| InputDeviceListUpdate (ctx : context) (event : DeviceListUpdateEvent)
| InputReceiptEvent (ctx : context)
    (userID roomID eventID receiptType : string) (timestamp : Z)
| InputCrossSigningKeyUpdate (ctx : context)
    (update : CrossSigningKeyUpdate).

(** The collaborators: the JSON decoders ([None] is a decoding error),
    [gomatrixserverlib.SplitID] (local part and domain, [None] is an
    error) and the answer of the EDU server to [InputReceiptEvent], which
    may depend on the calls made before ([None] is [nil], [Some msg] an
    error).  The errors of the other calls are only logged. *)
Record Decoders := mkDecoders {
  unmarshalTyping : string → option TypingPayload;
  SplitID : ascii → string → option (string * string);
  unmarshalToDevice : string → option ToDeviceMessage;
  unmarshalDeviceListUpdate : string → option DeviceListUpdateEvent;
  unmarshalReceipt : string → option (list (string * FederationReceiptMRead));
  unmarshalSigningKeyUpdate : string → option CrossSigningKeyUpdate;
  InputReceiptEventError : list Call → Call → option string;
}.

(** [processReceiptEvent]: the calls made so far after it, and its
    error. *)
Fixpoint processReceiptEvent (D : Decoders) (ctx : context)
    (userID roomID receiptType : string) (timestamp : Z)
    (eventIDs : list string) (calls : list Call)
  : list Call * option string :=
  match eventIDs with
  | [] => (calls, None)
  | eventID :: eventIDs =>
      let req :=
        InputReceiptEvent ctx userID roomID eventID receiptType timestamp in
      match InputReceiptEventError D calls req with
      | Some err =>
          (calls ++ [req], Some ("unable to set receipt event: " +:+ err))
      | None =>
          processReceiptEvent D ctx userID roomID receiptType timestamp
            eventIDs (calls ++ [req])
      end
  end.

(** [processDeviceListUpdate] *)
Definition processDeviceListUpdate (D : Decoders) (ctx : context) (e : EDU)
    (calls : list Call) : list Call :=
  match unmarshalDeviceListUpdate D (Content e) with
  | None => calls
  | Some payload => calls ++ [InputDeviceListUpdate Background payload]
  end.

(** The body of the loop of [processEDUs] after the counter: the [switch]
    on the type of the EDU. *)
Definition processEDU (T : EDUTypes) (D : Decoders) (ctx : context)
    (origin : string) (calls : list Call) (e : EDU) : list Call :=
  if decide (Type_ e = MTyping T) then
    match unmarshalTyping D (Content e) with
    | None => calls
    | Some typingPayload =>
        match SplitID D "@"%char (typingUserID typingPayload) with
        | None => calls
        | Some (_, domain) =>
            if decide (domain ≠ origin) then calls
            else calls ++ [SendTyping ctx (typingUserID typingPayload)
                             (typingRoomID typingPayload)
                             (typingTyping typingPayload) (30 * 1000)]
        end
    end
  else if decide (Type_ e = MDirectToDevice T) then
    match unmarshalToDevice D (Content e) with
    | None => calls
    | Some directPayload =>
        foldl (λ calls '(userID, byUser),
                 foldl (λ calls '(deviceID, message),
                          calls ++ [SendToDevice ctx (Sender directPayload)
                                      userID deviceID
                                      (MessageType directPayload) message])
                   calls byUser)
          calls (Messages directPayload)
    end
  else if decide (Type_ e = MDeviceListUpdate T) then
    processDeviceListUpdate D ctx e calls
  else if decide (Type_ e = MReceipt T) then
    match unmarshalReceipt D (Content e) with
    | None => calls
    | Some payload =>
        foldl (λ calls '(roomID, receipt),
                 foldl (λ calls '(userID, mread),
                          match SplitID D "@"%char userID with
                          | None => calls
                          | Some (_, domain) =>
                              if decide (origin ≠ domain) then calls
                              else
                                (processReceiptEvent D ctx userID roomID
                                   "m.read" (TS mread) (EventIDs mread)
                                   calls).1
                          end)
                   calls (User receipt))
          calls payload
    end
  else if decide (Type_ e = MSigningKeyUpdate T) then
    match unmarshalSigningKeyUpdate D (Content e) with
    | None => calls
    | Some updatePayload =>
        calls ++ [InputCrossSigningKeyUpdate ctx updatePayload]
    end
  else calls.

(** [processEDUs]: the counter [recv_edus] and the calls made. *)
Record Outcome := mkOutcome {
  counted : nat;
  calls : list Call;
}.

Definition processEDUs (T : EDUTypes) (D : Decoders) (ctx : context)
    (tx : txnReq) (o : Outcome) : Outcome :=
  foldl (λ o e, {| counted := S (counted o);
                   calls := processEDU T D ctx (Origin tx) (calls o) e |})
    o (EDUs tx).

(** The transaction with other EDUs. *)
Definition withEDUs (tx : txnReq) (es : list EDU) : txnReq :=
  {| PDUs := PDUs tx; EDUs := es; Origin := Origin tx;
     TransactionID := TransactionID tx; Destination := Destination tx |}.

(** The context a call is made under, and the user it is made for. *)
Definition callCtx (c : Call) : context :=
  match c with
  | SendTyping ctx _ _ _ _ | SendToDevice ctx _ _ _ _ _
  | InputDeviceListUpdate ctx _ | InputReceiptEvent ctx _ _ _ _ _
  | InputCrossSigningKeyUpdate ctx _ => ctx
  end.

Definition isDeviceListUpdate (c : Call) : bool :=
  match c with
  | InputDeviceListUpdate _ _ => true
  | _ => false
  end.

(** The user in whose name a typing notification or a receipt is passed
    on. *)
Definition onBehalfOf (c : Call) : option string :=
  match c with
  | SendTyping _ userID _ _ _ | InputReceiptEvent _ userID _ _ _ _ =>
      Some userID
  | _ => None
  end.

(** What holds of every call that [processEDUs] makes for a transaction
    of [origin] under [ctx]: the key server is called under the
    background context and the EDU server under [ctx], and a typing
    notification or a receipt is passed on for a user of the origin
    only. *)
Definition wellMade (D : Decoders) (ctx : context) (origin : string)
    (c : Call) : Prop :=
  callCtx c = (if isDeviceListUpdate c then Background else ctx) ∧
  ∀ userID, onBehalfOf c = Some userID →
    ∃ localpart, SplitID D "@"%char userID = Some (localpart, origin).

(** The calls of [processReceiptEvent] for the first [n] event IDs. *)
Definition receiptCalls (ctx : context)
    (userID roomID receiptType : string) (timestamp : Z)
    (eventIDs : list string) (n : nat) : list Call :=
  (λ eventID,
     InputReceiptEvent ctx userID roomID eventID receiptType timestamp)
  <$> take n eventIDs.

(** The calls for a to-device payload: one for each device of each user,
    in the order of the payload. *)
Definition toDeviceCalls (ctx : context) (p : ToDeviceMessage)
  : list Call :=
  Messages p ≫= λ '(userID, byUser),
    (λ '(deviceID, message),
       SendToDevice ctx (Sender p) userID deviceID (MessageType p) message)
    <$> byUser.

(** An EDU that [processEDUs] passes over: of a type that is none of the
    five, or with a content that does not decode. *)
Definition passedOver (T : EDUTypes) (D : Decoders) (e : EDU) : Prop :=
  (Type_ e = MTyping T ∧ unmarshalTyping D (Content e) = None) ∨
  (Type_ e = MDirectToDevice T ∧ unmarshalToDevice D (Content e) = None) ∨
  (Type_ e = MDeviceListUpdate T ∧
   unmarshalDeviceListUpdate D (Content e) = None) ∨
  (Type_ e = MReceipt T ∧ unmarshalReceipt D (Content e) = None) ∨
  (Type_ e = MSigningKeyUpdate T ∧
   unmarshalSigningKeyUpdate D (Content e) = None) ∨
  (Type_ e ≠ MTyping T ∧ Type_ e ≠ MDirectToDevice T ∧
   Type_ e ≠ MDeviceListUpdate T ∧ Type_ e ≠ MReceipt T ∧
   Type_ e ≠ MSigningKeyUpdate T).

End edus.

(** A small world of EDUs: the usual type names, a typing notification of
    [@alice:a.example] or of [@eve:evil.example], a to-device message of
    two users, and a receipt of Alice for two events of which the EDU
    server refuses the second. *)
Module sampleEdus.
Import routing edus.

Definition types : EDUTypes :=
  {| MTyping := "m.typing";
     MDirectToDevice := "m.direct_to_device";
     MDeviceListUpdate := "m.device_list_update";
     MReceipt := "m.receipt";
     MSigningKeyUpdate := "m.signing_key_update" |}.

Definition sampleUnmarshalTyping (content : string)
  : option TypingPayload :=
  if decide (content = "alice")
  then Some {| typingRoomID := "!r"; typingUserID := "@alice:a.example";
               typingTyping := true |}
  else if decide (content = "eve")
  then Some {| typingRoomID := "!r"; typingUserID := "@eve:evil.example";
               typingTyping := true |}
  else None.

Definition sampleSplitID (sigil : ascii) (id : string)
  : option (string * string) :=
  if decide (sigil = "@"%char ∧ id = "@alice:a.example")
  then Some ("alice", "a.example")
  else if decide (sigil = "@"%char ∧ id = "@eve:evil.example")
  then Some ("eve", "evil.example")
  else None.

Definition sampleToDevice : ToDeviceMessage :=
  {| Sender := "@mallory:elsewhere.example";
     MessageType := "m.room_key_request";
     Messages := [("@bob:local.example", [("PHONE", "1"); ("LAPTOP", "2")]);
                  ("@carol:local.example", [("TABLET", "3")])] |}.

Definition sampleUnmarshalToDevice (content : string)
  : option ToDeviceMessage :=
  if decide (content = "keys") then Some sampleToDevice else None.

Definition sampleUnmarshalReceipt (content : string)
  : option (list (string * FederationReceiptMRead)) :=
  if decide (content = "read")
  then Some [("!r", {| User := [("@alice:a.example",
                                 {| TS := 1000;
                                    EventIDs := ["$1"; "$2"; "$3"] |})] |})]
  else None.

Definition sampleReceiptError (before : list Call) (c : Call)
  : option string :=
  match c with
  | InputReceiptEvent _ _ _ eventID _ _ =>
      if decide (eventID = "$2") then Some "no such event" else None
  | _ => None
  end.

Definition decoders : Decoders :=
  {| unmarshalTyping := sampleUnmarshalTyping;
     SplitID := sampleSplitID;
     unmarshalToDevice := sampleUnmarshalToDevice;
     unmarshalDeviceListUpdate := λ _, None;
     unmarshalReceipt := sampleUnmarshalReceipt;
     unmarshalSigningKeyUpdate := λ _, None;
     InputReceiptEventError := sampleReceiptError |}.

Definition txn (es : list EDU) : txnReq :=
  {| PDUs := []; EDUs := es; Origin := "a.example";
     TransactionID := "t1"; Destination := "local.example" |}.

End sampleEdus.

(** ** Some runs of the pool *)

Module samplePool.
Import routing sample.

(** A transaction with two good PDUs of the room [!r]. *)
Definition twoGood : SendArgs := request 1 "a.example" "t1" "ab|".

(** The leader of [oneGood] has pushed its task and started the worker of
    the room, which has not popped yet. *)
Definition started : list Action := [Arrive oneGood] ++ solo 0 4.


(** The worker has done the first task and found the queue empty, and
    before it clears the flag the leader pushes the second task. *)
Definition race : list Action :=
  [Arrive twoGood] ++ solo 0 4 ++
  [StepWorker 0; StepWorker 0; StepWorker 0; StepWorker 0] ++ solo 0 1.

(** Then the leader tries the flag, and the worker clears it. *)
Definition lost : list Action := race ++ [StepSend 0 false; StepWorker 0].

(** The worker has processed the one task of [oneGood] and told the
    wait group, and the leader has come to [wg.Wait()]. *)
Definition served : list Action :=
  started ++ [StepWorker 0; StepWorker 0; StepWorker 0] ++ solo 0 1.

(** Two invocations for [oldRoom], whose second PDU is not canonical
    JSON: the first leads, the second follows it and waits, and the
    leader has rejected the transaction, closed its channel and
    returned. *)
Definition rejected : list Action :=
  [Arrive oldRoom; Arrive oldRoom; StepSend 0 false; StepSend 1 false] ++
  solo 0 6.

(** The leader of the empty transaction has returned. *)
Definition finished : list Action := [Arrive empty] ++ solo 0 7.

(** The paths of the witness of the route table. *)
Definition somePaths : inthttp.Paths :=
  inthttp.mkPaths "/a" "/b" "/c" "/d" "/e"
    "/federationapi/performJoinRequest"
    "/g" "/h" "/i" "/j" "/k" "/l" "/m" "/n" "/o" "/p" "/q" "/r" "/s" "/t".

End samplePool.
(* ===================================================================== *)
(** * Part II: properties                                                  *)
(* ===================================================================== *)

(** ** The generic helpers *)

Section helpers.
Import httputil.

Lemma MakeInternalProxyAPI_serve {reqtype restype} `{!Unmarshal reqtype}
    (name : string) (f : context → reqtype → reqtype) (req : Request) :
  serve (MakeInternalProxyAPI (restype := restype) name f) req =
  match unmarshal (Body req) with
  | inl err => MessageResponse StatusBadRequest err
  | inr request =>
      {| Code := StatusOK; JSON := RequestJSON (f (Context req) request) |}
  end.
Proof. reflexivity. Qed.

Lemma MakeInternalRPCAPI_ok {reqtype restype}
    `{!Unmarshal reqtype} `{!Zero restype} (name : string)
    (f : context → reqtype → restype → reqtype * restype * option string)
    (req : Request) (request request' : reqtype) (response : restype) :
  unmarshal (Body req) = inr request →
  f (Context req) request zero = (request', response, None) →
  serve (MakeInternalRPCAPI name f) req =
  {| Code := StatusOK; JSON := ResponseJSON response |}.
Proof. intros Hu Hf. simpl. by rewrite Hu, Hf. Qed.

(** A request type to run the helpers on: the body itself, decoded as it
    is. *)
#[local] Instance raw_unmarshal : Unmarshal string := λ body, inr body.

(** C6.  The proxy helper of [internal/httputil] does not do what the
    claim says, and what its callers in [AddRoutes] need.  Its handler
    returns nothing, so there is no result and no error to act on: for
    every handler and every request the answer is either the 400 of a
    decoding failure or status 200 with the request itself as the body.
    It never serialises a result value and never answers with an error
    envelope.  At the body [[1,2,3]] with a handler that leaves
    the request alone, the answer is 200 with that body echoed. *)
Theorem MakeInternalProxyAPI_answers_with_request :
  (∀ (reqtype restype : Type) (U : Unmarshal reqtype) (name : string)
     (f : context → reqtype → reqtype) (req : Request),
     let res := serve (MakeInternalProxyAPI (restype := restype) name f) req in
     (Code res = StatusBadRequest ∨
      Code res = StatusOK ∧ ∃ request, JSON res = RequestJSON request) ∧
     (∀ response : restype, JSON res ≠ ResponseJSON response)) ∧
  serve (MakeInternalProxyAPI (restype := string) "GetUserDevices"
           (λ _ request, request))
        {| Body := "[1,2,3]"; Context := Background |}
  = {| Code := 200; JSON := RequestJSON "[1,2,3]" |}.
Proof.
  split; [|reflexivity].
  intros reqtype restype U name f req res. subst res.
  rewrite MakeInternalProxyAPI_serve.
  destruct (unmarshal (Body req)) as [err|request]; simpl.
  - split; [by left|]. intros response. discriminate.
  - split; [right; eauto|]. intros response. discriminate.
Qed.

End helpers.

(** ** The route table *)

Section routes.
Import inthttp.

(** The routes that [AddRoutes] registers, in order. *)
Lemma AddRoutes_table (P : Paths) (mux : Router) :
  AddRoutes P mux = mux ++ AddRoutes P [].
Proof.
  unfold AddRoutes, Handle. simpl. by rewrite <- !app_assoc.
Qed.

Lemma Match_app (r1 r2 : Router) (path : string) :
  Match (r1 ++ r2) path =
  match Match r1 path with
  | Some h => Some h
  | None => Match r2 path
  end.
Proof.
  induction r1 as [|[p h] r1 IH]; simpl; [done|].
  by case_decide.
Qed.

Lemma Match_Some_elem (r : Router) (path : string) (h : RouteHandler) :
  Match r path = Some h → (path, h) ∈ r.
Proof.
  induction r as [|[p h'] r IH]; simpl; [done|].
  case_decide; intros Hm.
  - simplify_eq. apply list_elem_of_here.
  - apply list_elem_of_further. auto.
Qed.

(** C10.  [AddRoutes] registers the handler named [GetUserDevices] under
    [FederationAPIPerformJoinRequestPath], directly after the handler
    [PerformJoinRequest] under the same path.  Whatever the path constants
    are, every route of the [GetUserDevices] handler is at that shared
    path, and no path is served by it: the router answers with the first
    route that matches. *)
Theorem AddRoutes_GetUserDevices_unreachable (P : Paths) (mux : Router) :
  (∀ p h, (p, h) ∈ mux → handlerName h ≠ "GetUserDevices") →
  let r := AddRoutes P mux in
  (∃ before after,
     r = before ++
         [(FederationAPIPerformJoinRequestPath P,
           MakeInternalRPCAPI "PerformJoinRequest");
          (FederationAPIPerformJoinRequestPath P,
           MakeInternalProxyAPI "GetUserDevices")] ++ after) ∧
  (∀ p h, (p, h) ∈ r → handlerName h = "GetUserDevices" →
     p = FederationAPIPerformJoinRequestPath P) ∧
  (∀ path h, Match r path = Some h → handlerName h ≠ "GetUserDevices").
Proof.
  intros Hmux r. subst r. rewrite AddRoutes_table.
  split; [|split].
  - exists (mux ++ take 5 (AddRoutes P [])), (drop 7 (AddRoutes P [])).
    rewrite <- app_assoc. f_equal.
  - intros p h [Hin|Hin]%elem_of_app Hn; [by destruct (Hmux p h Hin)|].
    unfold AddRoutes, Handle in Hin. simpl in Hin.
    repeat (apply elem_of_cons in Hin as [Heq|Hin];
            [by simplify_eq|]).
    by apply elem_of_nil in Hin.
  - intros path h. rewrite Match_app.
    destruct (Match mux path) as [h'|] eqn:Hm.
    + intros [= ->]. apply Match_Some_elem in Hm. eauto.
    + unfold AddRoutes, Handle. simpl.
      repeat (case_decide; [by intros [= <-]|]).
      first [done | case_decide; [congruence|]];
      repeat (case_decide; [by intros [= <-]|]); done.
Qed.

Lemma AddRoutes_GetUserDevices_unreachable_witness :
  ∃ before after,
    AddRoutes
      (mkPaths "/a" "/b" "/c" "/d" "/e" "/federationapi/performJoinRequest"
         "/g" "/h" "/i" "/j" "/k" "/l" "/m" "/n" "/o" "/p" "/q" "/r"
         "/s" "/t") [] =
    before ++
      [("/federationapi/performJoinRequest",
        MakeInternalRPCAPI "PerformJoinRequest");
       ("/federationapi/performJoinRequest",
        MakeInternalProxyAPI "GetUserDevices")] ++ after.
Proof.
  refine (proj1 (AddRoutes_GetUserDevices_unreachable
                   (mkPaths "/a" "/b" "/c" "/d" "/e"
                      "/federationapi/performJoinRequest"
                      "/g" "/h" "/i" "/j" "/k" "/l" "/m" "/n" "/o" "/p" "/q"
                      "/r" "/s" "/t") [] _)).
  intros p h Hin. by apply elem_of_nil in Hin.
Defined.

End routes.

Import routing.

(** ** [Send] and the workers *)

Section send_facts.
Context (d : Deps).

Lemma stepWorker_registry wid s s' :
  stepWorker d wid s = Some s' →
  sends s' = sends s ∧ chans s' = chans s ∧
  inFlightTxnsPerOrigin s' = inFlightTxnsPerOrigin s ∧ world s' = world s.
Proof.
  unfold stepWorker, wgDone, recordOutcome, processEvent. intros H.
  repeat (simplify_option_eq || case_match); done.
Qed.

Lemma stepSend_registry tid b s s' :
  stepSend d tid b s = Some s' →
  ∃ th pc',
    sends s !! tid = Some th ∧
    sends s' = alter (λ th, mkSend (args th) pc') tid (sends s) ∧
    regMove tid (args th) (inFlightTxnsPerOrigin s) (chans s)
      (pc th) pc' (inFlightTxnsPerOrigin s') (chans s').
Proof.
  unfold stepSend, LoadOrStore. intros H.
  repeat (simplify_option_eq || case_match);
    (eexists _, _; split; [done|]; split; [reflexivity|]);
    match goal with
    | H : pc _ = _ |- _ => rewrite H
    end; simpl;
    try (by econstructor).
Qed.

Lemma lookup_moved (l : list SendThread) tid tid' th pc' th' :
  l !! tid = Some th →
  alter (λ th, mkSend (args th) pc') tid l !! tid' = Some th' →
  (tid' = tid ∧ th' = mkSend (args th) pc') ∨
  (tid' ≠ tid ∧ l !! tid' = Some th').
Proof.
  intros Hl. rewrite list_lookup_alter. case_decide; subst.
  - rewrite Hl. simpl. intros [= <-]. by left.
  - intros ?. by right.
Qed.

Lemma lookup_moved_eq (l : list SendThread) tid th pc' :
  l !! tid = Some th →
  alter (λ th, mkSend (args th) pc') tid l !! tid = Some (mkSend (args th) pc').
Proof. intros Hl. by rewrite list_lookup_alter_eq, Hl. Qed.

Lemma lookup_moved_ne (l : list SendThread) tid tid' pc' :
  tid ≠ tid' →
  alter (λ th, mkSend (args th) pc') tid l !! tid' = l !! tid'.
Proof. intros. by rewrite list_lookup_alter_ne. Qed.

Lemma holds_owns pc ch : holds pc = Some ch → owns pc = Some ch.
Proof. by destruct pc. Qed.

Lemma recv_keeps c c' v :
  recv c = Some (c', v) → maker c' = maker c ∧ closed c' = closed c.
Proof.
  unfold recv. intros H. repeat (case_match || simplify_eq); done.
Qed.

Lemma chanSend_keeps c c' v :
  chanSend c v = Some c' → maker c' = maker c ∧ closed c' = closed c ∧ closed c = false.
Proof.
  unfold chanSend. intros H. repeat (case_match || simplify_eq); done.
Qed.

Lemma chanClose_keeps c c' :
  chanClose c = Some c' → maker c' = maker c ∧ buf c' = buf c ∧ closed c' = true.
Proof.
  unfold chanClose. intros H. repeat (case_match || simplify_eq); done.
Qed.

Lemma chansStep_refl cs tid : chansStep cs cs tid.
Proof. intros ch c Hc. eauto. Qed.

Lemma chansStep_snoc cs c0 tid : chansStep cs (cs ++ [c0]) tid.
Proof. intros ch c Hc. exists c. split; [by apply lookup_app_l_Some|done]. Qed.

Lemma chansStep_insert cs ch0 c0 c0' tid :
  cs !! ch0 = Some c0 → maker c0' = maker c0 →
  (maker c0 ≠ tid → closed c0' = closed c0) →
  chansStep cs (<[ch0 := c0']> cs) tid.
Proof.
  intros Hc0 Hm Hcl ch c Hc. destruct (decide (ch0 = ch)) as [->|Hne].
  - simplify_eq. exists c0'. split; [|done].
    apply list_lookup_insert_eq. by eapply lookup_lt_Some.
  - exists c. by rewrite list_lookup_insert_ne.
Qed.

Lemma registryInv_intro s s' tid th pc' :
  registryInv s →
  sends s !! tid = Some th →
  sends s' = alter (λ th, mkSend (args th) pc') tid (sends s) →
  chansStep (chans s) (chans s') tid →
  (∀ ch, owns pc' = Some ch →
     ∃ c, chans s' !! ch = Some c ∧ maker c = tid ∧ closed c = false) →
  (∀ ch ctx, pc' = AtSelect ch ctx →
     ∃ c thm, chans s' !! ch = Some c ∧ sends s !! maker c = Some thm ∧
              index (args thm) = index (args th) ∧ maker c ≠ tid) →
  (∀ ch, holds pc' = Some ch →
     inFlightTxnsPerOrigin s' !! index (args th) = Some ch) →
  (∀ tid' th' ch, tid' ≠ tid → sends s !! tid' = Some th' →
     holds (pc th') = Some ch →
     inFlightTxnsPerOrigin s' !! index (args th') = Some ch) →
  (∀ key ch, inFlightTxnsPerOrigin s' !! key = Some ch →
     (key = index (args th) ∧ holds pc' = Some ch) ∨
     (∃ tid' th', tid' ≠ tid ∧ sends s !! tid' = Some th' ∧
                  index (args th') = key ∧ holds (pc th') = Some ch)) →
  registryInv s'.
Proof.
  intros [Hown Hhold Hheld Hfol] Hth Hs' Hcs Hmown Hmfol Hmhold Hohold Hent.
  constructor; rewrite Hs'.
  - intros tid' th' ch' [[-> ->]|[Hne Hl]]%(lookup_moved _ _ _ _ _ _ Hth) Ho;
      simpl in Ho; [by apply Hmown|].
    destruct (Hown _ _ _ Hl Ho) as (c & Hc & Hmk & Hcl).
    destruct (Hcs _ _ Hc) as (c' & Hc' & Hmk' & Hcl').
    exists c'. split; [done|]. split; [congruence|].
    rewrite Hcl'; [done|congruence].
  - intros tid' th' ch' [[-> ->]|[Hne Hl]]%(lookup_moved _ _ _ _ _ _ Hth) Ho;
      simpl in Ho; [by apply Hmhold|]. eauto.
  - intros key ch' Hm.
    destruct (Hent _ _ Hm) as [[-> Hh]|(tid' & th' & Hne & Hl & Hi & Hh)].
    + exists tid, (mkSend (args th) pc'). split; [by apply lookup_moved_eq|done].
    + exists tid', th'. split; [by rewrite lookup_moved_ne|done].
  - assert (∀ c thm, sends s !! maker c = Some thm →
              ∃ thm', alter (λ th, mkSend (args th) pc') tid (sends s)
                        !! maker c = Some thm' ∧ args thm' = args thm)
      as Hmaker.
    { intros c thm Hm. destruct (decide (maker c = tid)) as [Hmk|Hmk].
      - rewrite Hmk in *. simplify_eq. eexists. split; [by apply lookup_moved_eq|done].
      - exists thm. split; [by rewrite lookup_moved_ne|done]. }
    intros tid' th' ch' ctx [[-> ->]|[Hne Hl]]%(lookup_moved _ _ _ _ _ _ Hth) Hp;
      simpl in Hp.
    + destruct (Hmfol _ _ Hp) as (c & thm & Hc & Hm & Hi & Hn).
      destruct (Hmaker _ _ Hm) as (thm' & Hm' & Ha).
      exists c, thm'. rewrite Ha. done.
    + destruct (Hfol _ _ _ _ Hl Hp) as (c & thm & Hc & Hm & Hi & Hn).
      destruct (Hcs _ _ Hc) as (c' & Hc' & Hmk' & _).
      rewrite <- Hmk' in Hm, Hn.
      destruct (Hmaker _ _ Hm) as (thm' & Hm' & Ha).
      exists c', thm'. rewrite Ha. done.
Qed.

Lemma registryInv_move s s' tid th pc' :
  registryInv s →
  sends s !! tid = Some th →
  sends s' = alter (λ th, mkSend (args th) pc') tid (sends s) →
  regMove tid (args th) (inFlightTxnsPerOrigin s) (chans s)
    (pc th) pc' (inFlightTxnsPerOrigin s') (chans s') →
  registryInv s'.
Proof.
  intros Hinv Hth Hs' Hmove.
  pose proof Hinv as [Hown Hhold Hheld Hfol].
  assert (∀ key ch, inFlightTxnsPerOrigin s !! key = Some ch →
     (key = index (args th) ∧ holds (pc th) = Some ch) ∨
     (∃ tid' th', tid' ≠ tid ∧ sends s !! tid' = Some th' ∧
                  index (args th') = key ∧ holds (pc th') = Some ch)) as Hent.
  { intros key ch Hm. destruct (Hheld _ _ Hm) as (tid' & th' & Hl & Hi & Hh).
    destruct (decide (tid' = tid)) as [->|Hne]; [left; by simplify_eq|].
    right. eauto 10. }
  assert (∀ tid' th' ch, tid' ≠ tid → sends s !! tid' = Some th' →
     holds (pc th') = Some ch →
     inFlightTxnsPerOrigin s !! index (args th') = Some ch) as Hothers
    by eauto.
  inversion Hmove as
    [Hnone Hpc Hpc' Hm' Hcs'
    |ch ctx Hsome Hpc Hpc' Hm' Hcs'
    |ch ctx res Hpc Hpc' Hm' Hcs'
    |ch ctx c c' v res Hc Hrecv Hpc Hpc' Hm' Hcs'
    |pc0 pc0' ch Hh Hh' Hpc Hpc' Hm' Hcs'
    |ch res c c' Hc Hsend Hpc Hpc' Hm' Hcs'
    |ch res Hpc Hpc' Hm' Hcs'
    |ch res c c' Hc Hclose Hpc Hpc' Hm' Hcs']; subst pc';
  apply (registryInv_intro s s' tid th _ Hinv Hth Hs');
  rewrite <- ?Hm', <- ?Hcs'; rewrite <- ?Hpc in *; simpl; try done.
  - apply chansStep_snoc.
  - intros ch [= <-]. eexists. split; [by apply list_lookup_middle|done].
  - intros ch [= <-]. by rewrite lookup_insert_eq.
  - intros tid' th' ch Hne Hl Hh. pose proof (Hhold _ _ _ Hl Hh) as He.
    rewrite lookup_insert_ne; [done|]. intros Heq. congruence.
  - intros key ch. rewrite lookup_insert. case_decide.
    + intros [= <-]. by left.
    + intros Hm. destruct (Hent _ _ Hm) as [[-> Hh]|?]; [done|by right].
  - apply chansStep_snoc.
  - intros ch0 ctx0 [= <- <-].
    destruct (Hheld _ _ Hsome) as (tid' & th' & Hl & Hi & Hh).
    destruct (Hown _ _ _ Hl (holds_owns _ _ Hh)) as (c & Hc & Hmk & _).
    exists c, th'. split; [by apply lookup_app_l_Some|]. rewrite Hmk.
    split; [done|]. split; [done|]. intros ->. simplify_eq.
    by rewrite <- Hpc in Hh.
  - apply chansStep_refl.
  - destruct (recv_keeps _ _ _ Hrecv) as [? ?].
    by apply (chansStep_insert _ _ c).
  - apply chansStep_refl.
  - intros ch0 Ho. apply holds_owns in Hh' as Ho'. apply (Hown _ _ _ Hth).
    rewrite <- Hpc. apply holds_owns. congruence.
  - intros ch0 ctx0 ->. done.
  - intros ch0 Hh0. apply (Hhold _ _ _ Hth). rewrite <- Hpc. congruence.
  - intros key ch0 Hm. destruct (Hent _ _ Hm) as [[-> Hh0]|?]; [|by right].
    left. split; [done|]. congruence.
  - destruct (chanSend_keeps _ _ _ Hsend) as (? & ? & ?).
    apply (chansStep_insert _ _ c); [done..|congruence].
  - intros ch0 [= <-].
    destruct (Hown tid th ch Hth) as (c0 & Hc0 & Hmk & Hcl); [by rewrite <- Hpc|].
    destruct (chanSend_keeps _ _ _ Hsend) as (? & ? & ?). simplify_eq.
    exists c'. split; [|split; congruence].
    apply list_lookup_insert_eq. by eapply lookup_lt_Some.
  - intros ch0 [= <-]. apply (Hhold _ _ _ Hth). by rewrite <- Hpc.
  - apply chansStep_refl.
  - intros ch0 [= <-]. apply (Hown _ _ _ Hth). by rewrite <- Hpc.
  - intros tid' th' ch0 Hne Hl Hh. pose proof (Hhold _ _ _ Hl Hh) as He.
    rewrite lookup_delete_ne; [done|]. intros Heq. rewrite <- Heq in He.
    assert (holds (pc th) = Some ch) as Hh0 by (by rewrite <- Hpc).
    pose proof (Hhold _ _ _ Hth Hh0) as He0.
    assert (ch0 = ch) as -> by congruence.
    destruct (Hown _ _ _ Hth (holds_owns _ _ Hh0)) as (c1 & Hc1 & Hmk1 & _).
    destruct (Hown _ _ _ Hl (holds_owns _ _ Hh)) as (c2 & Hc2 & Hmk2 & _).
    congruence.
  - intros key ch0 [Hk Hm]%lookup_delete_Some.
    destruct (Hent _ _ Hm) as [[-> Hh0]|?]; [done|by right].
  - destruct (chanClose_keeps _ _ Hclose) as (? & ? & ?).
    apply (chansStep_insert _ _ c); [done..|].
    destruct (Hown tid th ch Hth) as (c0 & Hc0 & Hmk & Hcl); [by rewrite <- Hpc|].
    intros Hn. congruence.
Qed.

Lemma registryInv_initial : registryInv initial.
Proof. constructor; simpl; intros; simplify_eq; set_solver. Qed.

Lemma registryInv_step act s s' :
  registryInv s → step d act s = Some s' → registryInv s'.
Proof.
  intros Hinv Hstep. destruct act as [a|tid b|wid|id|dt]; simpl in Hstep.
  - simplify_eq. destruct Hinv as [Hown Hhold Hheld Hfol].
    constructor; simpl.
    + intros tid th ch [[? Hl]|[-> <-]]%lookup_snoc_Some Ho; [eauto|done].
    + intros tid th ch [[? Hl]|[-> <-]]%lookup_snoc_Some Ho; [eauto|done].
    + intros key ch Hm. destruct (Hheld _ _ Hm) as (tid & th & Hl & ?).
      exists tid, th. split; [by apply lookup_app_l_Some|done].
    + intros tid th ch ctx [[? Hl]|[-> <-]]%lookup_snoc_Some Hp; [|done].
      destruct (Hfol _ _ _ _ Hl Hp) as (c & thm & Hc & Hm & ?).
      exists c, thm. split; [done|]. split; [by apply lookup_app_l_Some|done].
  - apply stepSend_registry in Hstep as (th & pc' & Hth & Hs' & Hmove).
    by eapply registryInv_move.
  - apply stepWorker_registry in Hstep as (Hs & Hc & Hm & _).
    destruct Hinv as [Hown Hhold Hheld Hfol].
    constructor; rewrite ?Hs, ?Hc, ?Hm; done.
  - simplify_eq. destruct Hinv. by constructor.
  - case_match; simplify_eq. destruct Hinv. by constructor.
Qed.

Lemma reachable_registryInv s : reachable d s → registryInv s.
Proof.
  induction 1; [apply registryInv_initial|by eapply registryInv_step].
Qed.
Lemma examine_app origin l1 l2 r e :
  examine d origin (l1 ++ l2) r e =
  match examine d origin l1 r e with
  | inl res => inl res
  | inr (r', e') => examine d origin l2 r' e'
  end.
Proof.
  revert r e. induction l1 as [|pdu l1 IH]; intros r e; simpl; [done|].
  destruct (checkPDU d origin pdu); auto.
Qed.

Lemma heapStep_refl heap : heapStep heap heap.
Proof. intros task tk H. eauto 10. Qed.

Lemma heapStep_snoc heap tk0 : heapStep heap (heap ++ [tk0]).
Proof.
  intros task tk H. exists tk. split; [by apply lookup_app_l_Some|done].
Qed.

Lemma heapStep_setErr s task e : heapStep (taskHeap s) (taskHeap (setErr task e s)).
Proof.
  intros task' tk H. simpl. rewrite list_lookup_alter.
  case_decide; subst; [rewrite H; simpl|]; eauto 10.
Qed.

Lemma heapStep_trans h1 h2 h3 : heapStep h1 h2 → heapStep h2 h3 → heapStep h1 h3.
Proof.
  intros H12 H23 task tk H.
  destruct (H12 _ _ H) as (tk2 & Hl2 & ? & ? & ? & ?).
  destruct (H23 _ _ Hl2) as (tk3 & Hl3 & ? & ? & ? & ?).
  exists tk3. repeat split; congruence.
Qed.

Lemma tasksOf_heapStep heap heap' tasks events :
  heapStep heap heap' → tasksOf heap tasks events → tasksOf heap' tasks events.
Proof.
  intros Hstep Ht. eapply Forall2_impl; [exact Ht|]. intros task e (tk & Hl & He).
  destruct (Hstep _ _ Hl) as (tk' & Hl' & _ & _ & He' & _).
  exists tk'. split; [done|congruence].
Qed.

Lemma frameInv_heapStep heap heap' a pc :
  heapStep heap heap' → frameInv d heap a pc → frameInv d heap' a pc.
Proof.
  intros Hstep. destruct pc; simpl; try done;
    intros (Hd & Hc & examined & events & Hp & He & Ht);
    (split; [done|]; split; [done|]; exists examined, events;
     split; [done|]; split; [done|]; by eapply tasksOf_heapStep).
Qed.

Lemma aggregate_settle heap tasks events results :
  tasksOf heap tasks events →
  aggregate heap tasks results = Some (settle events results).
Proof.
  intros H. revert results. induction H as [|task e tasks events (tk & Hl & He) _ IH];
    intros results; simpl; [done|].
  rewrite Hl. subst e. destruct (err tk); apply IH.
Qed.

Lemma progress_next heap heap' a f f' pdu pdus :
  progress d heap a f (pdu :: pdus) →
  fctx f' = fctx f → ft f' = ft f →
  (∀ events, tasksOf heap (ftasks f) events →
     ∃ events',
       examine d (Origin (ft f)) [pdu] (results f) events
         = inr (results f', events') ∧
       tasksOf heap' (ftasks f') events') →
  progress d heap' a f' pdus.
Proof.
  intros (Hd & Hc & examined & events & Hp & He & Ht) Hc' Ht' Hnext.
  destruct (Hnext _ Ht) as (events' & He' & Ht'').
  split; [congruence|]. split; [congruence|].
  exists (examined ++ [pdu]), events'. rewrite Ht'.
  split; [by rewrite <- app_assoc|]. split; [|done].
  by rewrite examine_app, He.
Qed.

Lemma progress_abort heap a f pdu pdus res :
  progress d heap a f (pdu :: pdus) →
  checkPDU d (Origin (ft f)) pdu = Abort res →
  res = leaderResponse d a.
Proof.
  intros (Hd & Hc & examined & events & Hp & He & Ht) Hcheck.
  unfold leaderResponse. rewrite Hd, Hp, examine_app, He. simpl.
  by rewrite Hcheck.
Qed.

Lemma progress_done heap a f results' :
  progress d heap a f [] →
  aggregate heap (ftasks f) (results f) = Some results' →
  {| Code := StatusOK; JSON := JSONRespSend results' |} = leaderResponse d a.
Proof.
  intros (Hd & Hc & examined & events & Hp & He & Ht) Hagg.
  rewrite (aggregate_settle _ _ _ _ Ht) in Hagg. simplify_eq.
  unfold leaderResponse. rewrite Hd, Hp, app_nil_r, He. done.
Qed.

Lemma stepSend_frame tid b s s' :
  stepSend d tid b s = Some s' →
  ∃ th pc',
    sends s !! tid = Some th ∧
    sends s' = alter (λ th, mkSend (args th) pc') tid (sends s) ∧
    heapStep (taskHeap s) (taskHeap s') ∧
    (frameInv d (taskHeap s) (args th) (pc th) →
     frameInv d (taskHeap s') (args th) pc').
Proof.
  unfold stepSend, LoadOrStore. intros H.
  repeat (simplify_option_eq || case_match);
    (eexists _, _; split; [done|]; split; [reflexivity|]);
    match goal with
    | H : pc _ = _ |- _ => rewrite H
    end; simpl; (split; [first [apply heapStep_refl | apply heapStep_snoc]|]);
    try done.
  - intros _. unfold leaderResponse.
    by match goal with H : decodeTransaction _ _ = _ |- _ => rewrite H end.
  - intros _. split; [done|]. split; [done|]. exists [], []. simpl.
    split; [done|]. split; [done|]. constructor.
  - intros Hp. eapply progress_next; [exact Hp|done..|].
    intros events Ht. exists events. simpl.
    by match goal with H : checkPDU _ _ _ = _ |- _ => rewrite H end.
  - intros Hp. by eapply progress_abort.
  - intros Hp. eapply progress_next; [exact Hp|done..|].
    intros events Ht. exists events. simpl.
    by match goal with H : checkPDU _ _ _ = _ |- _ => rewrite H end.
  - intros Hp. eapply progress_next; [exact Hp|done..|].
    intros events Ht. eexists. simpl.
    match goal with H : checkPDU _ _ _ = _ |- _ => rewrite H end.
    split; [done|]. apply Forall2_app.
    + eapply tasksOf_heapStep; [apply heapStep_snoc|done].
    + constructor; [|constructor]. eexists. split; [by apply list_lookup_middle|done].
  - intros Hp. eapply progress_next; [exact Hp|done..|].
    intros events Ht. eexists. simpl.
    match goal with H : checkPDU _ _ _ = _ |- _ => rewrite H end.
    split; [done|]. apply Forall2_app.
    + eapply tasksOf_heapStep; [apply heapStep_snoc|done].
    + constructor; [|constructor]. eexists. split; [by apply list_lookup_middle|done].
  - intros Hp. split; [|done]. by eapply progress_done.
  - by intros [? ?].
Qed.

Lemma stepWorker_frame wid s s' :
  stepWorker d wid s = Some s' →
  sends s' = sends s ∧ heapStep (taskHeap s) (taskHeap s').
Proof.
  unfold stepWorker, wgDone, recordOutcome, processEvent. intros H.
  repeat (simplify_option_eq || case_match); simpl;
    (split; [done|]);
    first [apply heapStep_refl
          |apply (heapStep_setErr s)
          |apply (heapStep_setErr (set_roomserverInput _ s))].
Qed.

Lemma framesInv_step act s s' :
  framesInv d s → step d act s = Some s' → framesInv d s'.
Proof.
  intros Hinv Hstep. destruct act as [a|tid b|wid|id|dt]; simpl in Hstep.
  - simplify_eq. intros tid th [[? Hl]|[-> <-]]%lookup_snoc_Some; simpl; [|done].
    exact (Hinv _ _ Hl).
  - apply stepSend_frame in Hstep as (th & pc' & Hth & Hs' & Hheap & Hframe).
    intros tid' th'. rewrite Hs'.
    intros [[-> ->]|[Hne Hl]]%(lookup_moved _ _ _ _ _ _ Hth); simpl.
    + apply Hframe. exact (Hinv _ _ Hth).
    + eapply frameInv_heapStep; [done|]. exact (Hinv _ _ Hl).
  - apply stepWorker_frame in Hstep as [Hs Hheap].
    intros tid th. rewrite Hs. intros Hl.
    eapply frameInv_heapStep; [done|]. exact (Hinv _ _ Hl).
  - simplify_eq. done.
  - case_match; simplify_eq. done.
Qed.

Lemma reachable_framesInv s : reachable d s → framesInv d s.
Proof.
  induction 1; [|by eapply framesInv_step].
  intros tid th Hl. simpl in Hl. by rewrite lookup_nil in Hl.
Qed.

Lemma stepSend_tasks tid b s s' :
  stepSend d tid b s = Some s' →
  ∃ th pc',
    sends s !! tid = Some th ∧
    sends s' = alter (λ th, mkSend (args th) pc') tid (sends s) ∧
    roomserverInput s' = roomserverInput s ∧
    (∀ r, is_Some (inputWorkers s !! r) → is_Some (inputWorkers s' !! r)) ∧
    (∀ ch f pdus r, pc' = AtCAS ch f pdus r →
       is_Some (inputWorkers s' !! r)) ∧
    (taskHeap s' = taskHeap s ∨
     ∃ ch f pdu pdus e,
       pc th = AtPDU ch f (pdu :: pdus) ∧
       checkPDU d (Origin (ft f)) pdu = Enqueue e ∧
       taskHeap s' = taskHeap s ++
         [{| ctx := fctx f; t := ft f; event := e; wg := tid;
             err := None |}]).
Proof.
  unfold stepSend, LoadOrStore. intros H.
  repeat (simplify_option_eq || case_match);
    (eexists _, _; split; [done|]; split; [reflexivity|]);
    match goal with
    | H : pc _ = _ |- _ => rewrite H
    end; simpl; (split; [done|]);
    refine (conj _ (conj _ _));
    try done; try (by left);
    try (by intros r Hr; rewrite ?lookup_insert_is_Some'; eauto);
    try (by intros ???? [= <- <- <- <-]; rewrite lookup_insert_eq; eauto);
    try (by right; eauto 10).
Qed.

Lemma heapStep_alter heap task e :
  heapStep heap
    (alter (λ tk, {| ctx := ctx tk; t := t tk; event := event tk;
                     wg := wg tk; err := e |}) task heap).
Proof.
  intros task' tk H. rewrite list_lookup_alter.
  case_decide; subst; [rewrite H; simpl|]; eauto 10.
Qed.

Lemma heapStep_alter_back heap task e :
  heapStep
    (alter (λ tk, {| ctx := ctx tk; t := t tk; event := event tk;
                     wg := wg tk; err := e |}) task heap)
    heap.
Proof.
  intros task' tk. rewrite list_lookup_alter.
  case_decide; subst; [|eauto 10].
  destruct (heap !! task') as [tk0|]; simpl; [|done].
  intros [= <-]. simpl. eauto 10.
Qed.

Lemma stepWorker_tasks wid s s' :
  stepWorker d wid s = Some s' →
  sends s' = sends s ∧
  heapStep (taskHeap s) (taskHeap s') ∧
  heapStep (taskHeap s') (taskHeap s) ∧
  (∀ r, is_Some (inputWorkers s !! r) → is_Some (inputWorkers s' !! r)) ∧
  (roomserverInput s' = roomserverInput s ∨
   ∃ task tk, taskHeap s !! task = Some tk ∧
     roomserverInput s' =
       roomserverInput s ++ [(event tk, Origin (t tk))]).
Proof.
  unfold stepWorker, wgDone, recordOutcome, processEvent. intros H.
  repeat (simplify_option_eq || case_match); simpl;
    (split; [done|]);
    refine (conj _ (conj _ (conj _ _)));
    first [apply heapStep_refl | apply heapStep_alter
          | apply heapStep_alter_back
          | by intros r Hr; rewrite ?lookup_insert_is_Some'; eauto
          | by left
          | by right; eauto 10 ].
Qed.

Lemma tasksInv_step act s s' :
  framesInv d s → tasksInv d s → step d act s = Some s' → tasksInv d s'.
Proof.
  intros Hframes [Hmade Hsub Hknown] Hstep.
  destruct act as [a|tid b|wid|id|dt]; simpl in Hstep.
  - simplify_eq. constructor; simpl.
    + intros task tk Hl. destruct (Hmade _ _ Hl) as (Hc & th & pdu & Hw & ?).
      split; [done|]. exists th, pdu. split; [by apply lookup_app_l_Some|done].
    + done.
    + intros tid th ch f pdus r [[? Hl]|[-> <-]]%lookup_snoc_Some Hp; [eauto|done].
  - apply stepSend_tasks in Hstep
      as (th & pc' & Hth & Hs' & Hrs & Hmono & Hnew & Hheap).
    assert (∀ tid' th', sends s !! tid' = Some th' →
              ∃ th'', sends s' !! tid' = Some th'' ∧ args th'' = args th')
      as Hargs.
    { intros tid' th' Hl. rewrite Hs'. destruct (decide (tid' = tid)) as [->|].
      - simplify_eq. eexists. split; [by apply lookup_moved_eq|done].
      - exists th'. split; [by rewrite lookup_moved_ne|done]. }
    constructor.
    + intros task tk Hl.
      assert ((∃ tk0, taskHeap s !! task = Some tk0 ∧ tk = tk0) ∨
              (∃ ch f pdu pdus e,
                 pc th = AtPDU ch f (pdu :: pdus) ∧
                 checkPDU d (Origin (ft f)) pdu = Enqueue e ∧
                 tk = {| ctx := fctx f; t := ft f; event := e; wg := tid;
                         err := None |})) as [(tk0 & Hl0 & ->)|Hn].
      { destruct Hheap as [Heq|(ch & f & pdu & pdus & e & Hp & Hck & Heq)].
        - left. rewrite Heq in Hl. eauto.
        - rewrite Heq in Hl. apply lookup_snoc_Some in Hl as [[? Hl]|[-> <-]].
          + left. eauto.
          + right. eauto 10. }
      * destruct (Hmade _ _ Hl0) as (Hc & th0 & pdu & Hw & ?).
        split; [done|]. destruct (Hargs _ _ Hw) as (th'' & Hw' & Ha).
        exists th'', pdu. rewrite Ha. done.
      * destruct Hn as (ch & f & pdu & pdus & e & Hp & Hck & ->). simpl.
        pose proof (Hframes _ _ Hth) as Hf. rewrite Hp in Hf. simpl in Hf.
        destruct Hf as (Hd & Hc & examined & events & HP & _).
        split; [done|]. destruct (Hargs _ _ Hth) as (th'' & Hw' & Ha).
        exists th'', pdu. rewrite Ha. split; [done|]. split; [done|].
        split; [|done]. rewrite HP. apply elem_of_app. right. apply list_elem_of_here.
    + rewrite Hrs. intros e o Hin. destruct (Hsub _ _ Hin) as (task & tk & Hl & ?).
      exists task, tk. split; [|done].
      destruct Hheap as [->|(? & ? & ? & ? & ? & _ & _ & ->)]; [done|].
      by apply lookup_app_l_Some.
    + intros tid' th' ch f pdus r. rewrite Hs'.
      intros [[-> ->]|[Hne Hl]]%(lookup_moved _ _ _ _ _ _ Hth) Hp; simpl in Hp.
      * eauto.
      * apply Hmono. eauto.
  - apply stepWorker_tasks in Hstep as (Hs & Hfw & Hbw & Hmono & Hrs).
    constructor.
    + intros task tk Hl. destruct (Hbw _ _ Hl) as (tk0 & Hl0 & Hc & Ht & He & Hw).
      destruct (Hmade _ _ Hl0) as (Hc0 & th & pdu & Hw0 & ?).
      split; [congruence|]. exists th, pdu. rewrite Hs, <- Hw, <- Ht, <- He. done.
    + intros e o Hin.
      assert (∃ task tk, taskHeap s !! task = Some tk ∧ event tk = e ∧
                         Origin (t tk) = o) as (task & tk & Hl & He & Ho).
      { destruct Hrs as [Heq|(task & tk & Hl & Heq)]; rewrite Heq in Hin; [eauto|].
        apply elem_of_app in Hin as [Hin|Hin]; [eauto|].
        apply list_elem_of_singleton in Hin. simplify_eq. eauto. }
      destruct (Hfw _ _ Hl) as (tk' & Hl' & _ & Ht & He' & _).
      exists task, tk'. split; [done|]. split; congruence.
    + intros tid th ch f pdus r. rewrite Hs. eauto.
  - simplify_eq. by constructor.
  - case_match; simplify_eq. by constructor.
Qed.

Lemma reachable_tasksInv s : reachable d s → tasksInv d s.
Proof.
  induction 1 as [|s act s' Hr IH Hstep].
  - constructor; simpl; intros; simplify_eq; try set_solver.
  - eapply tasksInv_step; [|done..]. by apply reachable_framesInv.
Qed.

Lemma unsent_owns pc ch : unsent pc = Some ch → owns pc = Some ch.
Proof. by destruct pc. Qed.

Lemma stepSend_unsent tid b s s' :
  stepSend d tid b s = Some s' →
  ∃ th pc',
    sends s !! tid = Some th ∧
    sends s' = alter (λ th, mkSend (args th) pc') tid (sends s) ∧
    (∀ ch, unsent pc' = Some ch →
       pc th = AtLoadOrStore ∨ unsent (pc th) = Some ch).
Proof.
  unfold stepSend, LoadOrStore. intros H.
  repeat (simplify_option_eq || case_match);
    (eexists _, _; split; [done|]; split; [reflexivity|]);
    match goal with
    | H : pc _ = _ |- _ => rewrite H
    end; simpl; try (by auto); try (intros ? [= <-]; by auto).
Qed.

Lemma recv_buf c c' v :
  recv c = Some (c', v) → ∀ v', v' ∈ buf c' → v' ∈ buf c.
Proof.
  unfold recv. intros H v' Hin.
  destruct (buf c) as [|v0 rest] eqn:Hb.
  - destruct (closed c); simplify_eq. by rewrite Hb in Hin.
  - simplify_eq. simpl in Hin. by apply list_elem_of_further.
Qed.

Lemma recv_empty c c' v : recv c = Some (c', v) → buf c = [] → buf c' = [].
Proof.
  unfold recv. intros H Hb. rewrite Hb in H.
  repeat (case_match || simplify_eq); done.
Qed.

Lemma chanSend_buf c c' v : chanSend c v = Some c' → buf c' = buf c ++ [v].
Proof.
  unfold chanSend. intros H. repeat (case_match || simplify_eq); done.
Qed.

Lemma chansInv_intro s s' tid th pc' :
  registryInv s → framesInv d s → chansInv d s →
  sends s !! tid = Some th →
  sends s' = alter (λ th, mkSend (args th) pc') tid (sends s) →
  (∀ ch c', chans s' !! ch = Some c' →
     buf c' = [] ∨
     (∃ c, chans s !! ch = Some c ∧ maker c' = maker c ∧
           (∀ v, v ∈ buf c' → v ∈ buf c) ∧ (buf c = [] → buf c' = [])) ∨
     (∃ c res, pc th = AtChanSend ch res ∧ chans s !! ch = Some c ∧
               maker c' = maker c ∧ buf c' = buf c ++ [res])) →
  (∀ ch c', unsent pc' = Some ch → chans s' !! ch = Some c' → buf c' = []) →
  chansInv d s'.
Proof.
  intros [Hown _ _ _] Hframes [Hbuf Hempty] Hth Hs' Hcs Hmover.
  assert (∀ tid' th', sends s !! tid' = Some th' →
            ∃ th'', sends s' !! tid' = Some th'' ∧ args th'' = args th')
    as Hargs.
  { intros tid' th' Hl. rewrite Hs'. destruct (decide (tid' = tid)) as [->|].
    - simplify_eq. eexists. split; [by apply lookup_moved_eq|done].
    - exists th'. split; [by rewrite lookup_moved_ne|done]. }
  constructor.
  - intros ch c' v Hc' Hv.
    destruct (Hcs _ _ Hc') as [Hb|[(c & Hc & Hmk & Hsub & _)
                                  |(c & res & Hp & Hc & Hmk & Hb)]].
    + rewrite Hb in Hv. by apply elem_of_nil in Hv.
    + destruct (Hbuf _ _ _ Hc (Hsub _ Hv)) as (th1 & Hm & ? & ?).
      destruct (Hargs _ _ Hm) as (th2 & ? & Ha). exists th2.
      rewrite Hmk, Ha. done.
    + assert (unsent (pc th) = Some ch) as Hu by (by rewrite Hp).
      rewrite Hb, (Hempty _ _ _ _ Hth Hu Hc) in Hv. simpl in Hv.
      apply list_elem_of_singleton in Hv as ->.
      destruct (Hown _ _ _ Hth (unsent_owns _ _ Hu)) as (c0 & Hc0 & Hmk0 & _).
      simplify_eq. pose proof (Hframes _ _ Hth) as Hf. rewrite Hp in Hf.
      destruct Hf as [? ?].
      destruct (Hargs _ _ Hth) as (th2 & ? & Ha). exists th2.
      rewrite Hmk, Ha. done.
  - intros tid' th' ch c'. rewrite Hs'.
    intros [[-> ->]|[Hne Hl]]%(lookup_moved _ _ _ _ _ _ Hth) Hu Hc';
      simpl in Hu; [by eapply Hmover|].
    destruct (Hcs _ _ Hc') as [Hb|[(c & Hc & Hmk & _ & He)
                                  |(c & res & Hp & Hc & Hmk & Hb)]].
    + done.
    + apply He. by eapply Hempty.
    + assert (owns (pc th) = Some ch) as Ho by (by rewrite Hp).
      destruct (Hown _ _ _ Hth Ho) as (c0 & Hc0 & Hmk0 & _).
      destruct (Hown _ _ _ Hl (unsent_owns _ _ Hu)) as (c1 & Hc1 & Hmk1 & _).
      congruence.
Qed.

Lemma chansInv_step act s s' :
  registryInv s → framesInv d s → chansInv d s →
  step d act s = Some s' → chansInv d s'.
Proof.
  intros Hreg Hframes Hinv Hstep. pose proof Hinv as [Hbuf Hempty].
  destruct act as [a|tid b|wid|id|dt]; simpl in Hstep.
  - simplify_eq. constructor; simpl.
    + intros ch c v Hc Hv. destruct (Hbuf _ _ _ Hc Hv) as (th & Hm & ?).
      exists th. split; [by apply lookup_app_l_Some|done].
    + intros tid th ch c [[? Hl]|[-> <-]]%lookup_snoc_Some Hu; [eauto|done].
  - pose proof (stepSend_unsent _ _ _ _ Hstep) as (th0 & pc0 & Hth0 & Hs0 & Hun).
    apply stepSend_registry in Hstep as (th & pc' & Hth & Hs' & Hmove).
    simplify_eq.
    assert (pc0 = pc') as ->.
    { assert (alter (λ th, mkSend (args th) pc0) tid (sends s) !! tid =
              alter (λ th, mkSend (args th) pc') tid (sends s) !! tid) as Heq
        by congruence.
      rewrite !list_lookup_alter_eq, Hth in Heq. simpl in Heq. congruence. }
    clear Hs0.
    assert (∀ ch c, chans s !! ch = Some c →
      ∃ c0, chans s !! ch = Some c0 ∧ maker c = maker c0 ∧
            (∀ v, v ∈ buf c → v ∈ buf c0) ∧ (buf c0 = [] → buf c = []))
      as Hsame by eauto 10.
    apply (chansInv_intro s s' tid th pc' Hreg Hframes Hinv Hth Hs');
    inversion Hmove as
    [Hnone Hpc Hpc' Hm' Hcs'
    |ch ctx Hsome Hpc Hpc' Hm' Hcs'
    |ch ctx res Hpc Hpc' Hm' Hcs'
    |ch ctx c c' v res Hc Hrecv Hpc Hpc' Hm' Hcs'
    |pc1 pc1' ch Hh Hh' Hpc Hpc' Hm' Hcs'
    |ch res c c' Hc Hsend Hpc Hpc' Hm' Hcs'
    |ch res Hpc Hpc' Hm' Hcs'
    |ch res c c' Hc Hclose Hpc Hpc' Hm' Hcs']; subst pc';
    rewrite <- ?Hcs'; try done; try (by auto).
    + intros ch1 c1 [[? Hl]|[-> <-]]%lookup_snoc_Some; [right; left; eauto|by left].
    + intros ch1 c1 [[? Hl]|[-> <-]]%lookup_snoc_Some; [right; left; eauto|by left].
    + intros ch1 c1. rewrite list_lookup_insert. case_decide as Hd.
      * destruct Hd as [-> _]. intros [= <-]. right; left.
        destruct (recv_keeps _ _ _ Hrecv) as [? _].
        exists c. split; [done|]. split; [done|].
        split; [by eapply recv_buf|by eapply recv_empty].
      * intros Hl. right; left. eauto.
    + intros ch1 c1. rewrite list_lookup_insert. case_decide as Hd.
      * destruct Hd as [-> _]. intros [= <-]. right; right.
        destruct (chanSend_keeps _ _ _ Hsend) as (? & _).
        exists c, res. split; [done|]. split; [done|]. split; [done|].
        by eapply chanSend_buf.
      * intros Hl. right; left. eauto.
    + intros ch1 c1. rewrite list_lookup_insert. case_decide as Hd.
      * destruct Hd as [-> _]. intros [= <-]. right; left.
        destruct (chanClose_keeps _ _ Hclose) as (? & Hb & _).
        exists c. rewrite Hb. done.
      * intros Hl. right; left. eauto.
    + intros ch1 c1 [= <-]. rewrite list_lookup_middle; [|done].
      by intros [= <-].
    + intros ch1 c1 Hu Hc1. destruct (Hun _ Hu) as [Hp|Hu']; [|by eapply Hempty].
      subst pc1. rewrite Hp in Hh. done.
  - apply stepWorker_registry in Hstep as (Hs & Hc & _ & _).
    constructor; rewrite ?Hs, ?Hc; done.
  - simplify_eq. by constructor.
  - case_match; simplify_eq. by constructor.
Qed.

Lemma reachable_chansInv s : reachable d s → chansInv d s.
Proof.
  induction 1 as [|s act s' Hr IH Hstep].
  - constructor; simpl; intros; simplify_eq.
  - eapply chansInv_step; [| |done..].
    + by eapply reachable_registryInv.
    + by eapply reachable_framesInv.
Qed.

Lemma checkPDU_Abort origin pdu res :
  checkPDU d origin pdu = Abort res → res = badPDUResponse.
Proof.
  unfold checkPDU. intros H. repeat (case_match || simplify_eq); done.
Qed.

Lemma checkPDU_bad origin pdu roomID roomVersion msg :
  unmarshalHeader d pdu = Some roomID →
  QueryRoomVersionForRoom d roomID = Some roomVersion →
  NewEventFromUntrustedJSON d pdu roomVersion = inl (BadJSONError msg) →
  checkPDU d origin pdu = Abort badPDUResponse.
Proof. intros Hh Hv Hp. unfold checkPDU. by rewrite Hh, Hv, Hp. Qed.

Lemma examine_inl origin pdus results events res :
  examine d origin pdus results events = inl res → res = badPDUResponse.
Proof.
  revert results events. induction pdus as [|pdu pdus IH]; simpl; [done|].
  intros results events. destruct (checkPDU d origin pdu) eqn:Hc; eauto.
  intros [= <-]. by eapply checkPDU_Abort.
Qed.

Lemma examine_bad origin pdus pdu results events :
  pdu ∈ pdus → checkPDU d origin pdu = Abort badPDUResponse →
  examine d origin pdus results events = inl badPDUResponse.
Proof.
  intros Hin Hbad. revert results events.
  induction pdus as [|pdu' pdus IH]; intros results events;
    [by apply elem_of_nil in Hin|].
  simpl. apply elem_of_cons in Hin as [<-|Hin]; [by rewrite Hbad|].
  destruct (checkPDU d origin pdu') eqn:Hc; auto.
  by rewrite (checkPDU_Abort _ _ _ Hc).
Qed.

Lemma decodeTransaction_inr a pdus edus :
  unmarshalTxn d (requestContent a) = inr (pdus, edus) →
  tooLarge pdus edus = false →
  decodeTransaction d a =
  inr {| PDUs := pdus; EDUs := edus; Origin := requestOrigin a;
         TransactionID := txnID a; Destination := serverName a |}.
Proof. intros Hu Hl. unfold decodeTransaction. by rewrite Hu, Hl. Qed.

Lemma tooLarge_spec pdus edus :
  tooLarge pdus edus = true ↔ 50 < length pdus ∨ 100 < length edus.
Proof.
  unfold tooLarge. rewrite orb_true_iff, !Nat.ltb_lt. done.
Qed.

(** Unfold one step of an invocation at a known program point. *)
Ltac at_pc Hth Hpc :=
  unfold stepSend; rewrite Hth; simpl; rewrite Hpc; simpl.

Lemma lookup_goto tid pc' s th :
  sends s !! tid = Some th →
  sends (goto tid pc' s) !! tid = Some (mkSend (args th) pc').
Proof. intros Hth. simpl. by apply lookup_moved_eq. Qed.

(** C4.  A transaction with more than 50 PDUs or more than 100 EDUs is
    answered with 400, errcode [M_BAD_JSON] and error [max 50 pdus / 100
    edus], and with nothing else is that response given; 51 PDUs or 101
    EDUs are refused, exactly 50 PDUs with exactly 100 EDUs are let
    through; and the check is made right after the body is decoded,
    before any PDU is looked at. *)
Theorem transaction_size_limit (a : SendArgs) (pdus : list string)
    (edus : list EDU) :
  unmarshalTxn d (requestContent a) = inr (pdus, edus) →
  (decodeTransaction d a = inl tooLargeResponse ↔
     50 < length pdus ∨ 100 < length edus) ∧
  (leaderResponse d a = tooLargeResponse ↔
     50 < length pdus ∨ 100 < length edus) ∧
  (length pdus = 51 ∨ length edus = 101 →
     leaderResponse d a = tooLargeResponse) ∧
  (length pdus = 50 → length edus = 100 →
     decodeTransaction d a =
     inr {| PDUs := pdus; EDUs := edus; Origin := requestOrigin a;
            TransactionID := txnID a; Destination := serverName a |}) ∧
  (∀ s tid b th ch,
     sends s !! tid = Some th → args th = a → pc th = AtUnmarshal ch →
     stepSend d tid b s =
     Some (goto tid
       (if bool_decide (50 < length pdus ∨ 100 < length edus)
        then AtDeferredDelete ch tooLargeResponse
        else AtPDU ch {| fctx := Background;
                         ft := {| PDUs := pdus; EDUs := edus;
                                  Origin := requestOrigin a;
                                  TransactionID := txnID a;
                                  Destination := serverName a |};
                         results := ∅; ftasks := [] |} pdus) s)).
Proof.
  intros Hu.
  assert (decodeTransaction d a = inl tooLargeResponse ↔
          50 < length pdus ∨ 100 < length edus) as Hdec.
  { rewrite <- tooLarge_spec. unfold decodeTransaction. rewrite Hu.
    destruct (tooLarge pdus edus); split; done. }
  assert (leaderResponse d a = tooLargeResponse ↔
          50 < length pdus ∨ 100 < length edus) as Hres.
  { rewrite <- Hdec. unfold leaderResponse.
    destruct (decodeTransaction d a) as [res|tx] eqn:Hd.
    - split; congruence.
    - split; [|done]. destruct (examine _ _ _ _ _) as [res|[results events]] eqn:He.
      + apply examine_inl in He. subst res. done.
      + done. }
  split; [done|]. split; [done|]. split; [|split].
  - intros Hlen. apply Hres. lia.
  - intros Hp He. apply decodeTransaction_inr; [done|].
    apply not_true_is_false. rewrite tooLarge_spec. lia.
  - intros s tid b th ch Hth <- Hpc.
    at_pc Hth Hpc. case_bool_decide as Hl.
    + apply Hdec in Hl. by rewrite Hl.
    + rewrite (decodeTransaction_inr _ pdus edus Hu); [done|].
      apply not_true_is_false. by rewrite tooLarge_spec.
Qed.

Lemma run_app acts1 acts2 s :
  run d (acts1 ++ acts2) s = s' ← run d acts1 s; run d acts2 s'.
Proof.
  revert s. induction acts1 as [|act acts1 IH]; intros s; simpl; [done|].
  destruct (step d act s); simpl; [apply IH|done].
Qed.

Lemma run_reachable acts s s' :
  reachable d s → run d acts s = Some s' → reachable d s'.
Proof.
  revert s. induction acts as [|act acts IH]; intros s Hr; simpl.
  - by intros [= <-].
  - destruct (step d act s) as [s1|] eqn:Hs; simpl; [|done].
    apply IH. by eapply reachable_step.
Qed.

Lemma solo_S tid n s :
  run d (solo tid (S n)) s = s' ← stepSend d tid false s; run d (solo tid n) s'.
Proof. done. Qed.

Lemma solo_step tid n s s1 :
  stepSend d tid false s = Some s1 →
  run d (solo tid (S n)) s = run d (solo tid n) s1.
Proof. intros H. by rewrite solo_S, H. Qed.

Lemma solo_add tid n m s :
  run d (solo tid (n + m)) s =
  s' ← run d (solo tid n) s; run d (solo tid m) s'.
Proof. unfold solo. by rewrite replicate_add, run_app. Qed.

(** From its deferred [Delete] a leader returns in two steps. *)
Lemma deferred_returns s tid th ch res :
  reachable d s → sends s !! tid = Some th →
  pc th = AtDeferredDelete ch res →
  ∃ s', run d (solo tid 2) s = Some s' ∧
        sends s' !! tid = Some (mkSend (args th) (Returned res)) ∧
        untouched s s'.
Proof.
  intros Hr Hth Hpc.
  destruct (own_chan _ (reachable_registryInv _ Hr) _ _ ch Hth)
    as (c & Hc & Hmk & Hcl); [by rewrite Hpc|].
  assert (stepSend d tid false s =
          Some (goto tid (AtDeferredClose ch res)
                  (set_inFlight
                     (delete (index (args th)) (inFlightTxnsPerOrigin s)) s)))
    as Hs1 by (by at_pc Hth Hpc).
  eexists. split.
  - rewrite solo_S, Hs1. simpl.
    unfold stepSend. simpl. rewrite (lookup_moved_eq _ _ _ _ Hth). simpl.
    rewrite Hc. simpl. unfold chanClose. rewrite Hcl. simpl. done.
  - split; [|by repeat split].
    simpl. rewrite list_lookup_alter_eq, (lookup_moved_eq _ _ _ _ Hth). done.
Qed.

(** A leader in the loop gets to the first PDU that is not canonical JSON
    on its own, and returns the rejection from there. *)
Lemma loop_aborts pdus : ∀ s tid th ch f,
  reachable d s → sends s !! tid = Some th →
  pc th = AtPDU ch f pdus →
  (∃ pdu, pdu ∈ pdus ∧ checkPDU d (Origin (ft f)) pdu = Abort badPDUResponse) →
  ∃ n s', n ≤ 2 * length pdus + 1 ∧
          run d (solo tid n) s = Some s' ∧
          sends s' !! tid = Some (mkSend (args th) (Returned badPDUResponse)).
Proof.
  induction pdus as [|pdu pdus IH]; intros s tid th ch f Hr Hth Hpc (bad & Hin & Hbad);
    [by apply elem_of_nil in Hin|].
  assert (∃ s1, stepSend d tid false s = Some s1) as [s1 Hs1].
  { at_pc Hth Hpc. unfold LoadOrStore.
    repeat case_match; simplify_eq; eauto. }
  assert (reachable d s1) as Hr1
    by (by apply (reachable_step d s (StepSend tid false))).
  pose proof Hs1 as Hs1'. revert Hs1'. at_pc Hth Hpc.
  destruct (checkPDU d (Origin (ft f)) pdu) as [|res|eventID result|e] eqn:Hck.
  - (* Skip *)
    intros [= <-].
    destruct (IH _ tid (mkSend (args th) (AtPDU ch f pdus)) ch f Hr1)
      as (n & s' & Hn & Hrun & Hs'); [by apply lookup_moved_eq|done|..].
    { apply elem_of_cons in Hin as [->|Hin]; [congruence|eauto]. }
    exists (S n), s'. split; [simpl; lia|]. by rewrite (solo_step _ _ _ _ Hs1).
  - (* Abort *)
    intros [= <-]. apply checkPDU_Abort in Hck as ->.
    destruct (deferred_returns _ tid
                (mkSend (args th) (AtDeferredDelete ch badPDUResponse))
                ch badPDUResponse Hr1)
      as (s' & Hrun & Hs' & _); [by apply lookup_moved_eq|done|].
    exists 3, s'. split; [simpl; lia|].
    by rewrite (solo_step _ _ _ _ Hs1).
  - (* Result *)
    intros [= <-].
    match type of Hr1 with
    | reachable _ (goto _ (AtPDU _ ?f' _) _) =>
        destruct (IH _ tid (mkSend (args th) (AtPDU ch f' pdus)) ch f' Hr1)
          as (n & s' & Hn & Hrun & Hs'); [by apply lookup_moved_eq|done|..]
    end.
    { apply elem_of_cons in Hin as [->|Hin]; [congruence|]. simpl. eauto. }
    exists (S n), s'. split; [simpl; lia|]. by rewrite (solo_step _ _ _ _ Hs1).
  - (* Enqueue *)
    intros Heq.
    assert (∃ f', sends s1 !! tid =
              Some (mkSend (args th) (AtCAS ch f' pdus (RoomID (unwrap e)))) ∧
              ft f' = ft f) as (f' & Hth1 & Hft).
    { unfold LoadOrStore in Heq. repeat case_match; simplify_eq; simpl;
        (eexists; split; [by apply lookup_moved_eq|done]). }
    destruct (worker_known _ _ (reachable_tasksInv _ Hr1) _ _ _ _ _ _ Hth1 eq_refl)
      as [w Hw].
    assert (∃ s2, stepSend d tid false s1 = Some s2 ∧
              sends s2 !! tid = Some (mkSend (args th) (AtPDU ch f' pdus)))
      as (s2 & Hs2 & Hth2).
    { unfold stepSend. rewrite Hth1. simpl. rewrite Hw. simpl.
      destruct (running w); (eexists; split; [done|]); simpl;
        rewrite list_lookup_alter_eq, Hth1; done. }
    assert (reachable d s2) as Hr2
      by (by apply (reachable_step d s1 (StepSend tid false))).
    destruct (IH _ tid _ ch f' Hr2 Hth2 eq_refl)
      as (n & s' & Hn & Hrun & Hs').
    { apply elem_of_cons in Hin as [->|Hin]; [congruence|]. rewrite Hft. eauto. }
    exists (S (S n)), s'. split; [simpl; lia|].
    by rewrite (solo_step _ _ _ _ Hs1), (solo_step _ _ _ _ Hs2).
Qed.

(** What a leader returns is what [leaderResponse] says. *)
Lemma leader_response s tid th ch res :
  reachable d s → sends s !! tid = Some th →
  pc th = AtDeferredDelete ch res ∨ pc th = AtDeferredClose ch res →
  res = leaderResponse d (args th).
Proof.
  intros Hr Hth Hpc. pose proof (reachable_framesInv _ Hr _ _ Hth) as Hf.
  by destruct Hpc as [Hpc|Hpc]; rewrite Hpc in Hf.
Qed.

(** C1.  If some PDU of a transaction has a readable header, a known room
    version and fails to parse with a bad-JSON error, whatever that room
    version is, then the turn of the loop for it ends in the return of the
    400 response with errcode [M_BAD_JSON] and error [PDU contains bad
    JSON]; that response is what [Send] answers for the transaction; a
    leader that has decoded the transaction gets there on its own, without
    waiting for anything, and no leader for that request returns anything
    else. *)
Theorem bad_JSON_aborts_transaction (a : SendArgs) (pdus : list string)
    (edus : list EDU) (pdu roomID roomVersion msg : string) :
  unmarshalTxn d (requestContent a) = inr (pdus, edus) →
  tooLarge pdus edus = false →
  pdu ∈ pdus →
  unmarshalHeader d pdu = Some roomID →
  QueryRoomVersionForRoom d roomID = Some roomVersion →
  NewEventFromUntrustedJSON d pdu roomVersion = inl (BadJSONError msg) →
  (∀ origin,
     checkPDU d origin pdu =
     Abort {| Code := 400;
              JSON := JSONError {| ErrCode := "M_BAD_JSON";
                                   Err := "PDU contains bad JSON" |} |}) ∧
  leaderResponse d a = badPDUResponse ∧
  (∀ s tid th ch,
     reachable d s → sends s !! tid = Some th → args th = a →
     pc th = AtUnmarshal ch →
     ∃ n s', n ≤ 2 * length pdus + 2 ∧
             run d (solo tid n) s = Some s' ∧
             sends s' !! tid = Some (mkSend a (Returned badPDUResponse))) ∧
  (∀ s tid th ch res,
     reachable d s → sends s !! tid = Some th → args th = a →
     pc th = AtDeferredDelete ch res ∨ pc th = AtDeferredClose ch res →
     res = badPDUResponse).
Proof.
  intros Hu Hl Hin Hh Hv Hp.
  assert (∀ origin, checkPDU d origin pdu = Abort badPDUResponse) as Hbad
    by (intros; by eapply checkPDU_bad).
  assert (leaderResponse d a = badPDUResponse) as Hres.
  { unfold leaderResponse. rewrite (decodeTransaction_inr _ _ _ Hu Hl). simpl.
    by rewrite (examine_bad _ _ pdu). }
  split; [done|]. split; [done|]. split.
  - intros s tid th ch Hr Hth <- Hpc.
    assert (stepSend d tid false s =
            Some (goto tid
              (AtPDU ch {| fctx := Background;
                           ft := {| PDUs := pdus; EDUs := edus;
                                    Origin := requestOrigin (args th);
                                    TransactionID := txnID (args th);
                                    Destination := serverName (args th) |};
                           results := ∅; ftasks := [] |} pdus) s)) as Hs1.
    { at_pc Hth Hpc. by rewrite (decodeTransaction_inr _ _ _ Hu Hl). }
    assert (reachable d (goto tid
              (AtPDU ch {| fctx := Background;
                           ft := {| PDUs := pdus; EDUs := edus;
                                    Origin := requestOrigin (args th);
                                    TransactionID := txnID (args th);
                                    Destination := serverName (args th) |};
                           results := ∅; ftasks := [] |} pdus) s)) as Hr1
      by (by apply (reachable_step d s (StepSend tid false))).
    destruct (loop_aborts pdus _ tid _ ch _ Hr1 (lookup_moved_eq _ _ _ _ Hth)
                eq_refl) as (n & s' & Hn & Hrun & Hs'); [by eauto|].
    exists (S n), s'. split; [lia|]. by rewrite (solo_step _ _ _ _ Hs1).
  - intros s tid th ch res Hr Hth <- Hpc. rewrite <- Hres.
    by eapply leader_response.
Qed.

Lemma ctxDone_WithTimeout w parent deadline :
  ctxDone w (WithTimeout parent deadline) = true ↔
  ctxDone w parent = true ∨ (deadline ≤ now w)%Z.
Proof. simpl. rewrite orb_true_iff, Z.leb_le. done. Qed.

Lemma idle_refl s : idle s s.
Proof. by repeat split. Qed.

(** C2.  An invocation that finds its index in the registry takes the
    channel stored there and waits on it under a timeout of five minutes
    from now on top of its own request context.  When that context is done
    it may return 408, and only then; a value received with a code other
    than 0 is returned as it is; a value with code 0, which is what a
    closed and empty channel gives, is turned into 202; on an open and
    empty channel it waits.  None of its steps touches the registry, the
    workers, the tasks, the wait groups or the roomserver, and it takes no
    step after it has returned. *)
Theorem follower_contract (s : State) (tid : nat) (th : SendThread)
    (ch : nat) :
  sends s !! tid = Some th →
  pc th = AtLoadOrStore →
  inFlightTxnsPerOrigin s !! index (args th) = Some ch →
  let ctx := WithTimeout (httpReqContext (args th))
               (now (world s) + Minute * 5) in
  (∃ s1, (∀ b, stepSend d tid b s = Some s1) ∧ idle s s1 ∧
         sends s1 !! tid = Some (mkSend (args th) (AtSelect ch ctx))) ∧
  (∀ w, ctxDone w ctx = true ↔
        ctxDone w (httpReqContext (args th)) = true ∨
        (now (world s) + 5 * Minute ≤ now w)%Z) ∧
  (∀ s2 th2,
     sends s2 !! tid = Some th2 → pc th2 = AtSelect ch ctx →
     stepSend d tid true s2 =
       (if ctxDone (world s2) ctx
        then Some (goto tid
               (Returned {| Code := 408; JSON := JSONNil |}) s2)
        else None) ∧
     (∀ c v rest,
        chans s2 !! ch = Some c → buf c = v :: rest → Code v ≠ 0%Z →
        stepSend d tid false s2 =
        Some (goto tid (Returned v)
                (set_chans (<[ch := {| buf := rest; closed := closed c;
                                       maker := maker c |}]> (chans s2))
                   s2))) ∧
     (∀ c,
        chans s2 !! ch = Some c → buf c = [] →
        stepSend d tid false s2 =
        (if closed c
         then Some (goto tid
                (Returned {| Code := 202; JSON := JSONNil |})
                (set_chans (<[ch := c]> (chans s2)) s2))
         else None)) ∧
     (∀ b s3, stepSend d tid b s2 = Some s3 →
        idle s2 s3 ∧
        ∃ res, sends s3 !! tid = Some (mkSend (args th2) (Returned res)))) ∧
  (∀ s3 th3 res b,
     sends s3 !! tid = Some th3 → pc th3 = Returned res →
     stepSend d tid b s3 = None).
Proof.
  intros Hth Hpc Hreg ctx. split; [|split; [|split]].
  - eexists. split; [|split].
    + intros b. at_pc Hth Hpc. unfold LoadOrStore. rewrite Hreg. simpl.
      reflexivity.
    + by repeat split.
    + simpl. by apply lookup_moved_eq.
  - intros w. subst ctx. rewrite ctxDone_WithTimeout.
    by rewrite (Z.mul_comm Minute 5).
  - intros s2 th2 Hth2 Hpc2. split; [|split; [|split]].
    + at_pc Hth2 Hpc2. by destruct (ctxDone (world s2) (httpReqContext (args th))
                                   || (now (world s) + Minute * 5 <=? now (world s2))%Z).
    + intros c v rest Hc Hb Hv. at_pc Hth2 Hpc2. rewrite Hc. simpl.
      unfold recv. rewrite Hb. simpl.
      by apply Z.eqb_neq in Hv as ->.
    + intros c Hc Hb. at_pc Hth2 Hpc2. rewrite Hc. simpl.
      unfold recv. rewrite Hb. by destruct (closed c).
    + intros b s3. at_pc Hth2 Hpc2. intros Hs3.
      destruct b.
      * case_match; simplify_eq. split; [by repeat split|].
        eexists. simpl. by apply lookup_moved_eq.
      * destruct (chans s2 !! ch) as [c|]; simpl in Hs3; [|done].
        destruct (recv c) as [[c' v]|]; simpl in Hs3; [|done].
        case_match; simplify_eq; (split; [by repeat split|]);
          eexists; simpl; by apply lookup_moved_eq.
  - intros s3 th3 res b Hth3 Hpc3. by at_pc Hth3 Hpc3.
Qed.


(** C7, as amended.  A leader finishes in this order: the response, when
    there is one, is sent on the channel, which never blocks; then the
    deferred [Delete] removes the entry from the registry while the
    channel is still open; then the deferred [close] closes the channel,
    and the invocation returns.  There is no other way to the [close]
    than through the [Delete], and no other way for a leader to return
    than through the [close]. *)
Theorem leader_deletes_then_closes (s : State) (tid : nat)
    (th : SendThread) (ch : nat) (res : Response) :
  reachable d s → sends s !! tid = Some th →
  (pc th = AtChanSend ch res →
     ∃ c, chans s !! ch = Some c ∧ buf c = [] ∧ closed c = false ∧
          inFlightTxnsPerOrigin s !! index (args th) = Some ch ∧
          ∀ b, stepSend d tid b s =
               Some (goto tid (AtDeferredDelete ch res)
                 (set_chans
                    (<[ch := {| buf := [res]; closed := false;
                                maker := maker c |}]> (chans s)) s))) ∧
  (pc th = AtDeferredDelete ch res →
     ∃ c s', chans s !! ch = Some c ∧ closed c = false ∧
             inFlightTxnsPerOrigin s !! index (args th) = Some ch ∧
             (∀ b, stepSend d tid b s = Some s') ∧
             inFlightTxnsPerOrigin s' !! index (args th) = None ∧
             chans s' = chans s ∧
             sends s' !! tid =
               Some (mkSend (args th) (AtDeferredClose ch res))) ∧
  (pc th = AtDeferredClose ch res →
     ∃ c s', chans s !! ch = Some c ∧ closed c = false ∧
             inFlightTxnsPerOrigin s !! index (args th) ≠ Some ch ∧
             (∀ b, stepSend d tid b s = Some s') ∧
             chans s' !! ch = Some {| buf := buf c; closed := true;
                                      maker := maker c |} ∧
             inFlightTxnsPerOrigin s' = inFlightTxnsPerOrigin s ∧
             sends s' !! tid = Some (mkSend (args th) (Returned res))) ∧
  (∀ b s' th',
     stepSend d tid b s = Some s' → sends s' !! tid = Some th' →
     (pc th' = AtDeferredClose ch res → pc th = AtDeferredDelete ch res) ∧
     (pc th' = Returned res → is_Some (owns (pc th)) →
      ∃ ch', pc th = AtDeferredClose ch' res)).
Proof.
  intros Hr Hth.
  pose proof (reachable_registryInv _ Hr) as [Hown Hhold Hheld Hfol].
  pose proof (reachable_chansInv _ Hr) as [_ Hempty].
  split; [|split; [|split]].
  - intros Hpc.
    destruct (Hown _ _ ch Hth) as (c & Hc & Hmk & Hcl); [by rewrite Hpc|].
    exists c. split; [done|].
    assert (buf c = []) as Hb by (eapply Hempty; [done| |done]; by rewrite Hpc).
    split; [done|]. split; [done|].
    split; [apply (Hhold _ _ _ Hth); by rewrite Hpc|].
    intros b. at_pc Hth Hpc. rewrite Hc. simpl.
    unfold chanSend. rewrite Hcl, Hb. simpl. done.
  - intros Hpc.
    destruct (Hown _ _ ch Hth) as (c & Hc & Hmk & Hcl); [by rewrite Hpc|].
    eexists c, _. split; [done|]. split; [done|].
    split; [apply (Hhold _ _ _ Hth); by rewrite Hpc|].
    split; [intros b; at_pc Hth Hpc; reflexivity|]. simpl.
    split; [by rewrite lookup_delete_eq|]. split; [done|].
    by apply lookup_moved_eq.
  - intros Hpc.
    destruct (Hown _ _ ch Hth) as (c & Hc & Hmk & Hcl); [by rewrite Hpc|].
    eexists c, _. split; [done|]. split; [done|]. split.
    { intros He. destruct (Hheld _ _ He) as (tid' & th' & Hl & Hi & Hh).
      destruct (Hown _ _ _ Hl (holds_owns _ _ Hh)) as (c' & Hc' & Hmk' & _).
      assert (tid' = tid) as -> by congruence. simplify_eq.
      by rewrite Hpc in Hh. }
    split.
    { intros b. at_pc Hth Hpc. rewrite Hc. simpl. unfold chanClose.
      rewrite Hcl. simpl. reflexivity. }
    simpl. split; [|split; [done|by apply lookup_moved_eq]].
    apply list_lookup_insert_eq. by eapply lookup_lt_Some.
  - intros b s' th' Hstep Hth'.
    apply stepSend_registry in Hstep as (th0 & pc' & Hth0 & Hs' & Hmove).
    simplify_eq. rewrite Hs', (lookup_moved_eq _ _ _ _ Hth) in Hth'.
    simplify_eq. simpl.
    split.
    + intros ->. inversion Hmove; simplify_eq; done.
    + intros -> [ch' Ho]. inversion Hmove; simplify_eq; try done.
      * by match goal with H : AtSelect _ _ = pc th |- _ => rewrite <- H in Ho end.
      * by match goal with H : AtSelect _ _ = pc th |- _ => rewrite <- H in Ho end.
      * eauto.
Qed.

Lemma ctxDone_Background w : ctxDone w Background = false.
Proof. done. Qed.


(** The loop over the PDUs when no PDU aborts it. *)
Lemma examine_inr origin pdus results events :
  (∀ p res, p ∈ pdus → checkPDU d origin p ≠ Abort res) →
  ∃ results' events',
    examine d origin pdus results events = inr (results', events').
Proof.
  revert results events. induction pdus as [|pdu pdus IH];
    intros results events Hok; simpl; [eauto|].
  assert (∀ p res, p ∈ pdus → checkPDU d origin p ≠ Abort res) as Hok'
    by (intros p res Hin; apply Hok; by apply list_elem_of_further).
  destruct (checkPDU d origin pdu) eqn:Hck; eauto.
  destruct (Hok pdu res); [apply list_elem_of_here|done].
Qed.

(** The PDUs that do not bear an event ID leave its result and its tasks
    alone. *)
Lemma examine_other origin eventID pdus results events results' events' :
  examine d origin pdus results events = inr (results', events') →
  (∀ p, p ∈ pdus → outcomeID (checkPDU d origin p) ≠ Some eventID) →
  results' !! eventID = results !! eventID ∧
  (∀ e, e ∈ events' → EventID (unwrap e) = eventID → e ∈ events).
Proof.
  revert results events. induction pdus as [|pdu pdus IH];
    intros results events; simpl.
  - intros [= <- <-] _. done.
  - intros He Hother.
    assert (∀ p, p ∈ pdus → outcomeID (checkPDU d origin p) ≠ Some eventID)
      as Hother' by (intros p Hin; apply Hother; by apply list_elem_of_further).
    pose proof (Hother pdu (list_elem_of_here _ _)) as Hpdu.
    destruct (checkPDU d origin pdu) as [|res|id result|e0] eqn:Hck;
      simpl in Hpdu; [by eauto|done|..].
    + destruct (IH _ _ He Hother') as [Hr Hev]. split; [|done].
      rewrite Hr. apply lookup_insert_ne. congruence.
    + destruct (IH _ _ He Hother') as [Hr Hev]. split; [done|].
      intros e Hin Hid.
      pose proof (Hev _ Hin Hid) as [Hin'|Hin']%elem_of_app; [done|].
      apply list_elem_of_singleton in Hin' as ->. congruence.
Qed.

Lemma settle_other eventID events results :
  (∀ e, e ∈ events → EventID (unwrap e) ≠ eventID) →
  settle events results !! eventID = results !! eventID.
Proof.
  revert results. induction events as [|e events IH]; intros results Hother;
    simpl; [done|].
  unfold settle in *. simpl. rewrite IH.
  - apply lookup_insert_ne. apply Hother, list_elem_of_here.
  - intros e' Hin. apply Hother. by apply list_elem_of_further.
Qed.

(** An event reaches the roomserver only through a PDU of some
    transaction that passed the ACL check and the signature check. *)
Lemma submitted_passed_checks s e o :
  reachable d s → (e, o) ∈ roomserverInput s →
  ∃ tid th tx pdu,
    sends s !! tid = Some th ∧ decodeTransaction d (args th) = inr tx ∧
    pdu ∈ PDUs tx ∧ o = Origin tx ∧
    checkPDU d (Origin tx) pdu = Enqueue e.
Proof.
  intros Hr Hin. pose proof (reachable_tasksInv _ Hr) as [Hmade Hsub _].
  destruct (Hsub _ _ Hin) as (task & tk & Hl & <- & <-).
  destruct (Hmade _ _ Hl) as (_ & th & pdu & Hth & Hd & Hp & Hck).
  eauto 10.
Qed.

(** C5, as amended.  In an accepted transaction, a PDU that parses and
    whose event ID no other PDU of the transaction bears gets, when the
    origin is banned from its room, the result with the error [Forbidden
    by server ACLs], and otherwise, when its signatures do not verify, the
    result with the error string of the verifier, which is non-empty when
    that string is.  No task is made for it, none of the events the
    transaction enqueues has its event ID, and whatever reaches the
    roomserver comes from a PDU that passed both checks. *)
Theorem rejected_pdu_result (a : SendArgs) (tx : txnReq)
    (before after : list string) (pdu roomID roomVersion : string)
    (ev : Event) (err : string) :
  decodeTransaction d a = inr tx →
  PDUs tx = before ++ pdu :: after →
  (∀ p res, p ∈ PDUs tx → checkPDU d (Origin tx) p ≠ Abort res) →
  unmarshalHeader d pdu = Some roomID →
  QueryRoomVersionForRoom d roomID = Some roomVersion →
  NewEventFromUntrustedJSON d pdu roomVersion = inr ev →
  (∀ p, p ∈ before ++ after →
     outcomeID (checkPDU d (Origin tx) p) ≠ Some (EventID ev)) →
  (IsServerBannedFromRoom d (RoomID ev) (Origin tx) = true ∧
   err = "Forbidden by server ACLs") ∨
  (IsServerBannedFromRoom d (RoomID ev) (Origin tx) = false ∧
   VerifyEventSignatures d ev = Some err) →
  checkPDU d (Origin tx) pdu = Result (EventID ev) {| Error := err |} ∧
  (∃ results events,
     examine d (Origin tx) (PDUs tx) ∅ [] = inr (results, events) ∧
     leaderResponse d a =
       {| Code := 200; JSON := JSONRespSend (settle events results) |} ∧
     settle events results !! EventID ev = Some {| Error := err |} ∧
     (err ≠ "" → ∃ r, settle events results !! EventID ev = Some r ∧
                      Error r ≠ "") ∧
     (∀ e, e ∈ events → EventID (unwrap e) ≠ EventID ev)) ∧
  (∀ s e o,
     reachable d s → (e, o) ∈ roomserverInput s →
     ∃ tid th tx' pdu',
       sends s !! tid = Some th ∧ decodeTransaction d (args th) = inr tx' ∧
       pdu' ∈ PDUs tx' ∧ o = Origin tx' ∧
       checkPDU d (Origin tx') pdu' = Enqueue e).
Proof.
  intros Hd HP Hok Hh Hv Hp Hother Hrej.
  assert (checkPDU d (Origin tx) pdu = Result (EventID ev) {| Error := err |})
    as Hck.
  { unfold checkPDU. rewrite Hh, Hv, Hp.
    destruct Hrej as [[-> ->]|[-> ->]]; done. }
  split; [done|]. split; [|intros; by eapply submitted_passed_checks].
  destruct (examine_inr (Origin tx) (PDUs tx) ∅ [] Hok)
    as (results & events & He).
  exists results, events. split; [done|].
  split; [unfold leaderResponse; by rewrite Hd, He|].
  rewrite HP, examine_app in He.
  destruct (examine d (Origin tx) before ∅ []) as [|[r1 e1]] eqn:He1; [done|].
  simpl in He. rewrite Hck in He.
  destruct (examine_other _ (EventID ev) _ _ _ _ _ He1) as [_ Hev1].
  { intros p Hin. apply Hother, elem_of_app. by left. }
  destruct (examine_other _ (EventID ev) _ _ _ _ _ He) as [Hr2 Hev2].
  { intros p Hin. apply Hother, elem_of_app. by right. }
  assert (∀ e, e ∈ events → EventID (unwrap e) ≠ EventID ev) as Hnone.
  { intros e Hin Hid. apply (Hev2 _ Hin) in Hid as Hin1.
    apply (Hev1 _ Hin1) in Hid as Hin0. by apply elem_of_nil in Hin0. }
  assert (settle events results !! EventID ev = Some {| Error := err |})
    as Hres.
  { rewrite settle_other; [|done]. by rewrite Hr2, lookup_insert_eq. }
  split; [done|]. split; [|done].
  intros Hne. eexists. split; [done|]. done.
Qed.

(** From a PDU that is not canonical JSON the leader returns the
    rejection in three steps of its own, whatever its results and tasks
    so far, and without a look at the wait group or at the tasks. *)
Lemma abort_returns_at_once s tid th ch f pdu pdus :
  reachable d s → sends s !! tid = Some th →
  pc th = AtPDU ch f (pdu :: pdus) →
  checkPDU d (Origin (ft f)) pdu = Abort badPDUResponse →
  ∃ s', run d (solo tid 3) s = Some s' ∧
        sends s' !! tid = Some (mkSend (args th) (Returned badPDUResponse)) ∧
        untouched s s'.
Proof.
  intros Hr Hth Hpc Hck.
  assert (stepSend d tid false s =
          Some (goto tid (AtDeferredDelete ch badPDUResponse)
                  (incPDUCount "total" s))) as Hs1
    by (at_pc Hth Hpc; by rewrite Hck).
  assert (reachable d (goto tid (AtDeferredDelete ch badPDUResponse)
                         (incPDUCount "total" s))) as Hr1
    by (by apply (reachable_step d s (StepSend tid false))).
  destruct (deferred_returns _ tid _ ch badPDUResponse Hr1
              (lookup_moved_eq _ _ _ _ Hth) eq_refl)
    as (s' & Hrun & Hs' & Hun).
  exists s'. split; [by rewrite (solo_step _ _ _ _ Hs1)|]. split; [done|].
  destruct Hun as (? & ? & ? & ? & ?). by repeat split.
Qed.


End send_facts.

(** ** The model at work *)

Section runs.
Import sample.

Lemma after_reachable (acts : list Action) :
  is_Some (run deps acts initial) → reachable deps (after acts).
Proof.
  intros [s Hs]. unfold after. rewrite Hs. simpl.
  eapply run_reachable; [apply reachable_initial|done].
Qed.

Lemma bad_JSON_aborts_transaction_witness :
  leaderResponse deps oldRoom = badPDUResponse.
Proof.
  destruct (bad_JSON_aborts_transaction deps oldRoom ["a"; "y"] [] "y" "!q"
              "1" "value is not canonical") as (_ & H & _);
    [reflexivity|reflexivity| |reflexivity|reflexivity|reflexivity|exact H].
  apply list_elem_of_further, list_elem_of_here.
Defined.

Lemma follower_contract_witness :
  ∃ s1, stepSend deps 1 false
          (after [Arrive oneGood; Arrive oneGood; StepSend 0 false])
        = Some s1 ∧
        sends s1 !! 1 =
          Some (mkSend oneGood
            (AtSelect 0 (WithTimeout (RequestContext 1) (0 + Minute * 5)))).
Proof.
  destruct (follower_contract deps
              (after [Arrive oneGood; Arrive oneGood; StepSend 0 false])
              1 (mkSend oneGood AtLoadOrStore) 0)
    as ((s1 & Hstep & _ & Hth) & _);
    [reflexivity|reflexivity|reflexivity|].
  exists s1. split; [apply Hstep|exact Hth].
Defined.



Lemma transaction_size_limit_witness :
  leaderResponse deps large = tooLargeResponse.
Proof.
  destruct (transaction_size_limit deps large (replicate 51 "a") [])
    as (_ & _ & H & _); [reflexivity|].
  apply H. left. reflexivity.
Defined.

Lemma rejected_pdu_result_witness :
  checkPDU deps "evil.example" "n" =
  Result "$n" {| Error := "Forbidden by server ACLs" |}.
Proof.
  destruct (rejected_pdu_result deps banned
              {| PDUs := ["n"; "a"]; EDUs := []; Origin := "evil.example";
                 TransactionID := "t7"; Destination := "local.example" |}
              [] ["a"] "n" "!acl" "6"
              {| EventID := "$n"; RoomID := "!acl"; eventJSON := "n" |}
              "Forbidden by server ACLs") as (H & _);
    [reflexivity|reflexivity| |reflexivity|reflexivity|reflexivity|
     |by left|exact H].
  - intros p res Hin. simpl in Hin.
    apply elem_of_cons in Hin as [->|Hin]; [discriminate|].
    apply list_elem_of_singleton in Hin as ->. discriminate.
  - intros p Hin. simpl in Hin.
    apply list_elem_of_singleton in Hin as ->. discriminate.
Defined.

(** C5, as stated, fails.  A transaction carries the event [$s] twice,
    first with a broken signature and then properly signed.  The first
    PDU parses and fails verification with the error [bad signature from
    origin]; the second is enqueued, and the result for [$s] that [Send]
    returns is the empty one of the enqueued event.  The event reaches the
    roomserver. *)
Lemma duplicate_event_counterexample :
  NewEventFromUntrustedJSON deps "s" "6" =
    inr {| EventID := "$s"; RoomID := "!r"; eventJSON := "s" |} ∧
  VerifyEventSignatures deps
    {| EventID := "$s"; RoomID := "!r"; eventJSON := "s" |} =
    Some "bad signature from origin" ∧
  checkPDU deps "a.example" "s" =
    Result "$s" {| Error := "bad signature from origin" |} ∧
  leaderResponse deps twice =
    {| Code := 200;
       JSON := JSONRespSend {[ "$s" := {| Error := "" |} ]} |} ∧
  ∃ s,
    run deps
      ([Arrive twice] ++ solo 0 6 ++
       [StepWorker 0; StepWorker 0; StepWorker 0] ++ solo 0 4) initial
      = Some s ∧
    pc <$> sends s !! 0 = Some (Returned (leaderResponse deps twice)) ∧
    (λ eo, EventID (unwrap eo.1)) <$> roomserverInput s = ["$s"].
Proof.
  repeat split; try reflexivity.
  eexists. split; [vm_compute; reflexivity|]. split; reflexivity.
Qed.

Lemma leader_deletes_then_closes_witness :
  ∃ s',
    stepSend deps 0 false (after ([Arrive empty] ++ solo 0 5)) = Some s' ∧
    inFlightTxnsPerOrigin s' !! index empty = None ∧
    closed <$> chans s' !! 0 = Some false.
Proof.
  destruct (leader_deletes_then_closes deps
              (after ([Arrive empty] ++ solo 0 5)) 0
              (mkSend empty
                 (AtDeferredDelete 0
                    {| Code := 200; JSON := JSONRespSend ∅ |}))
              0 {| Code := 200; JSON := JSONRespSend ∅ |})
    as (_ & H & _).
  { apply after_reachable. vm_compute. eauto. }
  { reflexivity. }
  destruct (H eq_refl) as (c & s' & Hc & Hcl & _ & Hstep & Hreg & Hcs & _).
  exists s'. split; [apply Hstep|]. split; [exact Hreg|].
  rewrite Hcs, Hc. simpl. by rewrite Hcl.
Defined.

(** C7, as stated, fails.  A leader of an empty transaction that has run
    its deferred [Delete]: its entry is gone from the registry and its
    channel is not closed yet. *)
Lemma delete_before_close_counterexample :
  ∃ s c res,
    run deps ([Arrive empty] ++ solo 0 6) initial = Some s ∧
    pc <$> sends s !! 0 = Some (AtDeferredClose 0 res) ∧
    inFlightTxnsPerOrigin s !! index empty = None ∧
    chans s !! 0 = Some c ∧ closed c = false.
Proof.
  eexists _, _, _. split; [vm_compute; reflexivity|].
  repeat split; reflexivity.
Qed.


(** C9.  When a PDU is not canonical JSON, the leader returns the 400
    response in three steps of its own from the head of the loop, whatever
    results and tasks it has collected, without a look at the wait group
    and with the tasks, the queues and the workers left as they are: the
    results are dropped with the frame.  So a transaction with a PDU with
    a broken signature, a good PDU and a PDU that is not canonical JSON is
    answered with 400 while the result for the first is in the frame and
    the task of the second is in the queue of its room, with the wait
    group at one; the worker then submits the event to the roomserver. *)
Theorem abort_does_not_wait :
  (∀ d s tid th ch f pdu pdus,
     reachable d s → sends s !! tid = Some th →
     pc th = AtPDU ch f (pdu :: pdus) →
     checkPDU d (Origin (ft f)) pdu = Abort badPDUResponse →
     ∃ s', run d (solo tid 3) s = Some s' ∧
           sends s' !! tid =
             Some (mkSend (args th) (Returned badPDUResponse)) ∧
           untouched s s') ∧
  (∃ s0 s1 s2 ch f,
     run deps ([Arrive mixed] ++ solo 0 5) initial = Some s0 ∧
     pc <$> sends s0 !! 0 = Some (AtPDU ch f ["x"]) ∧
     results f = {[ "$s" := {| Error := "bad signature from origin" |} ]} ∧
     ftasks f = [0] ∧
     run deps (solo 0 3) s0 = Some s1 ∧
     pc <$> sends s1 !! 0 = Some (Returned badPDUResponse) ∧
     wgCounter s1 0 = 1 ∧
     (tasks ∘ input) <$> inputWorkers s1 !! "!r" = Some [Some 0] ∧
     roomserverInput s1 = [] ∧
     run deps [StepWorker 0; StepWorker 0] s1 = Some s2 ∧
     (λ eo, EventID (unwrap eo.1)) <$> roomserverInput s2 = ["$a"]).
Proof.
  split.
  - intros d s tid th ch f pdu pdus. apply abort_returns_at_once.
  - eexists _, _, _, _, _. split; [vm_compute; reflexivity|].
    split; [reflexivity|]. split; [reflexivity|]. split; [reflexivity|].
    split; [vm_compute; reflexivity|].
    repeat split; reflexivity.
Qed.

Lemma abort_does_not_wait_witness :
  ∃ s', run deps (solo 0 3) (after ([Arrive mixed] ++ solo 0 5)) = Some s' ∧
        pc <$> sends s' !! 0 = Some (Returned badPDUResponse) ∧
        wgCounter s' 0 = 1.
Proof.
  destruct abort_does_not_wait as [H _].
  pose (f := {| fctx := Background;
                ft := {| PDUs := ["s"; "a"; "x"]; EDUs := [];
                         Origin := "a.example"; TransactionID := "t1";
                         Destination := "local.example" |};
                results :=
                  {[ "$s" := {| Error := "bad signature from origin" |} ]};
                ftasks := [0] |}).
  destruct (H deps (after ([Arrive mixed] ++ solo 0 5)) 0
              (mkSend mixed (AtPDU 0 f ["x"])) 0 f "x" [])
    as (s' & Hrun & Hth & _ & _ & Hwg & _).
  { apply after_reachable. vm_compute. eauto. }
  { reflexivity. }
  { reflexivity. }
  { reflexivity. }
  exists s'. split; [exact Hrun|]. split; [by rewrite Hth|].
  unfold wgCounter. rewrite Hwg. reflexivity.
Defined.

End runs.

(** ** The FIFO queue *)

Section queue_facts.
Import pool.

Lemma push_wf q frame : wfQueue q → wfQueue (push q frame).
Proof.
  unfold wfQueue. simpl. intros ->. rewrite length_app. simpl. lia.
Qed.

Lemma pop_empty q :
  wfQueue q → tasks q = [] → pop q = Some (q, None, false).
Proof.
  unfold wfQueue, pop. intros Hc Ht. rewrite Ht in Hc. simpl in Hc.
  by rewrite Hc.
Qed.

Lemma pop_cons q frame rest :
  wfQueue q → tasks q = frame :: rest →
  pop q = Some ({| tasks := rest; count := Z.of_nat (length rest);
                   notifs := notifs q |}, frame, true).
Proof.
  unfold wfQueue, pop. intros Hc Ht. rewrite Ht in *. simpl in Hc.
  rewrite Hc.
  destruct (Z.of_nat (S (length rest)) =? 0)%Z eqn:Hz;
    [apply Z.eqb_eq in Hz; lia|].
  replace (Z.of_nat (S (length rest)) - 1)%Z with (Z.of_nat (length rest))
    by lia.
  destruct (Z.of_nat (length rest) =? 0)%Z eqn:Hr; [|done].
  destruct rest; [done|apply Z.eqb_eq in Hr; simpl in Hr; lia].
Qed.

Lemma pushAll_tasks q frames :
  tasks (pushAll q frames) = tasks q ++ frames.
Proof.
  revert q. induction frames as [|x frames IH]; intros q; simpl.
  - by rewrite app_nil_r.
  - unfold pushAll in *. simpl. rewrite IH. simpl. by rewrite <- app_assoc.
Qed.

Lemma pushAll_notifs q x frames : notifs (pushAll q (x :: frames)) = true.
Proof.
  unfold pushAll. simpl. generalize (push q x) (eq_refl : notifs (push q x) = true).
  induction frames as [|y frames IH]; intros q' Hq'; simpl; [done|].
  by apply IH.
Qed.

Lemma pushAll_wf q frames : wfQueue q → wfQueue (pushAll q frames).
Proof.
  revert q. induction frames as [|x frames IH]; intros q Hq; [done|].
  apply IH. by apply push_wf.
Qed.

Lemma drain_all frames : ∀ q n,
  wfQueue q → tasks q = frames → length frames ≤ n →
  drain n q =
  Some (frames, {| tasks := []; count := 0; notifs := notifs q |}) ∨
  (n = 0 ∧ frames = []).
Proof.
  induction frames as [|x frames IH]; intros q n Hq Ht Hn.
  - destruct n; [by right|]. left. simpl. rewrite (pop_empty q Hq Ht).
    destruct q as [ts c nf]. simpl in *. unfold wfQueue in Hq. simpl in Hq.
    subst ts. simpl in Hq. by subst c.
  - destruct n as [|n]; [simpl in Hn; lia|]. left. simpl.
    rewrite (pop_cons q x frames Hq Ht).
    destruct (IH {| tasks := frames; count := Z.of_nat (length frames);
                    notifs := notifs q |} n) as [->|[-> ->]];
      [done|done|simpl in Hn; lia|done|].
    simpl. done.
Qed.

(** X1.  The queue is first in, first out: after any frames are pushed onto a
    well-formed queue, popping hands out the frames that were there,
    oldest first, then the pushed ones in the order of the pushes, and
    ends on a queue whose slice is released and whose counter is zero, on
    which [pop] reports that nothing is there.  No pop on the way
    panics. *)
Theorem queue_is_fifo (q : sendFIFOQueue) (frames : list (option nat))
    (n : nat) :
  wfQueue q → length (tasks q) + length frames < n →
  drain n (pushAll q frames) =
    Some (tasks q ++ frames,
          {| tasks := []; count := 0;
             notifs := notifs (pushAll q frames) |}) ∧
  pop {| tasks := []; count := 0; notifs := notifs (pushAll q frames) |} =
    Some ({| tasks := []; count := 0;
             notifs := notifs (pushAll q frames) |}, None, false).
Proof.
  intros Hq Hn. split; [|done].
  destruct (drain_all (tasks q ++ frames) (pushAll q frames) n)
    as [->|[-> _]].
  - by apply pushAll_wf.
  - apply pushAll_tasks.
  - rewrite length_app. lia.
  - done.
  - lia.
Qed.

Lemma queue_is_fifo_witness :
  drain 4 (pushAll newSendFIFOQueue [Some 7; Some 3; Some 5]) =
  Some ([Some 7; Some 3; Some 5],
        {| tasks := []; count := 0; notifs := true |}).
Proof.
  refine (proj1 (queue_is_fifo newSendFIFOQueue [Some 7; Some 3; Some 5] 4
                   _ _)); [reflexivity|simpl; lia].
Defined.

End queue_facts.

(** ** The worker pool *)

Section pool_facts.
Import pool.
Context (d : Deps).

(** What a step of an invocation does to the pool: nothing; or it makes a
    task and pushes it onto the queue of its room, which it adds if it is
    not there; or it sets the flag of a worker and starts its
    goroutine. *)
Lemma stepSend_pool tid b s s' :
  stepSend d tid b s = Some s' →
  (inputWorkers s' = inputWorkers s ∧ taskHeap s' = taskHeap s ∧
   workers s' = workers s) ∨
  (∃ tk w0,
     (inputWorkers s !! RoomID (unwrap (event tk)) = Some w0 ∨
      inputWorkers s !! RoomID (unwrap (event tk)) = None ∧
      w0 = {| running := false; input := newSendFIFOQueue |}) ∧
     taskHeap s' = taskHeap s ++ [tk] ∧
     inputWorkers s' =
       <[RoomID (unwrap (event tk)) :=
           {| running := running w0;
              input := push (input w0) (Some (length (taskHeap s))) |}]>
         (inputWorkers s) ∧
     workers s' = workers s) ∨
  (∃ r w,
     inputWorkers s !! r = Some w ∧ running w = false ∧
     inputWorkers s' =
       <[r := {| running := true; input := input w |}]> (inputWorkers s) ∧
     workers s' = workers s ++ [{| room := r; wpc := AtPop |}] ∧
     taskHeap s' = taskHeap s).
Proof.
  unfold stepSend, LoadOrStore. intros H.
  repeat (simplify_option_eq || case_match); simpl; try (by left).
  - right; left.
    match goal with |- context [@app inputTask _ [?tk]] => exists tk end.
    eexists. split; [left; simpl; done|]. done.
  - right; left.
    match goal with |- context [@app inputTask _ [?tk]] => exists tk end.
    eexists. split; [right; simpl; split; [done|reflexivity]|].
    split; [done|]. split; [|done]. simpl. by rewrite insert_insert_eq.
  - right; right. eexists _, _. done.
Qed.

(** What a step of a worker does to the pool. *)
Lemma stepWorker_pool wid s s' :
  stepWorker d wid s = Some s' →
  ∃ th pc',
    workers s !! wid = Some th ∧
    workers s' =
      alter (λ th, mkWorkerThread (room th) pc') wid (workers s) ∧
    heapStep (taskHeap s) (taskHeap s') ∧
    heapStep (taskHeap s') (taskHeap s) ∧
    ((∃ w q frame ok,
        wpc th = AtPop ∧ inputWorkers s !! room th = Some w ∧
        pop (input w) = Some (q, frame, ok) ∧
        inputWorkers s' =
          <[room th := {| running := running w; input := q |}]>
            (inputWorkers s) ∧
        pc' = (if ok then match frame with
                          | None => AtPop
                          | Some task => AtTask task
                          end
               else AtStoreRunning)) ∨
     (∃ task, wpc th = AtTask task ∧ pc' = AtWgDone task ∧
              inputWorkers s' = inputWorkers s) ∨
     (∃ task, wpc th = AtWgDone task ∧ pc' = AtPop ∧
              inputWorkers s' = inputWorkers s) ∨
     (∃ w, wpc th = AtStoreRunning ∧ pc' = Exited ∧
           inputWorkers s !! room th = Some w ∧
           inputWorkers s' =
             <[room th := {| running := false; input := input w |}]>
               (inputWorkers s))).
Proof.
  unfold stepWorker, wgDone, recordOutcome, processEvent. intros H.
  repeat (simplify_option_eq || case_match); simpl;
    (eexists _, _; split; [done|]; split; [reflexivity|]);
    (split; [first [apply heapStep_refl | apply heapStep_alter]|]);
    (split; [first [apply heapStep_refl | apply heapStep_alter_back]|]).
  all: try (by left; eauto 10).
  all: try (by right; left; eauto 10).
  all: try (by right; right; left; eauto 10).
  all: try (by right; right; right; eauto 10).
Qed.

Lemma pop_wf q q' frame ok :
  wfQueue q → pop q = Some (q', frame, ok) →
  (ok = false ∧ q' = q ∧ frame = None ∧ tasks q = []) ∨
  (ok = true ∧ tasks q = frame :: tasks q' ∧ wfQueue q').
Proof.
  intros Hq Hpop. destruct (tasks q) as [|x rest] eqn:Ht.
  - rewrite (pop_empty q Hq Ht) in Hpop. simplify_eq. by left.
  - rewrite (pop_cons q x rest Hq Ht) in Hpop. simplify_eq. right.
    by repeat split.
Qed.

Lemma pop_wf_Some q : wfQueue q → is_Some (pop q).
Proof.
  intros Hq. destruct (tasks q) as [|x rest] eqn:Ht.
  - rewrite (pop_empty q Hq Ht). eauto.
  - rewrite (pop_cons q x rest Hq Ht). eauto.
Qed.

Lemma inHand_live pc task : inHand pc = Some task → live pc = true.
Proof. by destruct pc. Qed.

Lemma poolInv_ext s s' :
  inputWorkers s' = inputWorkers s → taskHeap s' = taskHeap s →
  workers s' = workers s → poolInv s → poolInv s'.
Proof.
  intros Hi Hh Hw [H1 H2 H3 H4 H5 H6].
  constructor; rewrite ?Hi, ?Hh, ?Hw; done.
Qed.

Lemma poolInv_stepSend tid pick s s' :
  poolInv s → stepSend d tid pick s = Some s' → poolInv s'.
Proof.
  intros Hinv Hstep. pose proof Hinv as [Hwf Htasks Hsorted Hrun Halone Hhand].
  apply stepSend_pool in Hstep
    as [(Hi & Hh & Hw)|[(tk & w0 & Hw0 & Hh & Hi & Hw)
                       |(r & w & Hl & Hr & Hi & Hw & Hh)]].
  - by eapply poolInv_ext.
  - set (r0 := RoomID (unwrap (event tk))) in *.
    set (n := length (taskHeap s)) in *.
    assert (wfQueue (input w0)) as Hwf0.
    { destruct Hw0 as [Hl|[_ ->]]; [by eapply Hwf|done]. }
    assert (∀ frame, frame ∈ tasks (input w0) →
              ∃ task tk', frame = Some task ∧
                taskHeap s !! task = Some tk' ∧
                RoomID (unwrap (event tk')) = r0) as Htasks0.
    { destruct Hw0 as [Hl|[_ ->]]; [intros frame; by apply (Htasks _ _ _ Hl)|].
      intros frame Hin. by apply elem_of_nil in Hin. }
    assert (∀ i j a b, i < j →
              tasks (input w0) !! i = Some (Some a) →
              tasks (input w0) !! j = Some (Some b) → a < b) as Hsorted0.
    { destruct Hw0 as [Hl|[_ ->]];
        [intros i j a b; by apply (Hsorted _ _ _ _ _ _ Hl)|].
      intros i j a b _ Hi0. done. }
    assert (∀ r w, inputWorkers s' !! r = Some w →
              (r = r0 ∧ w = {| running := running w0;
                               input := push (input w0) (Some n) |}) ∨
              (r ≠ r0 ∧ inputWorkers s !! r = Some w)) as Hlook.
    { intros r w. rewrite Hi, lookup_insert. case_decide.
      - intros [= <-]. left. done.
      - intros Hl. right. done. }
    assert (∀ i a, tasks (input w0) !! i = Some (Some a) → a < n) as Hlt.
    { intros i a Hl.
      destruct (Htasks0 (Some a)) as (task & tk' & [= <-] & Hl' & _).
      { by eapply list_elem_of_lookup_2. }
      by eapply lookup_lt_Some. }
    constructor.
    + intros r w [[-> ->]|[Hne Hl]]%Hlook; simpl; [by apply push_wf|eauto].
    + intros r w frame [[-> ->]|[Hne Hl]]%Hlook; simpl.
      * intros [Hin|Hin]%elem_of_app.
        -- destruct (Htasks0 _ Hin) as (task & tk' & -> & Hl' & Hr).
           exists task, tk'. rewrite Hh. split; [done|].
           split; [by apply lookup_app_l_Some|done].
        -- apply list_elem_of_singleton in Hin as ->.
           exists n, tk. rewrite Hh. split; [done|].
           split; [by apply list_lookup_middle|done].
      * intros Hin. destruct (Htasks _ _ _ Hl Hin) as (task & tk' & -> & Hl' & Hr).
        exists task, tk'. rewrite Hh. split; [done|].
        split; [by apply lookup_app_l_Some|done].
    + intros r w i j a b [[-> ->]|[Hne Hl]]%Hlook; simpl;
        [|by apply (Hsorted _ _ _ _ _ _ Hl)].
      intros Hij [[? Hia]|[-> [= <-]]]%lookup_snoc_Some
                 [[? Hjb]|[-> [= <-]]]%lookup_snoc_Some.
      * exact (Hsorted0 _ _ _ _ Hij Hia Hjb).
      * by eapply Hlt.
      * lia.
      * lia.
    + intros wid th. rewrite Hw. intros Hth Hlive.
      destruct (Hrun _ _ Hth Hlive) as (w & Hl & Hr).
      rewrite Hi, lookup_insert. case_decide as Heq.
      * eexists. split; [done|]. simpl.
        destruct Hw0 as [Hl0|[Hl0 _]]; rewrite Heq in Hl0; congruence.
      * eauto.
    + rewrite Hw. apply Halone.
    + intros wid th task. rewrite Hw. intros Hth Hin.
      destruct (Hhand _ _ _ Hth Hin) as [(tk' & Hl' & Hr') Hold]. split.
      * exists tk'. rewrite Hh. split; [by apply lookup_app_l_Some|done].
      * intros w i a [[Hr0 ->]|[Hne Hl]]%Hlook; simpl; [|by eapply Hold].
        intros [[? Hia]|[-> [= <-]]]%lookup_snoc_Some.
        -- destruct Hw0 as [Hl0|[Hl0 ->]]; [|done].
           rewrite <- Hr0 in Hl0. by eapply Hold.
        -- by eapply lookup_lt_Some.
  - assert (∀ wid th, workers s !! wid = Some th → live (wpc th) = true →
              room th ≠ r) as Hnone.
    { intros wid th Hth Hlive Heq.
      destruct (Hrun _ _ Hth Hlive) as (w' & Hl' & Hr').
      rewrite Heq in Hl'. congruence. }
    assert (∀ r' w', inputWorkers s' !! r' = Some w' →
              ∃ w'', inputWorkers s !! r' = Some w'' ∧
                     input w' = input w'') as Hlook.
    { intros r' w'. rewrite Hi, lookup_insert. case_decide.
      - intros [= <-]. subst. eauto.
      - eauto. }
    constructor; rewrite ?Hh.
    + intros r' w' (w'' & Hl' & ->)%Hlook. eauto.
    + intros r' w' frame (w'' & Hl' & ->)%Hlook. eauto.
    + intros r' w' i j a b (w'' & Hl' & ->)%Hlook. eauto.
    + intros wid th. rewrite Hw.
      intros [[? Hth]|[-> <-]]%lookup_snoc_Some Hlive; simpl.
      * destruct (Hrun _ _ Hth Hlive) as (w' & Hl' & Hr').
        exists w'. split; [|done]. rewrite Hi, lookup_insert_ne; [done|].
        intros Heq. by eapply Hnone.
      * eexists. by rewrite Hi, lookup_insert_eq.
    + intros wid1 wid2 th1 th2. rewrite Hw.
      intros [[? Hth1]|[-> <-]]%lookup_snoc_Some
             [[? Hth2]|[-> <-]]%lookup_snoc_Some Hl1 Hl2 Hroom; simpl in *.
      * by eapply Halone.
      * by destruct (Hnone _ _ Hth1 Hl1).
      * by destruct (Hnone _ _ Hth2 Hl2).
      * done.
    + intros wid th task. rewrite Hw.
      intros [[? Hth]|[-> <-]]%lookup_snoc_Some Hin; simpl in *; [|done].
      destruct (Hhand _ _ _ Hth Hin) as [? Hold]. split; [done|].
      intros w' i a (w'' & Hl' & ->)%Hlook. eauto.
Qed.

Lemma lookup_wmoved (l : list WorkerThread) wid wid' th pc' th' :
  l !! wid = Some th →
  alter (λ th, mkWorkerThread (room th) pc') wid l !! wid' = Some th' →
  (wid' = wid ∧ th' = mkWorkerThread (room th) pc') ∨
  (wid' ≠ wid ∧ l !! wid' = Some th').
Proof.
  intros Hl. rewrite list_lookup_alter. case_decide; subst.
  - rewrite Hl. simpl. intros [= <-]. by left.
  - intros ?. by right.
Qed.

Lemma poolInv_stepWorker wid s s' :
  poolInv s → stepWorker d wid s = Some s' → poolInv s'.
Proof.
  intros Hinv Hstep. pose proof Hinv as [Hwf Htasks Hsorted Hrun Halone Hhand].
  apply stepWorker_pool in Hstep
    as (th & pc' & Hth & Hw & Hfw & Hbw & Hcase).
  assert (∀ task tk r, taskHeap s !! task = Some tk →
            RoomID (unwrap (event tk)) = r →
            ∃ tk', taskHeap s' !! task = Some tk' ∧
                   RoomID (unwrap (event tk')) = r) as Hheap.
  { intros task tk r Hl Hr. destruct (Hfw _ _ Hl) as (tk' & Hl' & _ & _ & He & _).
    exists tk'. by rewrite He. }
  assert (∀ wid' th', wid' ≠ wid → workers s !! wid' = Some th' →
            live (wpc th') = true → live (wpc th) = true →
            room th' ≠ room th) as Hother.
  { intros wid' th' Hne Hth' Hl' Hl Heq. apply Hne. by eapply Halone. }
  destruct Hcase as [(w & q & frame & ok & Hpc & Hl & Hpop & Hi & Hpc')
                    |[(task & Hpc & Hpc' & Hi)
                     |[(task & Hpc & Hpc' & Hi)
                      |(w & Hpc & Hpc' & Hl & Hi)]]].
  - (* pop *)
    assert (live (wpc th) = true) as Hlive by (by rewrite Hpc).
    destruct (Hrun _ _ Hth Hlive) as (w1 & Hl1 & Hr1). simplify_eq.
    assert (∀ r w', inputWorkers s' !! r = Some w' →
              (r = room th ∧ w' = {| running := running w; input := q |}) ∨
              (r ≠ room th ∧ inputWorkers s !! r = Some w')) as Hlook.
    { intros r w'. rewrite Hi, lookup_insert. case_decide.
      - intros [= <-]. by left.
      - intros ?. by right. }
    destruct (pop_wf _ _ _ _ (Hwf _ _ Hl) Hpop)
      as [(-> & -> & -> & Hnil)|(-> & Hcons & Hq)].
    + (* the queue is empty *)
      constructor.
      * intros r w' [[-> ->]|[Hne Hl']]%Hlook; simpl; eauto.
      * intros r w' frame [[-> ->]|[Hne Hl']]%Hlook; simpl.
        -- rewrite Hnil. intros Hin. by apply elem_of_nil in Hin.
        -- intros Hin. destruct (Htasks _ _ _ Hl' Hin) as (task & tk & -> & Hlt & Hr).
           destruct (Hheap _ _ _ Hlt Hr) as (tk' & ? & ?). eauto.
      * intros r w' i j a b [[-> ->]|[Hne Hl']]%Hlook; simpl;
          [by rewrite Hnil|by apply (Hsorted _ _ _ _ _ _ Hl')].
      * intros wid' th'. rewrite Hw.
        intros [[-> ->]|[Hne Hth']]%(lookup_wmoved _ _ _ _ _ _ Hth) Hlive';
          simpl.
        -- rewrite Hi, lookup_insert_eq. eauto.
        -- destruct (Hrun _ _ Hth' Hlive') as (w' & Hl' & Hr').
           exists w'. split; [|done]. rewrite Hi, lookup_insert_ne; [done|].
           intros Heq. by eapply Hother.
      * intros wid1 wid2 th1 th2. rewrite Hw.
        intros [[-> ->]|[Hne1 Hth1]]%(lookup_wmoved _ _ _ _ _ _ Hth)
               [[-> ->]|[Hne2 Hth2]]%(lookup_wmoved _ _ _ _ _ _ Hth);
          simpl; intros Hl1' Hl2' Hroom; [done| | |by eapply Halone].
        -- by destruct (Hother _ _ Hne2 Hth2 Hl2' Hlive).
        -- by destruct (Hother _ _ Hne1 Hth1 Hl1' Hlive).
      * intros wid' th' task. rewrite Hw.
        intros [[-> ->]|[Hne Hth']]%(lookup_wmoved _ _ _ _ _ _ Hth) Hin;
          simpl in *; [done|].
        destruct (Hhand _ _ _ Hth' Hin) as [(tk & Hlt & Hr) Hold]. split.
        -- destruct (Hheap _ _ _ Hlt Hr) as (tk' & ? & ?). eauto.
        -- intros w' i a [[Heq ->]|[Hne' Hl']]%Hlook; simpl;
             [by rewrite Hnil|by apply Hold].
    + (* a frame comes off *)
      destruct (Htasks _ _ frame Hl) as (task & tk & -> & Hlt & Hr).
      { rewrite Hcons. apply list_elem_of_here. }
      constructor.
      * intros r w' [[-> ->]|[Hne Hl']]%Hlook; simpl; eauto.
      * intros r w' frame [[-> ->]|[Hne Hl']]%Hlook; simpl; intros Hin.
        -- destruct (Htasks _ _ frame Hl) as (task' & tk' & -> & Hlt' & Hr').
           { rewrite Hcons. by apply list_elem_of_further. }
           destruct (Hheap _ _ _ Hlt' Hr') as (tk'' & ? & ?). eauto.
        -- destruct (Htasks _ _ _ Hl' Hin) as (task' & tk' & -> & Hlt' & Hr').
           destruct (Hheap _ _ _ Hlt' Hr') as (tk'' & ? & ?). eauto.
      * intros r w' i j a b [[-> ->]|[Hne Hl']]%Hlook; simpl;
          [|by apply (Hsorted _ _ _ _ _ _ Hl')].
        intros Hij Hia Hjb.
        apply (Hsorted _ _ (S i) (S j) a b Hl); [lia|by rewrite Hcons..].
      * intros wid' th'. rewrite Hw.
        intros [[-> ->]|[Hne Hth']]%(lookup_wmoved _ _ _ _ _ _ Hth) Hlive';
          simpl.
        -- rewrite Hi, lookup_insert_eq. eauto.
        -- destruct (Hrun _ _ Hth' Hlive') as (w' & Hl' & Hr').
           exists w'. split; [|done]. rewrite Hi, lookup_insert_ne; [done|].
           intros Heq. by eapply Hother.
      * intros wid1 wid2 th1 th2. rewrite Hw.
        intros [[-> ->]|[Hne1 Hth1]]%(lookup_wmoved _ _ _ _ _ _ Hth)
               [[-> ->]|[Hne2 Hth2]]%(lookup_wmoved _ _ _ _ _ _ Hth);
          simpl; intros Hl1' Hl2' Hroom; [done| | |by eapply Halone].
        -- by destruct (Hother _ _ Hne2 Hth2 Hl2' Hlive).
        -- by destruct (Hother _ _ Hne1 Hth1 Hl1' Hlive).
      * intros wid' th' task'. rewrite Hw.
        intros [[-> ->]|[Hne Hth']]%(lookup_wmoved _ _ _ _ _ _ Hth) Hin;
          simpl in *.
        -- simplify_eq. split.
           ++ destruct (Hheap _ _ _ Hlt Hr) as (tk' & ? & ?). eauto.
           ++ intros w' i a. rewrite Hi, lookup_insert_eq. intros [= <-]. simpl.
              intros Hia.
              apply (Hsorted _ _ 0 (S i) task' a Hl); [lia|by rewrite Hcons..].
        -- destruct (Hhand _ _ _ Hth' Hin) as [(tk' & Hlt' & Hr') Hold]. split.
           ++ destruct (Hheap _ _ _ Hlt' Hr') as (tk'' & ? & ?). eauto.
           ++ intros w' i a [[Heq ->]|[Hne' Hl']]%Hlook; simpl;
                [|by apply Hold].
              destruct (Hother _ _ Hne Hth' (inHand_live _ _ Hin) Hlive Heq).
  - (* the task is processed *)
    constructor; rewrite ?Hi.
    + done.
    + intros r w frame Hl Hin.
      destruct (Htasks _ _ _ Hl Hin) as (task' & tk' & -> & Hlt' & Hr').
      destruct (Hheap _ _ _ Hlt' Hr') as (tk'' & ? & ?). eauto.
    + done.
    + intros wid' th'. rewrite Hw.
      intros [[-> ->]|[Hne Hth']]%(lookup_wmoved _ _ _ _ _ _ Hth) Hlive';
        simpl; [|eauto].
      apply (Hrun _ _ Hth). by rewrite Hpc.
    + intros wid1 wid2 th1 th2. rewrite Hw.
      assert (live (wpc th) = true) as Hlive by (by rewrite Hpc).
      intros [[-> ->]|[Hne1 Hth1]]%(lookup_wmoved _ _ _ _ _ _ Hth)
             [[-> ->]|[Hne2 Hth2]]%(lookup_wmoved _ _ _ _ _ _ Hth);
        simpl; intros Hl1' Hl2' Hroom; [done| | |by eapply Halone].
      * by destruct (Hother _ _ Hne2 Hth2 Hl2' Hlive).
      * by destruct (Hother _ _ Hne1 Hth1 Hl1' Hlive).
    + intros wid' th' task'. rewrite Hw.
      intros [[-> ->]|[Hne Hth']]%(lookup_wmoved _ _ _ _ _ _ Hth) Hin;
        simpl in *.
      * subst pc'. simpl in Hin. simplify_eq.
        destruct (Hhand _ _ task' Hth) as [(tk' & Hlt' & Hr') Hold];
          [by rewrite Hpc|]. split; [|done].
        destruct (Hheap _ _ _ Hlt' Hr') as (tk'' & ? & ?). eauto.
      * destruct (Hhand _ _ _ Hth' Hin) as [(tk' & Hlt' & Hr') Hold].
        split; [|done].
        destruct (Hheap _ _ _ Hlt' Hr') as (tk'' & ? & ?). eauto.
  - (* the wait group is told *)
    constructor; rewrite ?Hi.
    + done.
    + intros r w frame Hl Hin.
      destruct (Htasks _ _ _ Hl Hin) as (task' & tk' & -> & Hlt' & Hr').
      destruct (Hheap _ _ _ Hlt' Hr') as (tk'' & ? & ?). eauto.
    + done.
    + intros wid' th'. rewrite Hw.
      intros [[-> ->]|[Hne Hth']]%(lookup_wmoved _ _ _ _ _ _ Hth) Hlive';
        simpl; [|eauto].
      apply (Hrun _ _ Hth). by rewrite Hpc.
    + intros wid1 wid2 th1 th2. rewrite Hw.
      assert (live (wpc th) = true) as Hlive by (by rewrite Hpc).
      intros [[-> ->]|[Hne1 Hth1]]%(lookup_wmoved _ _ _ _ _ _ Hth)
             [[-> ->]|[Hne2 Hth2]]%(lookup_wmoved _ _ _ _ _ _ Hth);
        simpl; intros Hl1' Hl2' Hroom; [done| | |by eapply Halone].
      * by destruct (Hother _ _ Hne2 Hth2 Hl2' Hlive).
      * by destruct (Hother _ _ Hne1 Hth1 Hl1' Hlive).
    + intros wid' th' task'. rewrite Hw.
      intros [[-> ->]|[Hne Hth']]%(lookup_wmoved _ _ _ _ _ _ Hth) Hin;
        simpl in *; [by subst pc'|].
      destruct (Hhand _ _ _ Hth' Hin) as [(tk' & Hlt' & Hr') Hold].
      split; [|done].
      destruct (Hheap _ _ _ Hlt' Hr') as (tk'' & ? & ?). eauto.
  - (* the flag is cleared *)
    assert (live (wpc th) = true) as Hlive by (by rewrite Hpc).
    assert (∀ r w', inputWorkers s' !! r = Some w' →
              ∃ w'', inputWorkers s !! r = Some w'' ∧
                     input w' = input w'') as Hlook.
    { intros r w'. rewrite Hi, lookup_insert. case_decide.
      - intros [= <-]. subst. eauto.
      - eauto. }
    constructor.
    + intros r w' (w'' & Hl' & ->)%Hlook. eauto.
    + intros r w' frame (w'' & Hl' & ->)%Hlook Hin.
      destruct (Htasks _ _ _ Hl' Hin) as (task' & tk' & -> & Hlt' & Hr').
      destruct (Hheap _ _ _ Hlt' Hr') as (tk'' & ? & ?). eauto.
    + intros r w' i j a b (w'' & Hl' & ->)%Hlook. eauto.
    + intros wid' th'. rewrite Hw.
      intros [[-> ->]|[Hne Hth']]%(lookup_wmoved _ _ _ _ _ _ Hth) Hlive';
        simpl in *; [by subst pc'|].
      destruct (Hrun _ _ Hth' Hlive') as (w' & Hl' & Hr').
      exists w'. split; [|done]. rewrite Hi, lookup_insert_ne; [done|].
      intros Heq. by eapply Hother.
    + intros wid1 wid2 th1 th2. rewrite Hw.
      intros [[-> ->]|[Hne1 Hth1]]%(lookup_wmoved _ _ _ _ _ _ Hth)
             [[-> ->]|[Hne2 Hth2]]%(lookup_wmoved _ _ _ _ _ _ Hth);
        simpl; intros Hl1' Hl2' Hroom; [done| | |by eapply Halone].
      * by subst pc'.
      * by subst pc'.
    + intros wid' th' task'. rewrite Hw.
      intros [[-> ->]|[Hne Hth']]%(lookup_wmoved _ _ _ _ _ _ Hth) Hin;
        simpl in *; [by subst pc'|].
      destruct (Hhand _ _ _ Hth' Hin) as [(tk' & Hlt' & Hr') Hold]. split.
      * destruct (Hheap _ _ _ Hlt' Hr') as (tk'' & ? & ?). eauto.
      * intros w' i a (w'' & Hl' & ->)%Hlook. eauto.
Qed.

Lemma poolInv_step act s s' :
  poolInv s → step d act s = Some s' → poolInv s'.
Proof.
  intros Hinv Hstep. destruct act as [a|tid pick|wid|id|dt]; simpl in Hstep.
  - simplify_eq. by apply (poolInv_ext s).
  - by eapply poolInv_stepSend.
  - by eapply poolInv_stepWorker.
  - simplify_eq. by apply (poolInv_ext s).
  - case_match; simplify_eq. by apply (poolInv_ext s).
Qed.

Lemma reachable_poolInv s : reachable d s → poolInv s.
Proof.
  induction 1 as [|s act s' Hr IH Hstep]; [|by eapply poolInv_step].
  constructor; simpl; intros; simplify_eq; set_solver.
Qed.

End pool_facts.

(** ** The wait groups *)

Section wg_facts.
Import pool.
Context (d : Deps).

Lemma countBelow_ext P Q n :
  (∀ i, i < n → P i = Q i) → countBelow P n = countBelow Q n.
Proof.
  induction n as [|n IH]; intros H; simpl; [done|].
  rewrite (H n), IH; [done| |lia]. intros i Hi. apply H. lia.
Qed.

Lemma countBelow_raise P Q n i :
  i < n → P i = false → Q i = true →
  (∀ j, j < n → j ≠ i → P j = Q j) →
  countBelow Q n = S (countBelow P n).
Proof.
  induction n as [|n IH]; intros Hi HP HQ H; simpl; [lia|].
  destruct (decide (i = n)) as [->|Hne].
  - rewrite HP, HQ. simpl. f_equal. apply countBelow_ext.
    intros j Hj. symmetry. apply H; lia.
  - rewrite <- (H n); [|lia|done]. rewrite IH; [lia|lia|done|done|].
    intros j Hj Hji. apply H; [lia|done].
Qed.

Lemma countBelow_zero P n :
  countBelow P n = 0 ↔ ∀ i, i < n → P i = false.
Proof.
  induction n as [|n IH]; simpl.
  - split; [intros _ i Hi; lia|done].
  - split.
    + intros H i Hi. destruct (P n) eqn:HP; [simpl in H; lia|].
      destruct (decide (i = n)) as [->|Hne]; [done|].
      apply IH; [simpl in H; lia|lia].
    + intros H. rewrite (H n) by lia. simpl. apply IH.
      intros i Hi. apply H. lia.
Qed.

Lemma queued_true s task :
  queued s task = true ↔
  ∃ tk w, taskHeap s !! task = Some tk ∧
          inputWorkers s !! RoomID (unwrap (event tk)) = Some w ∧
          Some task ∈ tasks (input w).
Proof.
  unfold queued. split.
  - intros H. repeat case_match; try done.
    apply bool_decide_eq_true in H. eauto.
  - intros (tk & w & -> & -> & Hin). by apply bool_decide_eq_true.
Qed.

Lemma inHandOf_true s task :
  inHandOf s task = true ↔
  ∃ wid th, workers s !! wid = Some th ∧ inHand (wpc th) = Some task.
Proof.
  unfold inHandOf. rewrite bool_decide_eq_true, Exists_exists. split.
  - intros (th & Hin & Hh). apply list_elem_of_lookup in Hin as [wid Hl].
    eauto.
  - intros (wid & th & Hl & Hh). exists th. split; [|done].
    by eapply list_elem_of_lookup_2.
Qed.

(** What a step does to the wait groups. *)
Lemma stepSend_wg tid b s s' :
  stepSend d tid b s = Some s' →
  (waitGroups s' = waitGroups s ∧ taskHeap s' = taskHeap s) ∨
  (∃ tk, taskHeap s' = taskHeap s ++ [tk] ∧ wg tk = tid ∧
         waitGroups s' = <[tid := S (wgCounter s tid)]> (waitGroups s)).
Proof.
  unfold stepSend, LoadOrStore. intros H.
  repeat (simplify_option_eq || case_match); simpl; try (by left).
  all: right; eexists; split; [reflexivity|]; done.
Qed.

Lemma stepWorker_wg wid s s' :
  stepWorker d wid s = Some s' →
  ∃ th, workers s !! wid = Some th ∧
    ((∃ task tk n, wpc th = AtWgDone task ∧
        taskHeap s !! task = Some tk ∧ wgCounter s (wg tk) = S n ∧
        waitGroups s' = <[wg tk := n]> (waitGroups s)) ∨
     ((∀ task, wpc th ≠ AtWgDone task) ∧ waitGroups s' = waitGroups s)).
Proof.
  unfold stepWorker, wgDone, recordOutcome, processEvent. intros H.
  repeat (simplify_option_eq || case_match); simpl;
    (eexists; split; [done|]).
  all: first [by right; split; [intros ? ?; congruence|done]
            |by left; eauto 10].
Qed.

Lemma inHandOf_inHands s task : inHandOf s task = true ↔ inHands s task.
Proof. apply inHandOf_true. Qed.

Lemma queued_inQueue s task :
  poolInv s → queued s task = true ↔ inQueue s task.
Proof.
  intros Hinv. rewrite queued_true. split.
  - intros (tk & w & _ & Hw & Hin). by exists (RoomID (unwrap (event tk))), w.
  - intros (r & w & Hw & Hin).
    destruct (queue_tasks _ Hinv _ _ _ Hw Hin) as (task' & tk & [= <-] & Hl & <-).
    eauto.
Qed.

Lemma outstanding_true s task :
  poolInv s → outstanding s task = true ↔ inQueue s task ∨ inHands s task.
Proof.
  intros Hinv. unfold outstanding.
  by rewrite orb_true_iff, queued_inQueue, inHandOf_inHands.
Qed.

Lemma outstanding_eq s s' task :
  poolInv s → poolInv s' →
  (inQueue s' task ∨ inHands s' task ↔ inQueue s task ∨ inHands s task) →
  outstanding s' task = outstanding s task.
Proof.
  intros Hs Hs' H. apply Bool.eq_true_iff_eq.
  by rewrite !outstanding_true.
Qed.

Lemma heapStep_same h h' :
  heapStep h h' → heapStep h' h →
  length h' = length h ∧
  ∀ task, wg <$> h' !! task = wg <$> h !! task.
Proof.
  intros Hfw Hbw. split.
  - destruct (decide (length h' = length h)) as [|Hne]; [done|exfalso].
    destruct (decide (length h < length h')).
    + destruct (lookup_lt_is_Some_2 h' (length h)) as [tk Hl]; [lia|].
      destruct (Hbw _ _ Hl) as (tk' & Hl' & _).
      apply lookup_lt_Some in Hl'. lia.
    + destruct (lookup_lt_is_Some_2 h (length h')) as [tk Hl]; [lia|].
      destruct (Hfw _ _ Hl) as (tk' & Hl' & _).
      apply lookup_lt_Some in Hl'. lia.
  - intros task. destruct (h !! task) as [tk|] eqn:Hl.
    + destruct (Hfw _ _ Hl) as (tk' & -> & _ & _ & _ & Hwg). simpl.
      by rewrite Hwg.
    + destruct (h' !! task) as [tk'|] eqn:Hl'; [|done].
      destruct (Hbw _ _ Hl') as (tk & Hl2 & _). congruence.
Qed.

(** A step that moves no task in or out leaves every wait group owed
    what it was. *)
Lemma owed_same s s' g :
  poolInv s → poolInv s' →
  length (taskHeap s') = length (taskHeap s) →
  (∀ task, wg <$> taskHeap s' !! task = wg <$> taskHeap s !! task) →
  (∀ task, inQueue s' task ∨ inHands s' task ↔
           inQueue s task ∨ inHands s task) →
  owed s' g = owed s g.
Proof.
  intros Hs Hs' Hlen Hwg Hout. unfold owed. rewrite Hlen.
  apply countBelow_ext. intros task _. unfold owes.
  by rewrite Hwg, (outstanding_eq s s' task).
Qed.

Lemma wgCounter_insert s s' g g' n :
  waitGroups s' = <[g' := n]> (waitGroups s) →
  wgCounter s' g = if decide (g = g') then n else wgCounter s g.
Proof.
  intros H. unfold wgCounter. rewrite H. case_decide; subst.
  - by rewrite lookup_insert_eq.
  - by rewrite lookup_insert_ne.
Qed.

Lemma wgInv_stepSend tid b s s' :
  poolInv s → wgInv s → stepSend d tid b s = Some s' → wgInv s'.
Proof.
  intros Hpool Hwg Hstep g.
  pose proof (poolInv_stepSend d _ _ _ _ Hpool Hstep) as Hpool'.
  destruct (stepSend_pool d _ _ _ _ Hstep)
    as [(Hi & Hh & Hw)
       |[(tk & w0 & Hw0 & Hh & Hi & Hw)
        |(r & w & Hl & Hrun & Hi & Hw & Hh)]];
    destruct (stepSend_wg _ _ _ _ Hstep)
      as [[Hg Hh']|(tk' & Hh' & Hwgtk & Hg)];
    try (rewrite Hh in Hh'; apply (f_equal length) in Hh';
         rewrite length_app in Hh'; simpl in Hh'; lia).
  - (* nothing moves *)
    unfold wgCounter. rewrite Hg. fold (wgCounter s g). rewrite Hwg.
    symmetry. apply owed_same; try done; try (by rewrite Hh).
    intros task. unfold inQueue, inHands. by rewrite Hi, Hw.
  - (* a task is pushed *)
    rewrite Hh in Hh'. apply app_inj_tail in Hh' as [_ <-].
    rewrite (wgCounter_insert _ _ _ _ _ Hg).
    unfold owed. rewrite Hh, length_app. simpl.
    rewrite Nat.add_1_r. simpl.
    assert (owes s' g (length (taskHeap s)) = bool_decide (g = tid)) as ->.
    { unfold owes. rewrite Hh, list_lookup_middle by done. simpl.
      rewrite Hwgtk.
      assert (outstanding s' (length (taskHeap s)) = true) as ->.
      { apply outstanding_true; [done|]. left.
        eexists _, _. split; [by rewrite Hi, lookup_insert_eq|].
        simpl. apply elem_of_app. right. apply list_elem_of_here. }
      simpl. apply bool_decide_ext. split; congruence. }
    assert (countBelow (owes s' g) (length (taskHeap s)) = owed s g) as ->.
    { apply countBelow_ext. intros task Htask. unfold owes.
      rewrite Hh, lookup_app_l by done. f_equal.
      apply outstanding_eq; [done..|].
      unfold inHands. rewrite Hw.
      enough (inQueue s' task ↔ inQueue s task) as -> by done.
      unfold inQueue. rewrite Hi. split.
      - intros (r & w & Hl & Hin).
        rewrite lookup_insert in Hl. case_decide as Hr.
        + injection Hl as <-. simpl in Hin.
          apply elem_of_app in Hin as [Hin|Hin];
            [|apply list_elem_of_singleton in Hin; injection Hin; lia].
          destruct Hw0 as [Hw0|[_ ->]];
            [|by apply elem_of_nil in Hin]. subst r. eauto.
        + eauto.
      - intros (r & w & Hl & Hin).
        destruct (decide (RoomID (unwrap (event tk)) = r)) as [<-|Hne].
        + eexists _, _. split; [by rewrite lookup_insert_eq|]. simpl.
          destruct Hw0 as [Hw0|[Hw0 _]]; [|congruence].
          rewrite Hl in Hw0. injection Hw0 as <-.
          apply elem_of_app. by left.
        + exists r, w. by rewrite lookup_insert_ne. }
    rewrite <- Hwg. case_decide; subst.
    + by rewrite bool_decide_eq_true_2.
    + by rewrite bool_decide_eq_false_2.
  - (* a worker is started *)
    unfold wgCounter. rewrite Hg. fold (wgCounter s g). rewrite Hwg.
    symmetry. apply owed_same; try done; try (by rewrite Hh).
    intros task.
    assert (inQueue s' task ↔ inQueue s task) as ->.
    { unfold inQueue. rewrite Hi. split.
      - intros (r' & w' & Hl' & Hin).
        rewrite lookup_insert in Hl'. case_decide as Hr.
        + injection Hl' as <-. subst r'. eauto.
        + eauto.
      - intros (r' & w' & Hl' & Hin).
        destruct (decide (r = r')) as [<-|Hne].
        + eexists _, _. split; [by rewrite lookup_insert_eq|]. simpl.
          congruence.
        + exists r', w'. by rewrite lookup_insert_ne. }
    assert (inHands s' task ↔ inHands s task) as ->; [|done].
    unfold inHands. rewrite Hw. split.
    + intros (wid & th & Hl' & Hin).
      apply lookup_snoc_Some in Hl' as [[_ Hl']|[_ <-]]; [eauto|done].
    + intros (wid & th & Hl' & Hin). exists wid, th. split; [|done].
      by apply lookup_app_l_Some.
Qed.

Lemma inHands_moved s s' wid th pc' :
  workers s !! wid = Some th →
  workers s' = alter (λ th, mkWorkerThread (room th) pc') wid (workers s) →
  ∀ task, inHands s' task ↔
  inHand pc' = Some task ∨
  ∃ wid' th', wid' ≠ wid ∧ workers s !! wid' = Some th' ∧
              inHand (wpc th') = Some task.
Proof.
  intros Hth Hw task. unfold inHands. rewrite Hw. split.
  - intros (wid' & th' & Hl & Hin).
    apply (lookup_wmoved _ _ _ _ _ _ Hth) in Hl as [[-> ->]|[Hne Hl]];
      [by left|right; eauto].
  - intros [Hin|(wid' & th' & Hne & Hl & Hin)].
    + exists wid, (mkWorkerThread (room th) pc'). split; [|done].
      rewrite list_lookup_alter, decide_True by done. by rewrite Hth.
    + exists wid', th'. split; [|done].
      by rewrite list_lookup_alter, decide_False.
Qed.

Lemma inHands_split s wid th :
  workers s !! wid = Some th →
  ∀ task, inHands s task ↔
  inHand (wpc th) = Some task ∨
  ∃ wid' th', wid' ≠ wid ∧ workers s !! wid' = Some th' ∧
              inHand (wpc th') = Some task.
Proof.
  intros Hth task. unfold inHands. split.
  - intros (wid' & th' & Hl & Hin).
    destruct (decide (wid' = wid)) as [->|Hne]; [|right; eauto].
    left. congruence.
  - intros [Hin|(wid' & th' & Hne & Hl & Hin)]; eauto.
Qed.

Lemma inQueue_same s s' r w q task :
  inputWorkers s !! r = Some w →
  inputWorkers s' = <[r := q]> (inputWorkers s) →
  tasks (input q) = tasks (input w) →
  inQueue s' task ↔ inQueue s task.
Proof.
  intros Hl Hi Hq. unfold inQueue. rewrite Hi. split.
  - intros (r' & w' & Hl' & Hin).
    rewrite lookup_insert in Hl'. case_decide as Hr.
    + injection Hl' as <-. subst r'. rewrite Hq in Hin. eauto.
    + eauto.
  - intros (r' & w' & Hl' & Hin).
    destruct (decide (r = r')) as [<-|Hne].
    + eexists _, _. split; [by rewrite lookup_insert_eq|]. rewrite Hq.
      congruence.
    + exists r', w'. by rewrite lookup_insert_ne.
Qed.

Lemma wgInv_stepWorker wid s s' :
  poolInv s → wgInv s → stepWorker d wid s = Some s' → wgInv s'.
Proof.
  intros Hpool Hwg Hstep g.
  pose proof (poolInv_stepWorker d _ _ _ Hpool Hstep) as Hpool'.
  destruct (stepWorker_pool d _ _ _ Hstep)
    as (th & pc' & Hth & Hw & Hfw & Hbw & Hcase).
  destruct (heapStep_same _ _ Hfw Hbw) as [Hlen Hsame].
  destruct (stepWorker_wg _ _ _ Hstep) as (th' & Hth' & Hg).
  rewrite Hth in Hth'. injection Hth' as <-.
  pose proof (inHands_moved _ _ _ _ _ Hth Hw) as Hmoved.
  pose proof (inHands_split s _ _ Hth) as Hsplit.
  destruct Hcase as [(w & q & frame & ok & Hpc & Hl & Hpop & Hi & Hpc')
                    |[(task & Hpc & Hpc' & Hi)
                     |[(task & Hpc & Hpc' & Hi)
                      |(w & Hpc & Hpc' & Hl & Hi)]]].
  - (* pop *)
    destruct Hg as [(? & ? & ? & ? & _)|[_ Hg]]; [congruence|].
    unfold wgCounter. rewrite Hg. fold (wgCounter s g). rewrite Hwg.
    symmetry. apply owed_same; try done.
    intros task. rewrite Hmoved, Hsplit, Hpc. simpl.
    destruct (pop_wf _ _ _ _ (queue_wf _ Hpool _ _ Hl) Hpop)
      as [(-> & -> & -> & Hnil)|(-> & Hcons & Hq)].
    + subst pc'. simpl.
      by rewrite (inQueue_same s s' _ _ _ task Hl Hi).
    + destruct (queue_tasks _ Hpool _ _ frame Hl)
        as (task0 & tk0 & -> & Hl0 & Hr0).
      { rewrite Hcons. apply list_elem_of_here. }
      subst pc'. simpl.
      assert (inQueue s task ↔ task0 = task ∨ inQueue s' task) as ->.
      { unfold inQueue. rewrite Hi. split.
        - intros (r' & w' & Hl' & Hin).
          destruct (decide (room th = r')) as [<-|Hne].
          + rewrite Hl in Hl'. injection Hl' as <-. rewrite Hcons in Hin.
            apply elem_of_cons in Hin as [[= ->]|Hin]; [by left|right].
            eexists _, _. split; [by rewrite lookup_insert_eq|done].
          + right. exists r', w'. by rewrite lookup_insert_ne.
        - intros [<-|(r' & w' & Hl' & Hin)].
          + exists (room th), w. split; [done|]. rewrite Hcons.
            apply list_elem_of_here.
          + rewrite lookup_insert in Hl'. case_decide as Hr.
            * injection Hl' as <-. simpl in Hin. exists (room th), w.
              split; [done|]. rewrite Hcons. by apply list_elem_of_further.
            * eauto. }
      split; intros H; repeat destruct H as [H|H]; simplify_eq; eauto.
  - (* the task is processed *)
    destruct Hg as [(? & ? & ? & ? & _)|[_ Hg]]; [congruence|].
    unfold wgCounter. rewrite Hg. fold (wgCounter s g). rewrite Hwg.
    symmetry. apply owed_same; try done.
    intros task'. rewrite Hmoved, Hsplit, Hpc. subst pc'. simpl.
    unfold inQueue. by rewrite Hi.
  - (* the wait group is told *)
    destruct Hg as [(task' & tk & n & Hpc2 & Hltk & Hn & Hg)|[Hg _]];
      [|by destruct (Hg task)].
    rewrite Hpc in Hpc2. injection Hpc2 as <-.
    rewrite (wgCounter_insert _ _ _ _ _ Hg).
    assert (∀ task', task' ≠ task →
              outstanding s' task' = outstanding s task') as Hrest.
    { intros task' Hne. apply outstanding_eq; [done..|].
      rewrite Hmoved, Hsplit, Hpc. subst pc'. simpl.
      unfold inQueue. rewrite Hi.
      split; intros H; repeat destruct H as [H|H]; simplify_eq; eauto. }
    assert (outstanding s task = true) as Hbefore.
    { apply outstanding_true; [done|]. right. exists wid, th.
      by rewrite Hpc. }
    assert (outstanding s' task = false) as Hafter.
    { apply not_true_is_false. rewrite outstanding_true by done.
      destruct (hand_older _ Hpool wid th task Hth) as [_ Hold];
        [by rewrite Hpc|].
      rewrite Hmoved. subst pc'. simpl.
      intros [(r & w & Hl & Hin)|[?|(wid' & th' & Hne & Hl' & Hin)]];
        [|done|].
      - rewrite Hi in Hl.
        destruct (queue_tasks _ Hpool _ _ _ Hl Hin)
          as (? & tk' & [= <-] & Hltk' & Hr).
        destruct (hand_older _ Hpool wid th task Hth) as [(tk2 & Hl2 & Hr2) _];
          [by rewrite Hpc|].
        rewrite Hltk' in Hl2. injection Hl2 as <-.
        rewrite <- Hr, Hr2 in Hl.
        apply list_elem_of_lookup in Hin as [i Hi'].
        specialize (Hold _ _ _ Hl Hi'). lia.
      - apply Hne.
        destruct (hand_older _ Hpool wid th task Hth) as [(tk2 & Hl2 & Hr2) _];
          [by rewrite Hpc|].
        destruct (hand_older _ Hpool wid' th' task Hl' Hin)
          as [(tk3 & Hl3 & Hr3) _].
        rewrite Hl2 in Hl3. injection Hl3 as <-.
        eapply (live_alone _ Hpool); [done..| | |congruence].
        + by eapply inHand_live.
        + by rewrite Hpc. }
    assert (task < length (taskHeap s)) as Hlt
      by (by eapply lookup_lt_Some).
    unfold owed. rewrite Hlen. case_decide as Hgw.
    + subst g.
      assert (countBelow (owes s (wg tk)) (length (taskHeap s)) =
              S (countBelow (owes s' (wg tk)) (length (taskHeap s)))) as Hr.
      { apply (countBelow_raise _ _ _ task); [done| | |].
        - unfold owes. by rewrite Hafter.
        - unfold owes. rewrite Hbefore, Hltk. simpl.
          by apply bool_decide_eq_true.
        - intros j _ Hj. unfold owes. by rewrite Hsame, Hrest. }
      pose proof (Hwg (wg tk)) as Hc. unfold owed in Hc.
      rewrite Hn, Hr in Hc. by injection Hc.
    + rewrite Hwg. unfold owed. apply countBelow_ext. intros j _.
      unfold owes. rewrite Hsame.
      destruct (decide (j = task)) as [->|Hj]; [|by rewrite Hrest].
      rewrite Hltk. simpl. rewrite (bool_decide_eq_false_2 (Some _ = _));
        [by rewrite !andb_false_r|congruence].
  - (* the flag is cleared *)
    destruct Hg as [(? & ? & ? & ? & _)|[_ Hg]]; [congruence|].
    unfold wgCounter. rewrite Hg. fold (wgCounter s g). rewrite Hwg.
    symmetry. apply owed_same; try done.
    intros task'. rewrite Hmoved, Hsplit, Hpc. subst pc'. simpl.
    by rewrite (inQueue_same s s' _ _ _ task' Hl Hi).
Qed.

Lemma wgInv_step act s s' :
  poolInv s → wgInv s → step d act s = Some s' → wgInv s'.
Proof.
  intros Hpool Hwg Hstep.
  destruct act as [a|tid pick|wid|id|dt]; simpl in Hstep;
    [|by eapply wgInv_stepSend|by eapply wgInv_stepWorker| |].
  all: repeat case_match; simplify_eq; intros g; exact (Hwg g).
Qed.

Lemma reachable_wgInv s : reachable d s → wgInv s.
Proof.
  induction 1 as [|s act s' Hr IH Hstep]; [done|].
  eapply wgInv_step; [|done..]. by eapply reachable_poolInv.
Qed.

Lemma owed_pos s task tk :
  poolInv s → taskHeap s !! task = Some tk →
  inQueue s task ∨ inHands s task → owed s (wg tk) ≠ 0.
Proof.
  intros Hpool Hl Hout Hz. unfold owed in Hz.
  rewrite countBelow_zero in Hz.
  specialize (Hz task (lookup_lt_Some _ _ _ Hl)). unfold owes in Hz.
  rewrite Hl in Hz. simpl in Hz.
  rewrite bool_decide_eq_true_2, andb_true_r in Hz by done.
  apply outstanding_true in Hout; [congruence|done].
Qed.

Lemma lookup_wgoto wid pc' s th :
  workers s !! wid = Some th →
  workers (wgoto wid pc' s) !! wid = Some (mkWorkerThread (room th) pc').
Proof.
  intros Hth. unfold wgoto. simpl.
  rewrite list_lookup_alter, decide_True by done. by rewrite Hth.
Qed.

(** X2.  A goroutine of [run] that has not finished can always take its
    next step: [pop] does not index an empty slice, the worker record of
    its room and the task it took are there, and [wg.Done] does not take
    the counter below zero.  What [pop] hands out is never a nil pointer:
    from the [pop] the worker goes on to a task, or, when the queue is
    empty, to the deferred [Store]. *)
Theorem worker_always_steps (s : State) (wid : nat) (th : WorkerThread) :
  reachable d s → workers s !! wid = Some th → live (wpc th) = true →
  ∃ s' th',
    stepWorker d wid s = Some s' ∧
    workers s' !! wid = Some th' ∧ room th' = room th ∧
    (wpc th = AtPop →
       ∃ w, inputWorkers s !! room th = Some w ∧
            (tasks (input w) = [] ∧ wpc th' = AtStoreRunning ∨
             ∃ task rest, tasks (input w) = Some task :: rest ∧
                          wpc th' = AtTask task)).
Proof.
  intros Hr Hth Hlive.
  pose proof (reachable_poolInv d _ Hr) as Hpool.
  pose proof (reachable_wgInv _ Hr) as Hwg.
  unfold stepWorker. rewrite Hth. simpl.
  destruct (wpc th) as [|task|task| |] eqn:Hpc; [| | | |done].
  - destruct (live_running _ Hpool _ _ Hth) as (w & Hl & _);
      [by rewrite Hpc|].
    rewrite Hl. simpl.
    destruct (pop_wf_Some _ (queue_wf _ Hpool _ _ Hl)) as [[[q frame] ok] Hpop].
    rewrite Hpop.
    destruct (pop_wf _ _ _ _ (queue_wf _ Hpool _ _ Hl) Hpop)
      as [(-> & -> & -> & Hnil)|(-> & Hcons & Hq)].
    + eexists _, _. split; [done|]. split; [by apply lookup_wgoto|].
      split; [done|]. intros _. exists w. split; [done|]. by left.
    + destruct (queue_tasks _ Hpool _ _ frame Hl)
        as (task0 & tk0 & -> & Hl0 & Hr0).
      { rewrite Hcons. apply list_elem_of_here. }
      eexists _, _. split; [done|]. split; [by apply lookup_wgoto|].
      split; [done|]. intros _. exists w. split; [done|]. right. eauto.
  - destruct (hand_older _ Hpool wid th task Hth) as [(tk & Hl & _) _];
      [by rewrite Hpc|].
    rewrite Hl. simpl.
    assert (∀ s0, workers s0 = workers s →
              ∃ s' th', Some (wgoto wid (AtWgDone task) s0) = Some s' ∧
                workers s' !! wid = Some th' ∧ room th' = room th ∧
                (AtTask task = AtPop →
                 ∃ w, inputWorkers s !! room th = Some w ∧
                   (tasks (input w) = [] ∧ wpc th' = AtStoreRunning ∨
                    ∃ task rest, tasks (input w) = Some task :: rest ∧
                                 wpc th' = AtTask task))) as Hgo.
    { intros s0 Hs0. eexists _, _. split; [done|].
      split; [apply lookup_wgoto; by rewrite Hs0|]. done. }
    destruct (ctxDone (world s) (ctx tk)); [by apply Hgo|].
    unfold recordOutcome, processEvent.
    destruct (SendEvents d Background (event tk) (Origin (t tk))) as [[]|];
      by apply Hgo.
  - destruct (hand_older _ Hpool wid th task Hth) as [(tk & Hl & _) _];
      [by rewrite Hpc|].
    rewrite Hl. simpl. unfold wgDone.
    destruct (wgCounter s (wg tk)) as [|n] eqn:Hn.
    + exfalso. rewrite (Hwg (wg tk)) in Hn.
      refine (owed_pos _ _ _ Hpool Hl _ Hn).
      right. exists wid, th. by rewrite Hpc.
    + simpl. eexists _, _. split; [done|].
      split; [by apply lookup_wgoto|]. done.
  - destruct (live_running _ Hpool _ _ Hth) as (w & Hl & _);
      [by rewrite Hpc|].
    rewrite Hl. simpl.
    eexists _, _. split; [done|]. split; [by apply lookup_wgoto|]. done.
Qed.

(** X3.  At any time there is at most one goroutine of [run] per room
    that has not finished, its room's flag [running] is set while it
    lives, and it has at most the one task in hand. *)
Theorem one_worker_per_room (s : State) :
  reachable d s →
  (∀ wid1 wid2 th1 th2,
     workers s !! wid1 = Some th1 → workers s !! wid2 = Some th2 →
     room th1 = room th2 →
     live (wpc th1) = true → live (wpc th2) = true → wid1 = wid2) ∧
  (∀ wid th,
     workers s !! wid = Some th → live (wpc th) = true →
     ∃ w, inputWorkers s !! room th = Some w ∧ running w = true) ∧
  (∀ task1 task2 tk1 tk2 wid1 wid2 th1 th2,
     taskHeap s !! task1 = Some tk1 → taskHeap s !! task2 = Some tk2 →
     RoomID (unwrap (event tk1)) = RoomID (unwrap (event tk2)) →
     workers s !! wid1 = Some th1 → inHand (wpc th1) = Some task1 →
     workers s !! wid2 = Some th2 → inHand (wpc th2) = Some task2 →
     task1 = task2).
Proof.
  intros Hr. pose proof (reachable_poolInv d _ Hr) as Hpool.
  split; [|split].
  - intros wid1 wid2 th1 th2 H1 H2 Hroom Hl1 Hl2.
    by eapply (live_alone _ Hpool).
  - apply (live_running _ Hpool).
  - intros task1 task2 tk1 tk2 wid1 wid2 th1 th2 Ht1 Ht2 Hroom H1 Hh1 H2 Hh2.
    destruct (hand_older _ Hpool _ _ _ H1 Hh1) as [(tk1' & Ht1' & Hr1) _].
    destruct (hand_older _ Hpool _ _ _ H2 Hh2) as [(tk2' & Ht2' & Hr2) _].
    simplify_eq.
    assert (wid1 = wid2) as ->.
    { eapply (live_alone _ Hpool); [done..| | |congruence];
        by eapply inHand_live. }
    congruence.
Qed.


(** X6.  The counter of a wait group is never below the number of tasks
    that point to it and are still in a queue or in the hand of a worker;
    while its invocation stands at [wg.Wait()] it is that number, so that
    [wg.Wait()] returns exactly when no task of the invocation is left in
    a queue or in a worker's hand; and the [wg.Done()] of a worker finds
    the counter above zero. *)
Theorem wait_group_counts_outstanding (s : State) (g : nat) :
  reachable d s →
  owed s g ≤ wgCounter s g ∧
  (∀ th ch f,
     sends s !! g = Some th → pc th = AtWait ch f →
     wgCounter s g = owed s g ∧
     (wgIdle s g = true ↔
      ∀ task tk, taskHeap s !! task = Some tk → wg tk = g →
                 ¬ inQueue s task ∧ ¬ inHands s task)) ∧
  (∀ wid th task tk,
     workers s !! wid = Some th → wpc th = AtWgDone task →
     taskHeap s !! task = Some tk → wg tk = g → 0 < wgCounter s g).
Proof.
  intros Hr.
  pose proof (reachable_poolInv d _ Hr) as Hpool.
  pose proof (reachable_wgInv _ Hr) as Hwg.
  split; [by rewrite (Hwg g)|]. split.
  - intros th ch f _ _. split; [done|].
    unfold wgIdle. rewrite bool_decide_eq_true, (Hwg g). unfold owed.
    rewrite countBelow_zero. split.
    + intros Hz task tk Hl <-.
      specialize (Hz task (lookup_lt_Some _ _ _ Hl)). unfold owes in Hz.
      rewrite Hl in Hz. simpl in Hz.
      rewrite bool_decide_eq_true_2, andb_true_r in Hz by done.
      apply not_true_iff_false in Hz.
      rewrite outstanding_true in Hz by done. tauto.
    + intros H task Htask. unfold owes.
      destruct (taskHeap s !! task) as [tk|] eqn:Hl; simpl;
        [|by rewrite andb_false_r].
      destruct (decide (wg tk = g)) as [Hg|Hg].
      * destruct (H _ _ Hl Hg) as [Hq Hh].
        assert (outstanding s task = false) as ->; [|done].
        apply not_true_iff_false. rewrite outstanding_true by done. tauto.
      * rewrite (bool_decide_eq_false_2 (Some _ = _)) by congruence.
        by rewrite andb_false_r.
  - intros wid th task tk Hth Hpc Hl <-.
    enough (wgCounter s (wg tk) ≠ 0) by lia. rewrite (Hwg (wg tk)).
    refine (owed_pos _ _ _ Hpool Hl _).
    right. exists wid, th. by rewrite Hpc.
Qed.

(** X5.  A wake-up can be lost.  When an invocation has pushed a task and
    is about to try the flag of the room's worker, while that worker has
    found its queue empty and is about to clear the flag, the invocation
    finds the flag set and starts nothing, and the worker clears the flag
    and finishes: the room is left with its queue as it was, with no
    goroutine to serve it and a cleared flag, and the wait group of every
    task in that queue stays above zero. *)
Theorem lost_wakeup (s : State) (tid : nat) (th : SendThread) (ch : nat)
    (f : frame) (pdus : list string) (r : string) (wid : nat)
    (wth : WorkerThread) (w : inputWorker) (b : bool) :
  reachable d s →
  sends s !! tid = Some th → pc th = AtCAS ch f pdus r →
  workers s !! wid = Some wth → room wth = r → wpc wth = AtStoreRunning →
  inputWorkers s !! r = Some w →
  ∃ s',
    run d [StepSend tid b; StepWorker wid] s = Some s' ∧
    sends s' !! tid = Some (mkSend (args th) (AtPDU ch f pdus)) ∧
    inputWorkers s' !! r = Some {| running := false; input := input w |} ∧
    (∀ wid' th', workers s' !! wid' = Some th' → room th' = r →
                 wpc th' = Exited) ∧
    (∀ task, Some task ∈ tasks (input w) →
       stranded s' r task ∧
       ∃ tk, taskHeap s' !! task = Some tk ∧
             RoomID (unwrap (event tk)) = r ∧
             wgIdle s' (wg tk) = false).
Proof.
  intros Hr Hth Hpc Hwth Hroom Hwpc Hw.
  pose proof (reachable_poolInv d _ Hr) as Hpool.
  destruct (live_running _ Hpool _ _ Hwth) as (w' & Hw' & Hrun);
    [by rewrite Hwpc|].
  rewrite Hroom, Hw in Hw'. injection Hw' as <-.
  assert (stepSend d tid b s = Some (goto tid (AtPDU ch f pdus) s)) as Hs1.
  { unfold stepSend. rewrite Hth. simpl. rewrite Hpc, Hw. simpl.
    by rewrite Hrun. }
  set (s1 := goto tid (AtPDU ch f pdus) s) in *.
  assert (stepWorker d wid s1 =
          Some (wgoto wid Exited
                  (set_inputWorkers
                     (<[r := {| running := false; input := input w |}]>
                        (inputWorkers s1)) s1))) as Hs2.
  { unfold stepWorker.
    change (workers s1) with (workers s). rewrite Hwth. simpl.
    rewrite Hwpc, Hroom.
    change (inputWorkers s1) with (inputWorkers s). by rewrite Hw. }
  eexists. split; [simpl; rewrite Hs1; simpl; by rewrite Hs2|].
  assert (reachable d
            (wgoto wid Exited
               (set_inputWorkers
                  (<[r := {| running := false; input := input w |}]>
                     (inputWorkers s1)) s1))) as Hr'.
  { apply (reachable_step d s1 (StepWorker wid)); [|done].
    by apply (reachable_step d s (StepSend tid b)). }
  split; [by apply lookup_moved_eq|].
  split; [simpl; by rewrite lookup_insert_eq|].
  assert (∀ wid' th',
            workers
              (wgoto wid Exited
                 (set_inputWorkers
                    (<[r := {| running := false; input := input w |}]>
                       (inputWorkers s1)) s1)) !! wid' = Some th' →
            room th' = r → wpc th' = Exited) as Hgone.
  { intros wid' th'. simpl.
    intros [[-> ->]|[Hne Hl]]%(lookup_wmoved _ _ _ _ _ _ Hwth) Hr2; [done|].
    destruct (wpc th') eqn:Hpc'; try done; exfalso; apply Hne;
      (eapply (live_alone _ Hpool);
       [done|done|by rewrite Hpc'|by rewrite Hwpc|congruence]). }
  split; [done|].
  intros task Hin. split.
  - split; [|done].
    exists {| running := false; input := input w |}.
    split; [simpl; by rewrite lookup_insert_eq|done].
  - pose proof (reachable_poolInv d _ Hr') as Hpool'.
    pose proof (reachable_wgInv _ Hr') as Hwg'.
    destruct (queue_tasks _ Hpool' r
                {| running := false; input := input w |} (Some task))
      as (task' & tk & [= <-] & Hl & Hrm);
      [simpl; by rewrite lookup_insert_eq|done|].
    exists tk. split; [done|]. split; [done|].
    unfold wgIdle. apply bool_decide_eq_false. rewrite (Hwg' (wg tk)).
    refine (owed_pos _ _ _ Hpool' Hl _). left.
    exists r, {| running := false; input := input w |}.
    split; [simpl; by rewrite lookup_insert_eq|done].
Qed.

End wg_facts.

(** ** What [Send] answers *)

Section answer_facts.
Import answers.
Context (d : Deps).

Lemma leaderResponse_cases a :
  (∃ msg, unmarshalTxn d (requestContent a) = inl msg ∧
     leaderResponse d a =
       {| Code := 400;
          JSON := JSONError (NotJSON
            ("The request body could not be decoded into valid JSON. "
             +:+ msg)) |}) ∨
  leaderResponse d a = tooLargeResponse ∨
  leaderResponse d a = badPDUResponse ∨
  (∃ tx results events,
     decodeTransaction d a = inr tx ∧
     examine d (Origin tx) (PDUs tx) ∅ [] = inr (results, events) ∧
     leaderResponse d a =
       {| Code := 200; JSON := JSONRespSend (settle events results) |}).
Proof.
  unfold leaderResponse, decodeTransaction.
  destruct (unmarshalTxn d (requestContent a)) as [msg|[pdus edus]] eqn:Hu.
  - left. eauto.
  - destruct (tooLarge pdus edus); [by right; left|]. simpl.
    destruct (examine d (requestOrigin a) pdus ∅ []) as [res|[results events]]
      eqn:He.
    + right; right; left. by eapply examine_inl.
    + right; right; right. eauto 10.
Qed.

(** The two ways into a return: out of the [select] of a follower, and
    out of the deferred [close] of a leader. *)
Lemma stepSend_returns tid b s s' th res :
  stepSend d tid b s = Some s' → sends s !! tid = Some th →
  sends s' !! tid = Some (mkSend (args th) (Returned res)) →
  (∃ ch ctx, pc th = AtSelect ch ctx ∧
     (res = timedOut ∨
      ∃ c c' v, chans s !! ch = Some c ∧ recv c = Some (c', v) ∧
                res = if (Code v =? 0)%Z then accepted else v)) ∨
  (∃ ch, pc th = AtDeferredClose ch res).
Proof.
  unfold stepSend, LoadOrStore. intros H Hth. rewrite Hth in H. simpl in H.
  repeat (simplify_option_eq || case_match);
    rewrite (lookup_moved_eq _ _ _ _ Hth); intros [= <-].
  - left. eauto.
  - left. eexists _, _. split; [done|]. right. eexists _, _, _.
    split; [eassumption|]. split; [eassumption|].
    by match goal with H : (_ =? _)%Z = _ |- _ => rewrite H end.
  - left. eexists _, _. split; [done|]. right. eexists _, _, _.
    split; [eassumption|]. split; [eassumption|].
    by match goal with H : (_ =? _)%Z = _ |- _ => rewrite H end.
  - right. eauto.
Qed.

Lemma reachable_isAnswer s :
  reachable d s →
  ∀ tid th res, sends s !! tid = Some th → pc th = Returned res →
                isAnswer d (args th) res.
Proof.
  induction 1 as [|s act s' Hr IH Hstep]; [done|].
  intros tid th res Hth Hpc.
  pose proof (reachable_registryInv d _ Hr) as Hreg.
  pose proof (reachable_chansInv d _ Hr) as Hch.
  destruct act as [a|tid0 pick|wid|id|dt]; simpl in Hstep.
  - simplify_eq. simpl in Hth.
    apply lookup_snoc_Some in Hth as [[_ Hth]|[_ <-]]; [eauto|done].
  - pose proof Hstep as Hstep0.
    apply stepSend_registry in Hstep as (th0 & pc' & Hth0 & Hs & _).
    rewrite Hs in Hth.
    apply (lookup_moved _ _ _ _ _ _ Hth0) in Hth as [[-> ->]|[Hne Hth]];
      [|eauto].
    simpl in *. subst pc'.
    pose proof (reachable_framesInv d _ Hr _ _ Hth0) as Hfr.
    destruct (stepSend_returns _ _ _ _ _ res Hstep0 Hth0)
      as [(ch & ctx & Hpc0 & [->|(c & c' & v & Hc & Hrecv & ->)])
         |(ch & Hpc0)].
    + rewrite Hs. by apply lookup_moved_eq.
    + by left.
    + destruct (follow_maker _ Hreg _ _ _ _ Hth0 Hpc0)
        as (c0 & thm & Hc0 & Hthm & Hi & _).
      rewrite Hc in Hc0. injection Hc0 as <-.
      destruct (Code v =? 0)%Z eqn:Hz; [by right; left|].
      unfold recv in Hrecv. destruct (buf c) as [|v0 rest] eqn:Hb.
      * destruct (closed c); by simplify_eq.
      * simplify_eq.
        destruct (buffered _ _ Hch ch c v Hc) as (th' & Hl' & Hv & Hcode).
        { rewrite Hb. apply list_elem_of_here. }
        right; right; right. exists (args thm).
        split; [done|]. split; [congruence|done].
    + rewrite Hpc0 in Hfr. simpl in Hfr. right; right; left. done.
  - apply stepWorker_registry in Hstep as (Hs & _). rewrite Hs in Hth. eauto.
  - simplify_eq. eauto.
  - case_match; simplify_eq. eauto.
Qed.

Lemma leaderResponse_OK a :
  Code (leaderResponse d a) = 200%Z →
  ∃ m, JSON (leaderResponse d a) = JSONRespSend m.
Proof.
  destruct (leaderResponse_cases a)
    as [(msg & _ & ->)|[->|[->|(tx & results & events & _ & _ & ->)]]];
    try done. eauto.
Qed.

Lemma leaderResponse_kinds a :
  (Code (leaderResponse d a) = 200%Z ∧
   ∃ m, JSON (leaderResponse d a) = JSONRespSend m) ∨
  (Code (leaderResponse d a) = 400%Z ∧
   ∃ e, JSON (leaderResponse d a) = JSONError e ∧
        (ErrCode e = "M_NOT_JSON" ∨ ErrCode e = "M_BAD_JSON")).
Proof.
  destruct (leaderResponse_cases a)
    as [(msg & _ & ->)|[->|[->|(tx & results & events & _ & _ & ->)]]].
  - right. split; [done|]. eexists. split; [done|]. by left.
  - right. split; [done|]. eexists. split; [done|]. by right.
  - right. split; [done|]. eexists. split; [done|]. by right.
  - left. split; [done|]. eauto.
Qed.

(** X8.  What [Send] returns, by the role of the invocation.  Whatever
    has been returned is 408 without a body, 202 without a body, 200 with
    the map of PDU results, or 400 with a Matrix error whose errcode is
    [M_NOT_JSON] or [M_BAD_JSON]; there is no 500.  A follower, which
    returns out of its [select], returns 408, 202 or the 200 response
    that the invocation whose channel it waits on, a leader for the same
    index, has worked out; when that leader rejects its transaction, the
    follower returns 408 or 202, never the rejection.  A 400 is returned
    only by a leader, out of its deferred [close], and is what it has
    worked out for its own request. *)
Theorem send_answers (s : State) :
  reachable d s →
  (∀ tid th res,
     sends s !! tid = Some th → pc th = Returned res →
     res = timedOut ∨ res = accepted ∨
     (Code res = 200%Z ∧ ∃ m, JSON res = JSONRespSend m) ∨
     (Code res = 400%Z ∧
      ∃ e, JSON res = JSONError e ∧
           (ErrCode e = "M_NOT_JSON" ∨ ErrCode e = "M_BAD_JSON"))) ∧
  (∀ tid th ch ctx b s',
     sends s !! tid = Some th → pc th = AtSelect ch ctx →
     stepSend d tid b s = Some s' →
     ∃ res c leader,
       sends s' !! tid = Some (mkSend (args th) (Returned res)) ∧
       chans s !! ch = Some c ∧ maker c ≠ tid ∧
       sends s !! maker c = Some leader ∧
       index (args leader) = index (args th) ∧
       (res = timedOut ∨ res = accepted ∨
        (res = leaderResponse d (args leader) ∧ Code res = 200%Z ∧
         ∃ m, JSON res = JSONRespSend m)) ∧
       (Code (leaderResponse d (args leader)) = 400%Z →
        res = timedOut ∨ res = accepted)) ∧
  (∀ tid th b s' res,
     sends s !! tid = Some th → stepSend d tid b s = Some s' →
     sends s' !! tid = Some (mkSend (args th) (Returned res)) →
     Code res = 400%Z →
     ∃ ch, pc th = AtDeferredClose ch res ∧
           owns (pc th) = Some ch ∧
           res = leaderResponse d (args th)).
Proof.
  intros Hr.
  pose proof (reachable_registryInv d _ Hr) as Hreg.
  pose proof (reachable_chansInv d _ Hr) as Hch.
  assert (∀ tid th ch ctx b s' res,
            sends s !! tid = Some th → pc th = AtSelect ch ctx →
            stepSend d tid b s = Some s' →
            sends s' !! tid = Some (mkSend (args th) (Returned res)) →
            ∃ c leader,
              chans s !! ch = Some c ∧ maker c ≠ tid ∧
              sends s !! maker c = Some leader ∧
              index (args leader) = index (args th) ∧
              (res = timedOut ∨ res = accepted ∨
               (res = leaderResponse d (args leader) ∧ Code res = 200%Z)))
    as Hfollow.
  { intros tid th ch ctx b s' res Hth Hpc Hstep Hth'.
    destruct (follow_maker _ Hreg _ _ _ _ Hth Hpc)
      as (c & leader & Hc & Hl & Hi & Hne).
    exists c, leader. repeat (split; [done|]).
    destruct (stepSend_returns _ _ _ _ _ _ Hstep Hth Hth')
      as [(ch' & ctx' & Hpc' & [->|(c0 & c' & v & Hc0 & Hrecv & ->)])
         |(ch' & Hpc')]; [by left| |congruence].
    rewrite Hpc in Hpc'. injection Hpc' as <- <-.
    rewrite Hc in Hc0. injection Hc0 as <-.
    destruct (Code v =? 0)%Z eqn:Hz; [by right; left|].
    unfold recv in Hrecv. destruct (buf c) as [|v0 rest] eqn:Hb.
    - destruct (closed c); by simplify_eq.
    - simplify_eq.
      destruct (buffered _ _ Hch ch c v Hc) as (th' & Hl' & Hv & Hcode).
      { rewrite Hb. apply list_elem_of_here. }
      right; right. split; [congruence|done]. }
  split; [|split].
  - intros tid th res Hth Hpc.
    destruct (reachable_isAnswer _ Hr _ _ _ Hth Hpc)
      as [->|[->|[->|(a' & _ & -> & Hcode)]]];
      [by left|by right; left| |].
    + right; right. apply leaderResponse_kinds.
    + right; right; left. split; [done|]. by apply leaderResponse_OK.
  - intros tid th ch ctx b s' Hth Hpc Hstep.
    assert (∃ res, sends s' !! tid = Some (mkSend (args th) (Returned res)))
      as [res Hth'].
    { revert Hstep. unfold stepSend. rewrite Hth. simpl. rewrite Hpc.
      intros Hstep.
      repeat (simplify_option_eq || case_match);
        eexists; by apply lookup_moved_eq. }
    destruct (Hfollow _ _ _ _ _ _ _ Hth Hpc Hstep Hth')
      as (c & leader & Hc & Hne & Hl & Hi & Hres).
    exists res, c, leader. repeat (split; [done|]). split.
    + destruct Hres as [?|[?|[-> Hcode]]]; [by left|by right; left|].
      right; right. split; [done|]. split; [done|].
      by apply leaderResponse_OK.
    + intros H400. destruct Hres as [?|[?|[-> Hcode]]];
        [by left|by right|congruence].
  - intros tid th b s' res Hth Hstep Hth' H400.
    destruct (stepSend_returns _ _ _ _ _ _ Hstep Hth Hth')
      as [(ch & ctx & Hpc & _)|(ch & Hpc)].
    + destruct (Hfollow _ _ _ _ _ _ _ Hth Hpc Hstep Hth')
        as (_ & _ & _ & _ & _ & _ & [->|[->|[_ Hcode]]]);
        [done|done|congruence].
    + exists ch. split; [done|]. split; [by rewrite Hpc|].
      pose proof (reachable_framesInv d _ Hr _ _ Hth) as Hfr.
      by rewrite Hpc in Hfr.
Qed.

(** X9.  The registry does not leak: every entry belongs to an invocation
    with that index that is still inside [Send] and leads, and maps to
    the channel that invocation made; so when all invocations have
    returned the registry is empty. *)
Theorem registry_entries_are_live (s : State) :
  reachable d s →
  (∀ key ch,
     inFlightTxnsPerOrigin s !! key = Some ch →
     ∃ tid th c, sends s !! tid = Some th ∧ index (args th) = key ∧
                 inSend (pc th) = true ∧ owns (pc th) = Some ch ∧
                 chans s !! ch = Some c ∧ maker c = tid ∧
                 closed c = false) ∧
  ((∀ tid th, sends s !! tid = Some th → inSend (pc th) = false) →
   inFlightTxnsPerOrigin s = ∅).
Proof.
  intros Hr. pose proof (reachable_registryInv d _ Hr) as Hreg.
  assert (∀ key ch,
     inFlightTxnsPerOrigin s !! key = Some ch →
     ∃ tid th c, sends s !! tid = Some th ∧ index (args th) = key ∧
                 inSend (pc th) = true ∧ owns (pc th) = Some ch ∧
                 chans s !! ch = Some c ∧ maker c = tid ∧
                 closed c = false) as Hlive.
  { intros key ch Hl.
    destruct (entry_held _ Hreg _ _ Hl) as (tid & th & Hth & Hi & Hh).
    destruct (own_chan _ Hreg _ _ _ Hth (holds_owns _ _ Hh))
      as (c & Hc & Hm & Hcl).
    exists tid, th, c. repeat split; try done; [|by apply holds_owns].
    by destruct (pc th). }
  split; [done|]. intros Hall. apply map_empty. intros key.
  destruct (inFlightTxnsPerOrigin s !! key) as [ch|] eqn:Hl; [|done].
  destruct (Hlive _ _ Hl) as (tid & th & c & Hth & _ & Hin & _).
  rewrite (Hall _ _ Hth) in Hin. done.
Qed.

End answer_facts.

(** ** The index of a transaction *)

Section index_facts.
Import answers.

Lemma append_NUL_inj o1 o2 t1 t2 :
  contains NUL o1 = false → contains NUL o2 = false →
  (o1 +:+ String NUL t1 = o2 +:+ String NUL t2)%string →
  o1 = o2 ∧ t1 = t2.
Proof.
  revert o2. induction o1 as [|c o1 IH]; intros [|c' o2]; simpl.
  - by intros _ _ [= ->].
  - intros _ Hc [= <- _]. by rewrite bool_decide_eq_true_2 in Hc.
  - intros Hc _ [= -> _]. by rewrite bool_decide_eq_true_2 in Hc.
  - intros [_ H1]%orb_false_elim [_ H2]%orb_false_elim [= -> Heq].
    destruct (IH _ H1 H2 Heq) as [-> ->]. done.
Qed.

Lemma append_assoc_string (a b c : string) :
  ((a +:+ b) +:+ c = a +:+ (b +:+ c))%string.
Proof.
  induction a as [|x a IH]; [done|].
  change (String x ((a +:+ b) +:+ c) = String x (a +:+ (b +:+ c))).
  by f_equal.
Qed.

(** X10.  The index tells transactions apart as long as server names have
    no NUL byte: two requests whose origins are free of it have the same
    index only if they have the same origin and the same transaction
    ID.  Without that the index can clash: an origin that goes on after
    a NUL byte is read as the beginning of the transaction ID. *)
Theorem index_injective (a b : SendArgs) :
  contains NUL (requestOrigin a) = false →
  contains NUL (requestOrigin b) = false →
  (index a = index b ↔
   requestOrigin a = requestOrigin b ∧ txnID a = txnID b) ∧
  (∀ t,
     index {| httpReqContext := httpReqContext a;
              requestOrigin := requestOrigin a +:+ String NUL t;
              requestContent := requestContent a;
              txnID := txnID a;
              serverName := serverName a |} =
     index {| httpReqContext := httpReqContext a;
              requestOrigin := requestOrigin a;
              requestContent := requestContent a;
              txnID := t +:+ String NUL (txnID a);
              serverName := serverName a |}).
Proof.
  intros Ha Hb. split.
  - split.
    + unfold index. intros H. by apply append_NUL_inj.
    + unfold index. by intros [-> ->].
  - intros t. unfold index. simpl. by rewrite !append_assoc_string.
Qed.

End index_facts.

(** ** The EDUs of a transaction *)

Section edu_facts.
Import edus.
Context (T : EDUTypes) (D : Decoders).

Lemma processEDUs_fold ctx tx o :
  processEDUs T D ctx tx o =
  {| counted := counted o + length (EDUs tx);
     calls := foldl (processEDU T D ctx (Origin tx)) (calls o) (EDUs tx) |}.
Proof.
  unfold processEDUs. generalize (EDUs tx) as es. intros es. revert o.
  induction es as [|e es IH]; intros o; simpl.
  - destruct o. simpl. f_equal. lia.
  - rewrite IH. simpl. f_equal. lia.
Qed.

Lemma passedOver_processEDU ctx origin cs e :
  NoDup [MTyping T; MDirectToDevice T; MDeviceListUpdate T; MReceipt T;
         MSigningKeyUpdate T] →
  passedOver T D e → processEDU T D ctx origin cs e = cs.
Proof.
  intros Hnd Hp. unfold processEDU, processDeviceListUpdate.
  apply NoDup_cons in Hnd as [H1 Hnd]. apply NoDup_cons in Hnd as [H2 Hnd].
  apply NoDup_cons in Hnd as [H3 Hnd]. apply NoDup_cons in Hnd as [H4 _].
  assert (∀ (x y : string) (l : list string),
            x ∉ l → Type_ e = y → y ∈ l → Type_ e ≠ x)
    as Hne by (intros x y l Hx Hy Hin Heq; apply Hx; congruence).
  destruct Hp as [[Ht Hu]|[[Ht Hu]|[[Ht Hu]|[[Ht Hu]|[[Ht Hu]|Hp]]]]].
  - rewrite decide_True by done. by rewrite Hu.
  - rewrite decide_False
      by (eapply (Hne _ _ _ H1 Ht); repeat constructor).
    rewrite decide_True by done. by rewrite Hu.
  - rewrite decide_False
      by (eapply (Hne _ _ _ H1 Ht); repeat constructor).
    rewrite decide_False
      by (eapply (Hne _ _ _ H2 Ht); repeat constructor).
    rewrite decide_True by done. by rewrite Hu.
  - rewrite decide_False
      by (eapply (Hne _ _ _ H1 Ht); repeat constructor).
    rewrite decide_False
      by (eapply (Hne _ _ _ H2 Ht); repeat constructor).
    rewrite decide_False
      by (eapply (Hne _ _ _ H3 Ht); repeat constructor).
    rewrite decide_True by done. by rewrite Hu.
  - rewrite decide_False
      by (eapply (Hne _ _ _ H1 Ht); repeat constructor).
    rewrite decide_False
      by (eapply (Hne _ _ _ H2 Ht); repeat constructor).
    rewrite decide_False
      by (eapply (Hne _ _ _ H3 Ht); repeat constructor).
    rewrite decide_False
      by (eapply (Hne _ _ _ H4 Ht); repeat constructor).
    rewrite decide_True by done. by rewrite Hu.
  - destruct Hp as (? & ? & ? & ? & ?). by rewrite !decide_False by done.
Qed.

Lemma foldl_extends {A} (P : Call → Prop)
    (f : list Call → A → list Call) (l : list A) :
  (∀ cs x, ∃ new, f cs x = cs ++ new ∧ Forall P new) →
  ∀ cs, ∃ new, foldl f cs l = cs ++ new ∧ Forall P new.
Proof.
  intros Hf. induction l as [|x l IH]; intros cs; simpl.
  - exists []. by rewrite app_nil_r.
  - destruct (Hf cs x) as (new1 & -> & H1).
    destruct (IH (cs ++ new1)) as (new2 & -> & H2).
    exists (new1 ++ new2). rewrite app_assoc. split; [done|].
    by apply Forall_app.
Qed.

Lemma extends_nil (P : Call → Prop) cs :
  ∃ new, cs = cs ++ new ∧ Forall P new.
Proof. exists []. by rewrite app_nil_r. Qed.

Lemma extends_one (P : Call → Prop) cs c :
  P c → ∃ new, cs ++ [c] = cs ++ new ∧ Forall P new.
Proof. intros Hc. exists [c]. split; [done|]. by constructor. Qed.

Lemma processReceiptEvent_calls ctx userID roomID ty ts eventIDs : ∀ cs,
  ∃ n, n ≤ length eventIDs ∧
    (processReceiptEvent D ctx userID roomID ty ts eventIDs cs).1 =
      cs ++ receiptCalls ctx userID roomID ty ts eventIDs n.
Proof.
  unfold receiptCalls.
  induction eventIDs as [|eventID eventIDs IH]; intros cs; simpl.
  - exists 0. by rewrite app_nil_r.
  - destruct (InputReceiptEventError D cs _) as [err|]; simpl.
    + exists 1. split; [lia|]. simpl. by rewrite ?take_0.
    + destruct (IH (cs ++ [InputReceiptEvent ctx userID roomID eventID ty ts]))
        as (n & Hn & ->).
      exists (S n). split; [lia|]. simpl. by rewrite <- app_assoc.
Qed.

Lemma processEDU_extends ctx origin cs e :
  ∃ new, processEDU T D ctx origin cs e = cs ++ new ∧
         Forall (wellMade D ctx origin) new.
Proof.
  unfold processEDU, processDeviceListUpdate.
  repeat case_decide.
  - destruct (unmarshalTyping D (Content e)) as [p|]; [|apply extends_nil].
    destruct (SplitID D "@" (typingUserID p)) as [[l domain]|] eqn:Hs;
      [|apply extends_nil].
    case_decide as Hd; [apply extends_nil|]. apply extends_one.
    split; [done|]. simpl. intros u [= <-]. exists l.
    by rewrite <- Hd.
  - destruct (unmarshalToDevice D (Content e)) as [p|]; [|apply extends_nil].
    apply foldl_extends. intros cs1 [userID byUser].
    apply foldl_extends. intros cs2 [deviceID message].
    apply extends_one. by split.
  - destruct (unmarshalDeviceListUpdate D (Content e)) as [p|];
      [|apply extends_nil].
    apply extends_one. by split.
  - destruct (unmarshalReceipt D (Content e)) as [p|]; [|apply extends_nil].
    apply foldl_extends. intros cs1 [roomID receipt].
    apply foldl_extends. intros cs2 [userID mread].
    destruct (SplitID D "@" userID) as [[l domain]|] eqn:Hs;
      [|apply extends_nil].
    case_decide as Hd; [apply extends_nil|].
    destruct (processReceiptEvent_calls ctx userID roomID "m.read"
                (TS mread) (EventIDs mread) cs2) as (n & _ & ->).
    eexists. split; [done|]. unfold receiptCalls.
    apply Forall_fmap, Forall_forall. intros eventID _. split; [done|].
    simpl. intros u [= <-]. exists l. by rewrite Hd.
  - destruct (unmarshalSigningKeyUpdate D (Content e)) as [p|];
      [|apply extends_nil].
    apply extends_one. by split.
  - apply extends_nil.
Qed.

(** X11.  Every EDU of a transaction is counted, whatever becomes of it:
    the counter goes up by the number of EDUs, which is what [recv_edus]
    gets.  An EDU of a type that is none of the five, or with a content
    that does not decode, is passed over without stopping the loop: the
    calls made are those of the transaction without it. *)
Theorem skipped_edu_is_only_counted (ctx : context) (tx : txnReq)
    (before after : list EDU) (e : EDU) (o : Outcome) (s : State) :
  NoDup [MTyping T; MDirectToDevice T; MDeviceListUpdate T; MReceipt T;
         MSigningKeyUpdate T] →
  passedOver T D e → EDUs tx = before ++ e :: after →
  calls (processEDUs T D ctx tx o) =
    calls (processEDUs T D ctx (withEDUs tx (before ++ after)) o) ∧
  counted (processEDUs T D ctx tx o) =
    S (counted (processEDUs T D ctx (withEDUs tx (before ++ after)) o)) ∧
  counted (processEDUs T D ctx tx o) = counted o + length (EDUs tx) ∧
  eduCountTotal (routing.processEDUs tx s) =
    eduCountTotal s + length (EDUs tx).
Proof.
  intros Hnd Hp He. rewrite !processEDUs_fold. simpl. rewrite He.
  rewrite !foldl_app. simpl.
  rewrite (passedOver_processEDU _ _ _ _ Hnd Hp).
  split; [done|]. rewrite !length_app. simpl. split; [lia|]. done.
Qed.

(** X12.  [processEDUs] only adds calls, and every call it adds for a
    transaction is well made: a typing notification or a receipt is
    passed on only for a user whose ID splits into a local part and the
    origin of the transaction; the device-list update goes to the key
    server under the background context, every other call is made under
    the context [processEDUs] was given. *)
Theorem edu_calls_are_well_made (ctx : context) (tx : txnReq)
    (o : Outcome) :
  ∃ new, calls (processEDUs T D ctx tx o) = calls o ++ new ∧
         ∀ c, c ∈ new → wellMade D ctx (Origin tx) c.
Proof.
  rewrite processEDUs_fold. simpl.
  destruct (foldl_extends (wellMade D ctx (Origin tx))
              (processEDU T D ctx (Origin tx)) (EDUs tx)
              (processEDU_extends ctx (Origin tx)) (calls o))
    as (new & -> & Hall).
  exists new. split; [done|]. by apply Forall_forall.
Qed.

(** X13.  [processReceiptEvent] stores the event IDs in order and stops
    at the first one that the EDU server refuses: the calls made are
    those for the first [n] event IDs; without an error that is all of
    them and every call succeeded, with an error the [n]th call is the
    one that failed, its error is wrapped, and nothing is stored for the
    event IDs after it. *)
Theorem receipts_stop_at_first_failure (ctx : context)
    (userID roomID receiptType : string) (timestamp : Z)
    (eventIDs : list string) (cs : list Call) :
  ∃ n, n ≤ length eventIDs ∧
    (processReceiptEvent D ctx userID roomID receiptType timestamp
       eventIDs cs).1 =
      cs ++ receiptCalls ctx userID roomID receiptType timestamp eventIDs n ∧
    (∀ i eventID, i < n → eventIDs !! i = Some eventID →
       InputReceiptEventError D
         (cs ++ receiptCalls ctx userID roomID receiptType timestamp
                  eventIDs i)
         (InputReceiptEvent ctx userID roomID eventID receiptType timestamp)
       = None ∨
       S i = n ∧
       ∃ err,
         InputReceiptEventError D
           (cs ++ receiptCalls ctx userID roomID receiptType timestamp
                    eventIDs i)
           (InputReceiptEvent ctx userID roomID eventID receiptType
              timestamp) = Some err ∧
         (processReceiptEvent D ctx userID roomID receiptType timestamp
            eventIDs cs).2 =
           Some ("unable to set receipt event: " +:+ err)) ∧
    ((processReceiptEvent D ctx userID roomID receiptType timestamp
        eventIDs cs).2 = None →
     n = length eventIDs ∧
     ∀ i eventID, eventIDs !! i = Some eventID →
       InputReceiptEventError D
         (cs ++ receiptCalls ctx userID roomID receiptType timestamp
                  eventIDs i)
         (InputReceiptEvent ctx userID roomID eventID receiptType timestamp)
       = None).
Proof.
  unfold receiptCalls. revert cs.
  induction eventIDs as [|eventID eventIDs IH]; intros cs; simpl.
  - exists 0. split; [done|]. split; [by rewrite app_nil_r|].
    split; [intros; lia|]. intros _. split; [done|]. intros i ?.
    by rewrite lookup_nil.
  - destruct (InputReceiptEventError D cs
                (InputReceiptEvent ctx userID roomID eventID receiptType
                   timestamp)) as [err|] eqn:Herr; simpl.
    + exists 1. split; [lia|]. split; [by rewrite ?take_0|].
      split; [|done]. intros i ev Hi Hl.
      assert (i = 0) as -> by lia. simpl in Hl. injection Hl as <-.
      right. split; [done|]. exists err. simpl. rewrite app_nil_r. done.
    + destruct (IH (cs ++ [InputReceiptEvent ctx userID roomID eventID
                             receiptType timestamp]))
        as (n & Hn & Hcalls & Hsteps & Hall).
      exists (S n). split; [lia|].
      split; [rewrite Hcalls; simpl; by rewrite <- app_assoc|].
      split.
      * intros [|i] ev Hi Hl; simpl in Hl.
        -- injection Hl as <-. left. simpl. by rewrite app_nil_r.
        -- destruct (Hsteps i ev) as [H|(Hin & err & H & Hres)];
             [lia|done| |].
           ++ left. simpl. by rewrite <- app_assoc in H.
           ++ right. split; [lia|]. exists err. simpl.
              rewrite <- app_assoc in H. done.
      * intros Hnone. destruct (Hall Hnone) as [-> Hok].
        split; [done|]. intros [|i] ev Hl; simpl in Hl.
        -- injection Hl as <-. simpl. by rewrite app_nil_r.
        -- specialize (Hok i ev Hl). simpl.
           by rewrite <- app_assoc in Hok.
Qed.

(** X14.  A to-device EDU is passed on whole and unchecked: for every
    device of every user of the payload one call is made, in the order of
    the payload, with the sender and the type that the payload gives;
    neither the origin of the transaction nor the domain of the sender
    plays a part. *)
Theorem to_device_is_passed_on (ctx : context) (origin : string)
    (cs : list Call) (e : EDU) (p : ToDeviceMessage) :
  MTyping T ≠ MDirectToDevice T →
  Type_ e = MDirectToDevice T →
  unmarshalToDevice D (Content e) = Some p →
  processEDU T D ctx origin cs e = cs ++ toDeviceCalls ctx p ∧
  ∀ origin', processEDU T D ctx origin' cs e =
             processEDU T D ctx origin cs e.
Proof.
  intros Hne Ht Hp.
  assert (∀ o, processEDU T D ctx o cs e = cs ++ toDeviceCalls ctx p) as H.
  { intros o. unfold processEDU.
    rewrite decide_False by congruence.
    rewrite decide_True, Hp by done.
    unfold toDeviceCalls. generalize (Messages p) as ms. intros ms.
    revert cs. induction ms as [|[userID byUser] ms IH]; intros cs; simpl.
    - by rewrite app_nil_r.
    - rewrite IH. rewrite app_assoc. f_equal.
      clear IH. revert cs.
      induction byUser as [|[deviceID message] byUser IH]; intros cs; simpl.
      + by rewrite app_nil_r.
      + rewrite IH. by rewrite <- app_assoc. }
  split; [apply H|]. intros origin'. by rewrite !H.
Qed.

End edu_facts.

(** ** The other routes *)

Section more_routes.
Import inthttp routes.

Lemma Match_None_notin (r : Router) (path : string) :
  Match r path = None ↔ path ∉ r.*1.
Proof.
  induction r as [|[p h] r IH]; simpl.
  - split; [intros _ Hin; by apply elem_of_nil in Hin|done].
  - case_decide as Hp.
    + split; [done|]. intros Hn. destruct Hn. subst. apply list_elem_of_here.
    + rewrite IH, not_elem_of_cons.
      split; [intros ?; split; [congruence|done]|by intros [_ ?]].
Qed.

Lemma Match_NoDup (r : Router) (path : string) (h : RouteHandler) :
  NoDup r.*1 → (path, h) ∈ r → Match r path = Some h.
Proof.
  induction r as [|[p h'] r IH]; simpl; intros Hnd Hin.
  - by apply elem_of_nil in Hin.
  - apply NoDup_cons in Hnd as [Hp Hnd].
    apply elem_of_cons in Hin as [[= -> ->]|Hin].
    + by rewrite decide_True.
    + case_decide as Heq; [|auto]. subst. destruct Hp.
      apply list_elem_of_fmap. by exists (path, h).
Qed.

Lemma Match_shadowed (r1 r2 : Router) (p q : string) (h : RouteHandler) :
  p ∈ r1.*1 →
  Match (r1 ++ (p, h) :: r2) q = Match (r1 ++ r2) q.
Proof.
  intros Hin. rewrite !Match_app. simpl.
  destruct (Match r1 q) eqn:Hm; [done|].
  case_decide; [|done]. subst. apply Match_None_notin in Hm. done.
Qed.

(** X15.  Apart from [GetUserDevices], every handler that [AddRoutes]
    registers is served at its path, provided the twenty path constants
    differ from each other and the router had no route for that path
    before; the routes the router had before keep being served; and a
    path that is none of the twenty is served as before. *)
Theorem AddRoutes_serves_the_other_routes (P : Paths) (mux : Router)
    (p : string) (h : RouteHandler) :
  NoDup (paths P) → (p, h) ∈ AddRoutes P [] →
  h ≠ MakeInternalProxyAPI "GetUserDevices" →
  (Match mux p = None → Match (AddRoutes P mux) p = Some h) ∧
  (∀ q h', Match mux q = Some h' → Match (AddRoutes P mux) q = Some h') ∧
  (∀ q, q ∉ paths P → Match (AddRoutes P mux) q = Match mux q).
Proof.
  intros Hnd Hin Hh.
  assert (AddRoutes P [] =
          take 6 (AddRoutes P []) ++
          (FederationAPIPerformJoinRequestPath P,
           MakeInternalProxyAPI "GetUserDevices") ::
          drop 7 (AddRoutes P [])) as Htable by reflexivity.
  assert ((take 6 (AddRoutes P []) ++ drop 7 (AddRoutes P [])).*1 = paths P)
    as Hkeys by reflexivity.
  assert (∀ q, Match (AddRoutes P []) q =
               Match (take 6 (AddRoutes P []) ++ drop 7 (AddRoutes P [])) q)
    as Hsame.
  { intros q. rewrite Htable at 1. apply Match_shadowed.
    unfold AddRoutes, Handle. simpl. repeat constructor. }
  rewrite AddRoutes_table. split; [|split].
  - intros Hm. rewrite Match_app, Hm, Hsame.
    apply Match_NoDup; [by rewrite Hkeys|].
    rewrite Htable in Hin.
    apply elem_of_app in Hin as [Hin|Hin]; [apply elem_of_app; by left|].
    apply elem_of_cons in Hin as [[= -> ->]|Hin]; [done|].
    apply elem_of_app. by right.
  - intros q h' Hm. by rewrite Match_app, Hm.
  - intros q Hq. rewrite Match_app.
    destruct (Match mux q) eqn:Hm; [done|].
    rewrite Hsame. apply Match_None_notin. by rewrite Hkeys.
Qed.

End more_routes.

(** ** Tasks left behind *)

Section stranded_facts.
Import pool.
Context (d : Deps).

Lemma stepSend_spawns tid b s s' wt :
  stepSend d tid b s = Some s' → workers s' = workers s ++ [wt] →
  ∃ th ch f pdus,
    sends s !! tid = Some th ∧ pc th = AtCAS ch f pdus (room wt).
Proof.
  unfold stepSend, LoadOrStore. intros H.
  repeat (simplify_option_eq || case_match); simpl;
    try (intros Hw; apply (f_equal length) in Hw;
         rewrite length_app in Hw; simpl in Hw; lia).
  intros [= <-]%app_inv_head. simpl. eauto 10.
Qed.

(** X16.  A task that is left behind stays so until another invocation
    starts a worker for its room, which it does only after pushing a
    task of its own for that room: no step of any worker, no arrival, no
    cancellation and no passing of time serves the queue, and meanwhile
    the counter of the task's wait group stays above zero, so that the
    invocation that made the task cannot get past [wg.Wait()]. *)
Theorem stranded_until_next_start (s : State) (r : string) (task : nat)
    (act : Action) (s' : State) :
  reachable d s → stranded s r task → step d act s = Some s' →
  (∃ tk, taskHeap s !! task = Some tk ∧ RoomID (unwrap (event tk)) = r ∧
         0 < wgCounter s (wg tk) ∧
         ∀ th ch f b, sends s !! wg tk = Some th → pc th = AtWait ch f →
                      stepSend d (wg tk) b s = None) ∧
  (stranded s' r task ∨
   ∃ tid b th ch f pdus,
     act = StepSend tid b ∧ sends s !! tid = Some th ∧
     pc th = AtCAS ch f pdus r).
Proof.
  intros Hr [(w & Hw & Hrun & Hin) Hex] Hstep.
  pose proof (reachable_poolInv d _ Hr) as Hpool.
  pose proof (reachable_wgInv d _ Hr) as Hwg.
  split.
  - destruct (queue_tasks _ Hpool _ _ _ Hw Hin)
      as (task' & tk & [= <-] & Hl & Hroom).
    assert (wgCounter s (wg tk) ≠ 0) as Hpos.
    { rewrite (Hwg (wg tk)). refine (owed_pos _ _ _ Hpool Hl _).
      left. by exists r, w. }
    exists tk. split; [done|]. split; [done|]. split; [lia|].
    intros th ch f b Hth Hpc. unfold stepSend. rewrite Hth. simpl.
    rewrite Hpc. unfold wgIdle. by rewrite bool_decide_eq_false_2.
  - destruct act as [a|tid b|wid|id|dt]; simpl in Hstep.
    + left. simplify_eq. split; [by exists w|done].
    + destruct (stepSend_pool d _ _ _ _ Hstep)
        as [(Hi & Hh & Hws)
           |[(tk & w0 & Hw0 & Hh & Hi & Hws)
            |(r' & w' & Hl' & Hrun' & Hi & Hws & Hh)]].
      * left. split; [rewrite Hi; by exists w|by rewrite Hws].
      * left. split; [|by rewrite Hws]. rewrite Hi.
        destruct (decide (RoomID (unwrap (event tk)) = r)) as [Heq|Hne].
        -- rewrite Heq in *. destruct Hw0 as [Hw0|[Hw0 _]]; [|congruence].
           rewrite Hw in Hw0. injection Hw0 as <-.
           eexists. split; [by rewrite lookup_insert_eq|]. simpl.
           split; [done|]. apply elem_of_app. by left.
        -- exists w. by rewrite lookup_insert_ne.
      * destruct (decide (r' = r)) as [->|Hne].
        -- right.
           destruct (stepSend_spawns _ _ _ _ _ Hstep Hws)
             as (th & ch & f & pdus & Hth & Hpc).
           simpl in Hpc. eauto 10.
        -- left. split.
           ++ rewrite Hi. exists w. by rewrite lookup_insert_ne.
           ++ rewrite Hws. intros wid th.
              intros [[_ Hl]|[_ <-]]%lookup_snoc_Some; [eauto|done].
    + left.
      destruct (stepWorker_pool d _ _ _ Hstep)
        as (th & pc' & Hth & Hws & _ & _ & Hcase).
      assert (room th ≠ r) as Hne.
      { intros Heq. specialize (Hex _ _ Hth Heq). rewrite Hex in Hcase.
        by destruct Hcase as [(? & ? & ? & ? & ? & _)
                             |[(? & ? & _)|[(? & ? & _)|(? & ? & _)]]]. }
      split.
      * exists w.
        destruct Hcase as [(? & ? & ? & ? & _ & _ & _ & Hi & _)
                          |[(? & _ & _ & Hi)
                           |[(? & _ & _ & Hi)|(? & _ & _ & _ & Hi)]]];
          rewrite Hi, ?lookup_insert_ne; done.
      * rewrite Hws. intros wid' th'.
        intros [[-> ->]|[_ Hl]]%(lookup_wmoved _ _ _ _ _ _ Hth); [done|eauto].
    + left. simplify_eq. split; [by exists w|done].
    + left. case_match; simplify_eq. split; [by exists w|done].
Qed.

End stranded_facts.

(** ** What has been handed to the roomserver *)

Section done_facts.
Import pool.
Context (d : Deps).

Lemma stepSend_submits tid b s s' :
  stepSend d tid b s = Some s' → roomserverInput s' = roomserverInput s.
Proof.
  unfold stepSend, LoadOrStore. intros H.
  repeat (simplify_option_eq || case_match); done.
Qed.

Lemma stepWorker_submits wid s s' th :
  stepWorker d wid s = Some s' → workers s !! wid = Some th →
  (∀ task tk, wpc th = AtTask task → taskHeap s !! task = Some tk →
     ctxDone (world s) (ctx tk) = false →
     roomserverInput s' = roomserverInput s ++ [(event tk, Origin (t tk))]) ∧
  ∃ l, roomserverInput s' = roomserverInput s ++ l.
Proof.
  unfold stepWorker, wgDone, recordOutcome, processEvent. intros H Hth.
  rewrite Hth in H. simpl in H.
  repeat (simplify_option_eq || case_match); simpl.
  all: split; [intros; simplify_eq; try done; try congruence|].
  all: try (by exists []; rewrite app_nil_r).
  all: try (by eexists).
Qed.

Lemma atTask_inHands s task : atTask s task → inHands s task.
Proof.
  intros (wid & th & Hth & Hpc). exists wid, th. by rewrite Hpc.
Qed.

Lemma atTask_moved s s' wid th pc' :
  workers s !! wid = Some th →
  workers s' = alter (λ th, mkWorkerThread (room th) pc') wid (workers s) →
  ∀ task, atTask s' task ↔
  pc' = AtTask task ∨
  ∃ wid' th', wid' ≠ wid ∧ workers s !! wid' = Some th' ∧
              wpc th' = AtTask task.
Proof.
  intros Hth Hw task. unfold atTask. rewrite Hw. split.
  - intros (wid' & th' & Hl & Hin).
    apply (lookup_wmoved _ _ _ _ _ _ Hth) in Hl as [[-> ->]|[Hne Hl]];
      [by left|right; eauto].
  - intros [Hin|(wid' & th' & Hne & Hl & Hin)].
    + exists wid, (mkWorkerThread (room th) pc'). split; [|done].
      rewrite list_lookup_alter, decide_True by done. by rewrite Hth.
    + exists wid', th'. split; [|done].
      by rewrite list_lookup_alter, decide_False.
Qed.

Lemma atTask_split s wid th :
  workers s !! wid = Some th →
  ∀ task, atTask s task ↔
  wpc th = AtTask task ∨
  ∃ wid' th', wid' ≠ wid ∧ workers s !! wid' = Some th' ∧
              wpc th' = AtTask task.
Proof.
  intros Hth task. unfold atTask. split.
  - intros (wid' & th' & Hl & Hin).
    destruct (decide (wid' = wid)) as [->|Hne]; [|right; eauto].
    left. congruence.
  - intros [Hin|(wid' & th' & Hne & Hl & Hin)]; eauto.
Qed.

(** A step hands a task's event to the roomserver, or leaves the handled
    tasks as they were. *)
Lemma handled_stepSend tid b s s' task :
  poolInv s → stepSend d tid b s = Some s' →
  is_Some (taskHeap s' !! task) → handled s' task →
  is_Some (taskHeap s !! task) ∧ handled s task.
Proof.
  intros Hpool Hstep Hsome [Hq Ht].
  destruct (stepSend_pool d _ _ _ _ Hstep)
    as [(Hi & Hh & Hw)
       |[(tk & w0 & Hw0 & Hh & Hi & Hw)
        |(r & w & Hl & Hrun & Hi & Hw & Hh)]].
  - rewrite Hh in Hsome. split; [done|]. unfold handled, inQueue, atTask in *.
    by rewrite Hi, Hw in *.
  - destruct (decide (task = length (taskHeap s))) as [->|Hne].
    { destruct Hq. eexists _, _. split; [by rewrite Hi, lookup_insert_eq|].
      simpl. apply elem_of_app. right. apply list_elem_of_here. }
    assert (is_Some (taskHeap s !! task)) as Hs.
    { rewrite Hh in Hsome. apply lookup_lt_is_Some in Hsome.
      rewrite length_app in Hsome. simpl in Hsome.
      apply lookup_lt_is_Some. lia. }
    split; [done|]. split.
    + intros (r & w & Hl & Hin). apply Hq. unfold inQueue. rewrite Hi.
      destruct (decide (RoomID (unwrap (event tk)) = r)) as [<-|Hr].
      * eexists _, _. split; [by rewrite lookup_insert_eq|]. simpl.
        destruct Hw0 as [Hw0|[Hw0 _]]; [|congruence].
        rewrite Hl in Hw0. injection Hw0 as <-.
        apply elem_of_app. by left.
      * exists r, w. by rewrite lookup_insert_ne.
    + unfold atTask in *. by rewrite Hw in Ht.
  - rewrite Hh in Hsome. split; [done|]. split.
    + intros (r' & w' & Hl' & Hin). apply Hq. unfold inQueue. rewrite Hi.
      destruct (decide (r = r')) as [<-|Hne].
      * eexists _, _. split; [by rewrite lookup_insert_eq|]. simpl.
        congruence.
      * exists r', w'. by rewrite lookup_insert_ne.
    + intros (wid & th & Hl' & Hin). apply Ht. exists wid, th.
      split; [|done]. rewrite Hw. by apply lookup_app_l_Some.
Qed.

Lemma handled_stepWorker wid s s' task tk' :
  poolInv s → tasksInv d s → stepWorker d wid s = Some s' →
  taskHeap s' !! task = Some tk' → handled s' task →
  (∃ tk, taskHeap s !! task = Some tk ∧ event tk = event tk' ∧
         t tk = t tk' ∧ handled s task) ∨
  (event tk', Origin (t tk')) ∈ roomserverInput s'.
Proof.
  intros Hpool Htasks Hstep Hl' [Hq Ht].
  destruct (stepWorker_pool d _ _ _ Hstep)
    as (th & pc' & Hth & Hw & Hfw & Hbw & Hcase).
  destruct (Hbw _ _ Hl') as (tk & Hl & _ & Htt & Hev & _).
  pose proof (atTask_moved _ _ _ _ _ Hth Hw) as Hmoved.
  pose proof (atTask_split s _ _ Hth) as Hsplit.
  rewrite Hmoved in Ht.
  assert (∀ P : Prop, (inQueue s task → inQueue s' task) →
            (wpc th = AtTask task → P) →
            (∃ tk, taskHeap s !! task = Some tk ∧ event tk = event tk' ∧
                   t tk = t tk' ∧ handled s task) ∨ P) as Hkeep.
  { intros P HQ HP.
    assert (wpc th = AtTask task ∨ wpc th ≠ AtTask task) as [Hpc|Hpc].
    { destruct (wpc th) as [|task1| | |]; try (by right).
      destruct (decide (task1 = task)) as [->|]; [by left|].
      right. congruence. }
    { right. auto. }
    left. exists tk. repeat split; try done; [by intros ?%HQ|].
    rewrite Hsplit. intros [?|?]; [done|]. apply Ht. by right. }
  destruct Hcase as [(w & q & frame & ok & Hpc & Hlw & Hpop & Hi & Hpc')
                    |[(task0 & Hpc & Hpc' & Hi)
                     |[(task0 & Hpc & Hpc' & Hi)
                      |(w & Hpc & Hpc' & Hlw & Hi)]]].
  - apply Hkeep; [|by rewrite Hpc].
    destruct (pop_wf _ _ _ _ (queue_wf _ Hpool _ _ Hlw) Hpop)
      as [(-> & -> & -> & Hnil)|(-> & Hcons & Hwf)].
    + by rewrite (inQueue_same s s' _ _ _ task Hlw Hi).
    + destruct (queue_tasks _ Hpool _ _ frame Hlw)
        as (task0 & tk0 & -> & Hl0 & Hr0).
      { rewrite Hcons. apply list_elem_of_here. }
      subst pc'.
      destruct (decide (task0 = task)) as [->|Hne];
        [destruct Ht; by left|].
      intros (r' & w' & Hlw' & Hin). unfold inQueue. rewrite Hi.
      destruct (decide (room th = r')) as [<-|Hr].
      * rewrite Hlw in Hlw'. injection Hlw' as <-. rewrite Hcons in Hin.
        apply elem_of_cons in Hin as [[= ->]|Hin]; [done|].
        eexists _, _. split; [by rewrite lookup_insert_eq|done].
      * exists r', w'. by rewrite lookup_insert_ne.
  - apply Hkeep; [unfold inQueue; by rewrite Hi|].
    rewrite Hpc. intros [= ->].
    destruct (task_made _ _ Htasks _ _ Hl) as [Hctx _].
    destruct (stepWorker_submits _ _ _ _ Hstep Hth) as [Hsub _].
    rewrite (Hsub _ _ Hpc Hl) by (by rewrite Hctx).
    apply elem_of_app. right. rewrite Hev, Htt. apply list_elem_of_here.
  - apply Hkeep; [unfold inQueue; by rewrite Hi|by rewrite Hpc].
  - apply Hkeep; [|by rewrite Hpc].
    by rewrite (inQueue_same s s' _ _ _ task Hlw Hi).
Qed.

Lemma stepSend_own tid b s s' th th' f' task :
  stepSend d tid b s = Some s' → sends s !! tid = Some th →
  sends s' !! tid = Some th' → frameOf (pc th') = Some f' →
  task ∈ ftasks f' →
  (∃ f, frameOf (pc th) = Some f ∧ task ∈ ftasks f) ∨
  (∃ tk, taskHeap s' !! task = Some tk ∧ wg tk = tid).
Proof.
  unfold stepSend, LoadOrStore. intros H Hth. rewrite Hth in H. simpl in H.
  repeat (simplify_option_eq || case_match);
    rewrite (lookup_moved_eq _ _ _ _ Hth); intros [= <-]; simpl;
    intros [= <-]; simpl; intros Hin;
    try (by apply elem_of_nil in Hin);
    try (by left; eauto).
  all: apply elem_of_app in Hin as [Hin|Hin%list_elem_of_singleton];
    [by left; eauto|right].
  all: subst; rewrite list_lookup_middle by done; eauto.
Qed.

Lemma doneInv_step act s s' :
  reachable d s → doneInv s → step d act s = Some s' → doneInv s'.
Proof.
  intros Hr [Hsub Hown] Hstep.
  pose proof (reachable_poolInv d _ Hr) as Hpool.
  pose proof (reachable_tasksInv d _ Hr) as Htasks.
  destruct act as [a|tid b|wid|id|dt]; simpl in Hstep.
  - simplify_eq. split; [done|]. simpl.
    intros tid th f task [[_ Hth]|[_ <-]]%lookup_snoc_Some; [eauto|done].
  - split.
    + intros task tk' Hl' Hh.
      destruct (handled_stepSend _ _ _ _ _ Hpool Hstep (mk_is_Some _ _ Hl') Hh)
        as [[tk Hl] Hh0].
      rewrite (stepSend_submits _ _ _ _ Hstep).
      destruct (stepSend_frame d _ _ _ _ Hstep)
        as (th & pc' & _ & _ & Hheap & _).
      destruct (Hheap _ _ Hl) as (tk2 & Hl2 & _ & Htt & Hev & _).
      rewrite Hl' in Hl2. injection Hl2 as <-. rewrite Hev, Htt. eauto.
    + intros tid' th' f' task Hth' Hf' Hin.
      destruct (stepSend_frame d _ _ _ _ Hstep)
        as (th & pc' & Hth & Hs & Hheap & _).
      assert (∀ tid0 th0 f0, sends s !! tid0 = Some th0 →
                frameOf (pc th0) = Some f0 → task ∈ ftasks f0 →
                ∃ tk, taskHeap s' !! task = Some tk ∧ wg tk = tid0) as Hold.
      { intros tid0 th0 f0 Hth0 Hf0 Hin0.
        destruct (Hown _ _ _ _ Hth0 Hf0 Hin0) as (tk & Hl & Hwg).
        destruct (Hheap _ _ Hl) as (tk2 & Hl2 & _ & _ & _ & Hwg2).
        exists tk2. split; [done|congruence]. }
      destruct (decide (tid' = tid)) as [->|Hne].
      * destruct (stepSend_own _ _ _ _ _ _ _ _ Hstep Hth Hth' Hf' Hin)
          as [(f & Hf & Hin0)|?]; [eauto|done].
      * rewrite Hs, lookup_moved_ne in Hth' by done. eauto.
  - split.
    + intros task tk' Hl' Hh.
      destruct (handled_stepWorker _ _ _ _ _ Hpool Htasks Hstep Hl' Hh)
        as [(tk & Hl & Hev & Htt & Hh0)|Hin]; [|done].
      destruct (stepWorker_pool d _ _ _ Hstep) as (th & _ & Hth & _).
      destruct (stepWorker_submits _ _ _ _ Hstep Hth) as [_ [l ->]].
      apply elem_of_app. left. rewrite <- Hev, <- Htt. eauto.
    + destruct (stepWorker_registry d _ _ _ Hstep) as (Hs & _).
      destruct (stepWorker_pool d _ _ _ Hstep)
        as (_ & _ & _ & _ & Hfw & _).
      intros tid th f task Hth Hf Hin. rewrite Hs in Hth.
      destruct (Hown _ _ _ _ Hth Hf Hin) as (tk & Hl & Hwg).
      destruct (Hfw _ _ Hl) as (tk' & Hl' & _ & _ & _ & Hwg').
      exists tk'. split; [done|congruence].
  - simplify_eq. by split.
  - case_match; simplify_eq. by split.
Qed.

Lemma reachable_doneInv s : reachable d s → doneInv s.
Proof.
  induction 1 as [|s act s' Hr IH Hstep]; [|by eapply doneInv_step].
  split; [|done]. intros task tk Hl. simpl in Hl.
  by rewrite lookup_nil in Hl.
Qed.

(** X17.  When [wg.Wait()] lets an invocation through, every event that
    it enqueued has been handed to the roomserver, with the origin of the
    transaction: the events are those of the PDUs that passed the checks,
    and the 200 response, with the empty result for each of them, is
    worked out only then. *)
Theorem accepted_events_reach_roomserver (s : State) (tid : nat)
    (th : SendThread) (ch : nat) (f : frame) (b : bool) :
  reachable d s → sends s !! tid = Some th → pc th = AtWait ch f →
  wgCounter s tid = 0 →
  ∃ results events,
    decodeTransaction d (args th) = inr (ft f) ∧
    examine d (Origin (ft f)) (PDUs (ft f)) ∅ [] = inr (results, events) ∧
    (∀ e, e ∈ events → (e, Origin (ft f)) ∈ roomserverInput s) ∧
    stepSend d tid b s =
      Some (goto tid
              (AtChanSend ch
                 {| Code := StatusOK;
                    JSON := JSONRespSend (settle events results) |}) s).
Proof.
  intros Hr Hth Hpc Hz.
  pose proof (reachable_poolInv d _ Hr) as Hpool.
  pose proof (reachable_wgInv d _ Hr) as Hwg.
  pose proof (reachable_tasksInv d _ Hr) as Htasks.
  pose proof (reachable_doneInv _ Hr) as [Hsub Hown].
  pose proof (reachable_framesInv d _ Hr _ _ Hth) as Hfr.
  rewrite Hpc in Hfr. simpl in Hfr.
  destruct Hfr as (Hdec & _ & examined & events & Hex & Hexam & Hof).
  rewrite app_nil_r in Hex. subst examined.
  exists (results f), events. split; [done|]. split; [done|]. split.
  - intros e Hin.
    apply list_elem_of_lookup in Hin as [i Hi].
    destruct (Forall2_lookup_r _ _ _ _ _ Hof Hi)
      as (task & Hti & tk & Hl & Hev).
    destruct (Hown tid th f task Hth) as (tk2 & Hl2 & Hwgtk);
      [by rewrite Hpc|by eapply list_elem_of_lookup_2|].
    rewrite Hl in Hl2. injection Hl2 as <-.
    destruct (task_made _ _ Htasks _ _ Hl) as (_ & th2 & pdu & Hth2 & Hd2 & _).
    rewrite Hwgtk, Hth in Hth2. injection Hth2 as <-.
    rewrite Hdec in Hd2. injection Hd2 as Htt.
    rewrite <- Hev, Htt. apply (Hsub _ _ Hl).
    assert (¬ (inQueue s task ∨ inHands s task)) as Hout.
    { intros Hout. refine (owed_pos _ _ _ Hpool Hl Hout _).
      by rewrite <- (Hwg (wg tk)), Hwgtk. }
    split; [tauto|]. intros Hat%atTask_inHands. tauto.
  - unfold stepSend. rewrite Hth. simpl. rewrite Hpc.
    unfold wgIdle. rewrite bool_decide_eq_true_2 by done.
    by rewrite (aggregate_settle _ _ _ _ Hof).
Qed.

End done_facts.

(** ** The map of the workers *)

Section worker_map_facts.
Import pool.
Context (d : Deps).

Lemma step_keeps_worker_record act s s' r :
  step d act s = Some s' →
  is_Some (inputWorkers s !! r) → is_Some (inputWorkers s' !! r).
Proof.
  intros Hstep Hr. destruct act as [a|tid b|wid|id|dt]; simpl in Hstep.
  - by simplify_eq.
  - destruct (stepSend_pool d _ _ _ _ Hstep)
      as [(Hi & _)|[(tk & w0 & _ & _ & Hi & _)|(r' & w & _ & _ & Hi & _)]];
      rewrite Hi; [done|apply lookup_insert_is_Some'; by right..].
  - destruct (stepWorker_pool d _ _ _ Hstep)
      as (th & pc' & _ & _ & _ & _ &
          [(? & ? & ? & ? & _ & _ & _ & Hi & _)
          |[(? & _ & _ & Hi)|[(? & _ & _ & Hi)|(? & _ & _ & _ & Hi)]]]);
      rewrite Hi; try done; apply lookup_insert_is_Some'; by right.
  - by simplify_eq.
  - case_match; by simplify_eq.
Qed.

(** X18.  The map [inputWorkers] only grows: once a room has a worker
    record, whatever happens afterwards, it keeps one, also when its
    goroutine has finished and its queue is empty. *)
Theorem worker_records_are_never_removed (acts : list Action)
    (s s' : State) (r : string) :
  run d acts s = Some s' →
  is_Some (inputWorkers s !! r) → is_Some (inputWorkers s' !! r).
Proof.
  revert s. induction acts as [|act acts IH]; intros s; simpl.
  - by intros [= ->].
  - destruct (step d act s) as [s1|] eqn:Hstep; [|done]. simpl.
    intros Hrun Hr. apply (IH s1 Hrun).
    by eapply step_keeps_worker_record.
Qed.

End worker_map_facts.

(** ** The pool, the answers and the EDUs at work *)

Section more_runs.
Import sample samplePool pool answers.

Lemma worker_always_steps_witness :
  ∃ s' th', stepWorker deps 0 (after started) = Some s' ∧
            workers s' !! 0 = Some th' ∧ room th' = "!r".
Proof.
  destruct (worker_always_steps deps (after started) 0
              {| room := "!r"; wpc := AtPop |})
    as (s' & th' & Hstep & Hth & Hroom & _).
  - apply after_reachable. vm_compute. eauto.
  - reflexivity.
  - reflexivity.
  - exists s', th'. split; [exact Hstep|]. split; [exact Hth|exact Hroom].
Defined.

Lemma one_worker_per_room_witness :
  ∃ w, inputWorkers (after started) !! "!r" = Some w ∧ running w = true.
Proof.
  destruct (one_worker_per_room deps (after started)) as (_ & H & _).
  - apply after_reachable. vm_compute. eauto.
  - apply (H 0 {| room := "!r"; wpc := AtPop |}); reflexivity.
Defined.


Lemma lost_wakeup_witness :
  ∃ s', run deps [StepSend 0 false; StepWorker 0] (after race) = Some s' ∧
        stranded s' "!r" 1.
Proof.
  destruct (lost_wakeup deps (after race) 0
              (mkSend twoGood
                 (AtCAS 0
                    {| fctx := Background;
                       ft := {| PDUs := ["a"; "b"]; EDUs := [];
                                Origin := "a.example";
                                TransactionID := "t1";
                                Destination := "local.example" |};
                       results := ∅; ftasks := [0; 1] |} [] "!r"))
              0 {| fctx := Background;
                   ft := {| PDUs := ["a"; "b"]; EDUs := [];
                            Origin := "a.example"; TransactionID := "t1";
                            Destination := "local.example" |};
                   results := ∅; ftasks := [0; 1] |} [] "!r" 0
              {| room := "!r"; wpc := AtStoreRunning |}
              {| running := true;
                 input := {| tasks := [Some 1]; count := 1;
                             notifs := true |} |} false)
    as (s' & Hrun & _ & _ & _ & H).
  - apply after_reachable. vm_compute. eauto.
  - reflexivity.
  - reflexivity.
  - reflexivity.
  - reflexivity.
  - reflexivity.
  - reflexivity.
  - exists s'. split; [exact Hrun|].
    apply (H 1). apply list_elem_of_here.
Defined.

Lemma wait_group_counts_outstanding_witness :
  wgCounter (after served) 0 = owed (after served) 0.
Proof.
  destruct (wait_group_counts_outstanding deps (after served) 0)
    as (_ & H & _).
  - apply after_reachable. vm_compute. eauto.
  - apply (H (mkSend oneGood
                (AtWait 0
                   {| fctx := Background;
                      ft := {| PDUs := ["a"]; EDUs := [];
                               Origin := "a.example";
                               TransactionID := "t1";
                               Destination := "local.example" |};
                      results := ∅; ftasks := [0] |}))
             0 {| fctx := Background;
                  ft := {| PDUs := ["a"]; EDUs := [];
                           Origin := "a.example"; TransactionID := "t1";
                           Destination := "local.example" |};
                  results := ∅; ftasks := [0] |}); reflexivity.
Defined.

Lemma send_answers_witness :
  ∃ res,
    sends (after (rejected ++ [StepSend 1 false])) !! 1 =
      Some (mkSend oldRoom (Returned res)) ∧
    (res = timedOut ∨ res = accepted).
Proof.
  destruct (send_answers deps (after rejected)) as (_ & H & _).
  { apply after_reachable. vm_compute. eauto. }
  destruct (H 1 (mkSend oldRoom
                   (AtSelect 0
                      (WithTimeout (RequestContext 1) (0 + Minute * 5))))
              0 (WithTimeout (RequestContext 1) (0 + Minute * 5)) false
              (after (rejected ++ [StepSend 1 false])))
    as (res & c & leader & Hth' & Hc & _ & Hl & _ & _ & H400).
  - reflexivity.
  - reflexivity.
  - vm_compute. reflexivity.
  - exists res. split; [exact Hth'|]. apply H400.
    vm_compute in Hc. injection Hc as <-.
    vm_compute in Hl. injection Hl as <-.
    vm_compute. reflexivity.
Defined.

Lemma registry_entries_are_live_witness :
  ∃ tid th c,
    sends (after [Arrive oneGood; StepSend 0 false]) !! tid = Some th ∧
    index (args th) = index oneGood ∧ inSend (pc th) = true ∧
    owns (pc th) = Some 0 ∧
    chans (after [Arrive oneGood; StepSend 0 false]) !! 0 = Some c ∧
    maker c = tid ∧ closed c = false.
Proof.
  destruct (registry_entries_are_live deps
              (after [Arrive oneGood; StepSend 0 false])) as (H & _).
  - apply after_reachable. vm_compute. eauto.
  - apply (H (index oneGood) 0). reflexivity.
Defined.

Lemma index_injective_witness :
  index oneGood = index banned ↔
  requestOrigin oneGood = requestOrigin banned ∧
  txnID oneGood = txnID banned.
Proof.
  refine (proj1 (index_injective oneGood banned _ _)); reflexivity.
Defined.

Lemma stranded_until_next_start_witness :
  ∃ tk, taskHeap (after lost) !! 1 = Some tk ∧
        RoomID (unwrap (event tk)) = "!r" ∧
        0 < wgCounter (after lost) (wg tk).
Proof.
  destruct (stranded_until_next_start deps (after lost) "!r" 1
              (StepSend 0 false)
              (after (lost ++ [StepSend 0 false])))
    as ((tk & Hl & Hroom & Hpos & _) & _).
  - apply after_reachable. vm_compute. eauto.
  - split.
    + exists {| running := false;
                input := {| tasks := [Some 1]; count := 1;
                            notifs := true |} |}.
      split; [reflexivity|]. split; [reflexivity|].
      apply list_elem_of_here.
    + assert (workers (after lost) = [{| room := "!r"; wpc := Exited |}])
        as Hw by (vm_compute; reflexivity).
      rewrite Hw. intros [|wid] th Hth Hroom; [|done].
      by injection Hth as <-.
  - vm_compute. reflexivity.
  - exists tk. split; [exact Hl|]. split; [exact Hroom|exact Hpos].
Defined.

Lemma accepted_events_reach_roomserver_witness :
  (Headered {| EventID := "$a"; RoomID := "!r"; eventJSON := "a" |} "6",
   "a.example") ∈ roomserverInput (after served).
Proof.
  destruct (accepted_events_reach_roomserver deps (after served) 0
              (mkSend oneGood
                 (AtWait 0
                    {| fctx := Background;
                       ft := {| PDUs := ["a"]; EDUs := [];
                                Origin := "a.example";
                                TransactionID := "t1";
                                Destination := "local.example" |};
                       results := ∅; ftasks := [0] |}))
              0 {| fctx := Background;
                   ft := {| PDUs := ["a"]; EDUs := [];
                            Origin := "a.example"; TransactionID := "t1";
                            Destination := "local.example" |};
                   results := ∅; ftasks := [0] |} false)
    as (results & events & _ & Hexam & Hall & _).
  - apply after_reachable. vm_compute. eauto.
  - reflexivity.
  - reflexivity.
  - reflexivity.
  - apply Hall. vm_compute in Hexam. injection Hexam as _ <-.
    apply list_elem_of_here.
Defined.

Lemma worker_records_are_never_removed_witness :
  is_Some (inputWorkers (after (started ++ replicate 5 (StepWorker 0)))
             !! "!r").
Proof.
  apply (worker_records_are_never_removed deps (replicate 5 (StepWorker 0))
           (after started) _ "!r").
  - vm_compute. reflexivity.
  - vm_compute. eauto.
Defined.

End more_runs.

Section edu_runs.
Import edus sampleEdus.

Lemma skipped_edu_is_only_counted_witness :
  calls (processEDUs types decoders Background
           (txn [mkEDU "m.typing" "alice"; mkEDU "m.presence" "{}";
                 mkEDU "m.receipt" "read"])
           {| counted := 0; calls := [] |}) =
  calls (processEDUs types decoders Background
           (withEDUs
              (txn [mkEDU "m.typing" "alice"; mkEDU "m.presence" "{}";
                    mkEDU "m.receipt" "read"])
              ([mkEDU "m.typing" "alice"] ++ [mkEDU "m.receipt" "read"]))
           {| counted := 0; calls := [] |}).
Proof.
  refine (proj1 (skipped_edu_is_only_counted types decoders Background
                   (txn [mkEDU "m.typing" "alice"; mkEDU "m.presence" "{}";
                         mkEDU "m.receipt" "read"])
                   [mkEDU "m.typing" "alice"] [mkEDU "m.receipt" "read"]
                   (mkEDU "m.presence" "{}")
                   {| counted := 0; calls := [] |} initial _ _ _)).
  - apply (bool_decide_unpack _). vm_compute. exact I.
  - repeat right. repeat split; discriminate.
  - reflexivity.
Defined.

Lemma to_device_is_passed_on_witness :
  processEDU types decoders Background "a.example" []
    (mkEDU "m.direct_to_device" "keys") =
  [] ++ toDeviceCalls Background sampleToDevice.
Proof.
  refine (proj1 (to_device_is_passed_on types decoders Background
                   "a.example" [] (mkEDU "m.direct_to_device" "keys")
                   sampleToDevice _ _ _)).
  - discriminate.
  - reflexivity.
  - reflexivity.
Defined.

End edu_runs.

Section route_runs.
Import inthttp routes samplePool.

Lemma AddRoutes_serves_the_other_routes_witness :
  Match (AddRoutes somePaths []) "/g" = Some (MakeInternalProxyAPI "ClaimKeys").
Proof.
  refine (proj1 (AddRoutes_serves_the_other_routes somePaths [] "/g"
                   (MakeInternalProxyAPI "ClaimKeys") _ _ _) _).
  - apply (bool_decide_unpack _). vm_compute. exact I.
  - vm_compute. do 7 apply list_elem_of_further. apply list_elem_of_here.
  - discriminate.
  - reflexivity.
Defined.

End route_runs.
